(** * appotech-re: codecs and injection engine of the AppoTech firmware tools

    A shallow embedding of the Python sources
    ([src/common.py], [src/obj/btinfo.py], [src/obj/btpairing.py],
    [src/obj/sfx.py], [appotech-btpairing.py], [appotech-sfx.py])
    together with the properties of the specification that concern them.

    Conventions.  A Python [int] is a [Z].  A [bytes] value is a list of
    [Z]; the predicate [is_bytes] says that every element is in 0..255.
    A Python [str] is the list of its code points.  A function that can
    raise returns [exn + A]; a function that logs returns the log records
    next to its result. *)

From Stdlib Require Import String ZArith List Bool Lia Sorted Permutation.
Import ListNotations.
Local Open Scope Z_scope.

(** ** Python values and built-ins *)

Module Py.

Definition bytes := list Z.
Definition str := list Z.

Definition is_byte (b : Z) : Prop := 0 <= b < 256.
Definition is_bytes (bs : bytes) : Prop := Forall is_byte bs.

Definition len {A} (l : list A) : Z := Z.of_nat (length l).

(** Exceptions.  [AppotechError] carries the kind of its message. *)
Inductive AppotechMessage :=
| InvalidMagic
| CouldNotLoadEntry
| NoEntriesWereRead
| NotInAcceptedRange
| OnlyBooleanTokens
| UnknownObjectType.

Inductive exn :=
| AppotechError (m : AppotechMessage)
| AppotechTruncatedError (expected_bytes actual_bytes : Z)
| ValueError
| UnboundLocalError
| UnicodeEncodeError
| UnicodeDecodeError
| IndexError
| StructError
| ZeroDivisionError
| SystemExit (code : Z).

Definition result (A : Type) : Type := (exn + A)%type.
Definition ret {A} (a : A) : result A := inr a.
Definition raise {A} (e : exn) : result A := inl e.
Definition bind {A B} (m : result A) (k : A -> result B) : result B :=
  match m with inl e => inl e | inr a => k a end.

Notation "x <- m ;; k" := (bind m (fun x => k))
  (at level 61, m at next level, right associativity).

(** Slices [l[a:b]], [l[:b]] and [l[a:]]: a negative bound counts from the
    end, and every bound is clamped to [0..len l]. *)
Definition clamp_index (n i : Z) : Z :=
  if i <? 0 then Z.max 0 (n + i) else Z.min i n.

Definition slice {A} (l : list A) (a b : Z) : list A :=
  let a' := clamp_index (len l) a in
  let b' := clamp_index (len l) b in
  firstn (Z.to_nat (b' - a')) (skipn (Z.to_nat a') l).

Definition slice_to {A} (l : list A) (b : Z) : list A := slice l 0 b.
Definition slice_from {A} (l : list A) (a : Z) : list A := slice l a (len l).

(** [l[a:b] = x] on a bytearray. *)
Definition set_slice (l : bytes) (a b : Z) (x : bytes) : bytes :=
  let a' := clamp_index (len l) a in
  let b' := Z.max a' (clamp_index (len l) b) in
  firstn (Z.to_nat a') l ++ x ++ skipn (Z.to_nat b') l.

(** [b * n] for a bytes object: empty when [n <= 0]. *)
Definition bytes_mul (b : bytes) (n : Z) : bytes :=
  concat (repeat b (Z.to_nat n)).

(** [src.ljust(width, fill)] with a one-byte [fill]. *)
Definition ljust (src : bytes) (width : Z) (fill : Z) : bytes :=
  src ++ repeat fill (Z.to_nat (width - len src)).

(** Equality of two bytes or str values. *)
Definition bytes_eqb (a b : list Z) : bool :=
  if list_eq_dec Z.eq_dec a b then true else false.

(** [sum(bs)] *)
Definition sum (bs : bytes) : Z := fold_right Z.add 0 bs.

(** [bs.count(x)] *)
Definition count (x : Z) (bs : bytes) : Z :=
  len (filter (Z.eqb x) bs).

Fixpoint startswith (data pre : bytes) {struct pre} : bool :=
  match pre, data with
  | [], _ => true
  | p :: pre', d :: data' => (d =? p) && startswith data' pre'
  | _ :: _, [] => false
  end.

(** [math.ceil(a / b)] on integers, [b <> 0]. *)
Definition ceil_div (a b : Z) : Z := - ((- a) / b).

(** [bs[i]]: a negative index counts from the end. *)
Definition getitem (bs : bytes) (i : Z) : result Z :=
  let j := if i <? 0 then len bs + i else i in
  if (j <? 0) || (len bs <=? j) then raise IndexError
  else ret (nth (Z.to_nat j) bs 0).

(** [where.find(what, start)] for [0 <= start]: the lowest position not
    below [start] at which [what] occurs, or [-1]. [find_at] scans the
    suffix that begins at [pos]. *)
Fixpoint find_at (suffix what : bytes) (pos : Z) : Z :=
  if startswith suffix what then pos
  else match suffix with
       | [] => -1
       | _ :: tl => find_at tl what (pos + 1)
       end.

Definition find (where_ what : bytes) (start : Z) : Z :=
  if len where_ <? start then -1
  else find_at (skipn (Z.to_nat start) where_) what start.

(** [where.index(what)] *)
Definition index (where_ what : bytes) : result Z :=
  let pos := find where_ what 0 in
  if pos =? -1 then raise ValueError else ret pos.

(** [bs.split(b"\x00")[0]] *)
Fixpoint split_nul_head (bs : bytes) : bytes :=
  match bs with
  | [] => []
  | b :: tl => if b =? 0 then [] else b :: split_nul_head tl
  end.

(** [struct]: an ['Ns'] field is cut or NUL-padded to [n] bytes; ['B'] and
    ['<H'] fields raise [struct.error] out of range. *)
Definition pack_s (n : nat) (bs : bytes) : bytes :=
  firstn n bs ++ repeat 0 (n - length bs).

Definition pack_B (v : Z) : result bytes :=
  if (0 <=? v) && (v <=? 0xFF) then ret [v] else raise StructError.

Definition pack_I (v : Z) : result bytes :=
  if (0 <=? v) && (v <=? 0xFFFFFFFF)
  then ret [v mod 256; (v / 256) mod 256; (v / 65536) mod 256; v / 16777216]
  else raise StructError.

Definition pack_H (v : Z) : result bytes :=
  if (0 <=? v) && (v <=? 0xFFFF) then ret [v mod 256; v / 256]
  else raise StructError.

Definition unpack_H (b0 b1 : Z) : Z := b0 + 256 * b1.

(** [l.insert(i, x)] *)
Definition insert {A} (l : list A) (i : Z) (x : A) : list A :=
  let pos := Z.to_nat (clamp_index (len l) i) in
  firstn pos l ++ x :: skipn pos l.

(** [l.sort(reverse=True)] on integers. *)
Fixpoint insert_desc (x : Z) (l : list Z) : list Z :=
  match l with
  | [] => [x]
  | y :: tl => if y <? x then x :: l else y :: insert_desc x tl
  end.

Definition sort_reverse (l : list Z) : list Z :=
  fold_right insert_desc [] l.

(** [int(s)] on a [str], as CPython 3.11 computes it.  The string is
    first brought to ASCII: a white-space character becomes a blank and a
    decimal digit of any script its ASCII digit.  What remains must be
    blanks around an optional sign and digits, single underscores
    allowed between digits, and at most [int_max_str_digits] digits;
    anything else is a [ValueError]. *)
Definition is_space (c : Z) : bool :=
  (c =? 32) || ((9 <=? c) && (c <=? 13)).

Definition is_digit (c : Z) : bool := (48 <=? c) && (c <=? 57).

Fixpoint lstrip (s : str) : str :=
  match s with
  | c :: tl => if is_space c then lstrip tl else s
  | [] => []
  end.

Definition strip (s : str) : str := rev (lstrip (rev (lstrip s))).

(** Digits read so far in [acc]; [after_digit] tells whether an
    underscore may come next. *)
Fixpoint digits (s : str) (acc : Z) (after_digit : bool) : result Z :=
  match s with
  | [] => if after_digit then ret acc else raise ValueError
  | c :: tl =>
    if is_digit c then digits tl (10 * acc + (c - 48)) true
    else if (c =? 95) && after_digit then digits tl acc false
    else raise ValueError
  end.

(** The zero digits of the runs of decimal digits (category Nd) in
    Unicode 14.0, the character database of Python 3.11; the digits 1 to
    9 of the script follow each of them. *)
Definition decimal_zeros : list Z :=
  [0x30; 0x660; 0x6F0; 0x7C0; 0x966; 0x9E6; 0xA66; 0xAE6;
   0xB66; 0xBE6; 0xC66; 0xCE6; 0xD66; 0xDE6; 0xE50; 0xED0;
   0xF20; 0x1040; 0x1090; 0x17E0; 0x1810; 0x1946; 0x19D0; 0x1A80;
   0x1A90; 0x1B50; 0x1BB0; 0x1C40; 0x1C50; 0xA620; 0xA8D0; 0xA900;
   0xA9D0; 0xA9F0; 0xAA50; 0xABF0; 0xFF10; 0x104A0; 0x10D30; 0x11066;
   0x110F0; 0x11136; 0x111D0; 0x112F0; 0x11450; 0x114D0; 0x11650; 0x116C0;
   0x11730; 0x118E0; 0x11950; 0x11C50; 0x11D50; 0x11DA0; 0x16A60; 0x16AC0;
   0x16B50; 0x1D7CE; 0x1D7D8; 0x1D7E2; 0x1D7EC; 0x1D7F6; 0x1E140; 0x1E2F0;
   0x1E950; 0x1FBF0].

(** [Py_UNICODE_TODECIMAL] *)
Definition to_decimal (c : Z) : option Z :=
  match List.find (fun z => (z <=? c) && (c <=? z + 9)) decimal_zeros with
  | Some z => Some (c - z)
  | None => None
  end.

(** [Py_UNICODE_ISSPACE] above ASCII. *)
Definition is_unicode_space (c : Z) : bool :=
  (c =? 0x85) || (c =? 0xA0) || (c =? 0x1680)
  || ((0x2000 <=? c) && (c <=? 0x200A))
  || (c =? 0x2028) || (c =? 0x2029) || (c =? 0x202F) || (c =? 0x205F)
  || (c =? 0x3000).

(** [_PyUnicode_TransformDecimalAndSpaceToASCII]: the copy ends in ['?']
    at the first character that is neither ASCII, white space nor a
    decimal digit. *)
Fixpoint to_ascii (s : str) : str :=
  match s with
  | [] => []
  | c :: tl =>
    if c <? 127 then c :: to_ascii tl
    else if is_unicode_space c then 32 :: to_ascii tl
    else match to_decimal c with
         | Some d => (48 + d) :: to_ascii tl
         | None => [63]
         end
  end.

(** [sys.get_int_max_str_digits()], which the tools leave at its
    default. *)
Definition int_max_str_digits : Z := 4300.

(** The digits after the sign; underscores do not count for the limit. *)
Definition number (s : str) : result Z :=
  if int_max_str_digits <? len (filter is_digit s) then raise ValueError
  else digits s 0 false.

Definition int (s : str) : result Z :=
  match strip (to_ascii s) with
  | 45 :: tl => v <- number tl ;; ret (- v)
  | 43 :: tl => number tl
  | tl => number tl
  end.

(** [range(start, stop, step)] with a positive step, its truth value and
    membership. *)
Record range := mkRange { start : Z; stop : Z; step : Z }.

Definition range_bool (r : range) : bool := start r <? stop r.

Definition range_contains (r : range) (x : Z) : bool :=
  (start r <=? x) && (x <? stop r) && ((x - start r) mod step r =? 0).

(** [s.lower()] on ASCII letters; other code points are left as they
    are. *)
Definition lower (s : str) : str :=
  map (fun c => if (65 <=? c) && (c <=? 90) then c + 32 else c) s.

(** [s.replace(c, "")] for a one-character [c]. *)
Definition remove_char (c : Z) (s : str) : str :=
  filter (fun x => negb (x =? c)) s.

Definition hex_digit (c : Z) : option Z :=
  if is_digit c then Some (c - 48)
  else if (97 <=? c) && (c <=? 102) then Some (c - 87)
  else if (65 <=? c) && (c <=? 70) then Some (c - 55)
  else None.

(** [bytes.fromhex(s)]: pairs of hex digits, blanks allowed between the
    pairs. *)
Fixpoint fromhex (s : str) : result bytes :=
  match s with
  | [] => ret []
  | c :: tl =>
    if is_space c then fromhex tl
    else
      match hex_digit c, tl with
      | Some hi, d :: tl' =>
        match hex_digit d with
        | Some lo => rest <- fromhex tl' ;; ret ((16 * hi + lo) :: rest)
        | None => raise ValueError
        end
      | _, _ => raise ValueError
      end
  end.

(** The code points of an ASCII literal. *)
Definition str_of (s : string) : str :=
  map (fun a => Z.of_N (Ascii.N_of_ascii a)) (list_ascii_of_string s).

Definition unpack_I (b0 b1 b2 b3 : Z) : Z :=
  b0 + 256 * b1 + 65536 * b2 + 16777216 * b3.

End Py.
Import Py.

Notation "x <- m ;; k" := (bind m (fun x => k))
  (at level 61, m at next level, right associativity).
Notation "' p <- m ;; k" := (bind m (fun x => match x with p => k end))
  (at level 61, p pattern, m at next level, right associativity).

(** Log records: level and message kind. *)
Inductive level := INFO | WARNING | ERROR.

Inductive message :=
| FileSizeLimitExceeded (delta : Z)
| BiggerThanOriginalRefusing (new_size old_size : Z)
| BiggerThanOriginalPadded (new_size old_size padding_sz : Z)
| SmallerThanOld (padding_sz : Z)
| StopReadingExhausted (expected available : Z)
| StopReadingAbnormalIsValid
| InvalidChecksum (expected got : Z)
| StopReadingFirstEmptyEntry
| WavTrailerNotFound (found : bytes)
| HeaderNotAligned (test_off : Z)
| HeaderWeirdZeroes (test_off : Z)
| NoSfxBlobHeader
| FoundSfxBlobHeader (off : Z)
| InjectingEmptyEntry (i : Z)
| InvalidIndex
| IndexTooBig (i max_val : Z).

Definition log := list (level * message).

(** ** [src/common.py] *)

(** [align_bytes(src, align_to, pad)] *)
Definition align_bytes (src : bytes) (align_to : Z) (pad : Z) : result bytes :=
  let src_sz := len src in
  if align_to =? 0 then raise ZeroDivisionError
  else
    let new_sz := ceil_div src_sz align_to * align_to in
    if src_sz =? new_sz then ret src
    else ret (ljust src new_sz (Z.land pad 0xFF)).

(** [find_all(where, what)]: the positions the generator yields, in the
    order it yields them; [None] when the fuel runs out. *)
Fixpoint find_all_loop (fuel : nat) (where_ what : bytes) (pos : Z)
    : option (list Z) :=
  match fuel with
  | O => None
  | S fuel' =>
    let pos' := find where_ what (pos + 1) in
    if pos' =? -1 then Some []
    else option_map (cons pos') (find_all_loop fuel' where_ what pos')
  end.

Definition find_all (where_ what : bytes) : option (list Z) :=
  find_all_loop (S (S (length where_))) where_ what (-1).

(** A string is a usable index when it parses to an integer that is not
    above [max_val]; [parsed_index] is the integer it parses to. *)
Definition usable_index (max_val : Z) (s : str) : bool :=
  match int s with inr i => negb (i >? max_val) | inl _ => false end.

Definition parsed_index (s : str) : Z :=
  match int s with inr i => i | inl _ => 0 end.

(** [split_in_chunks(values, chunk_len)] for a positive [chunk_len]: the
    slices [values[i : i + chunk_len]] for [i] in
    [range(0, len(values), chunk_len)]. *)
Definition split_in_chunks {A} (values : list A) (chunk_len : Z)
    : list (list A) :=
  map (fun k => slice values (Z.of_nat k * chunk_len)
                  (Z.of_nat k * chunk_len + chunk_len))
      (seq 0 (Z.to_nat (ceil_div (len values) chunk_len))).

(** Every position of [what] in a buffer, ascending; [suffix] is the part
    of the buffer that begins at [pos].  For a non-empty [what]. *)
Fixpoint occurrences_from (suffix what : bytes) (pos : Z) : list Z :=
  match suffix with
  | [] => []
  | _ :: tl =>
    (if startswith suffix what then [pos] else [])
    ++ occurrences_from tl what (pos + 1)
  end.

(** ** UTF-8, as [str.encode()] and [bytes.decode("utf-8")] implement it *)

Module Utf8.

Definition is_surrogate (c : Z) : bool := (0xD800 <=? c) && (c <=? 0xDFFF).

(** A code point that a text can hold and [encode] accepts. *)
Definition is_scalar (c : Z) : Prop :=
  0 <= c < 0xD800 \/ 0xE000 <= c <= 0x10FFFF.

Definition is_text (s : str) : Prop := Forall is_scalar s.

Definition encode_cp (c : Z) : result bytes :=
  if c <? 0 then raise UnicodeEncodeError
  else if c <? 0x80 then ret [c]
  else if c <? 0x800 then ret [0xC0 + c / 64; 0x80 + c mod 64]
  else if c <? 0x10000 then
    if is_surrogate c then raise UnicodeEncodeError
    else ret [0xE0 + c / 4096; 0x80 + (c / 64) mod 64; 0x80 + c mod 64]
  else if c <? 0x110000 then
    ret [0xF0 + c / 262144; 0x80 + (c / 4096) mod 64;
         0x80 + (c / 64) mod 64; 0x80 + c mod 64]
  else raise UnicodeEncodeError.

Fixpoint encode (s : str) : result bytes :=
  match s with
  | [] => ret []
  | c :: s' =>
    bs <- encode_cp c ;;
    rest <- encode s' ;;
    ret (bs ++ rest)
  end.

Definition is_cont (b : Z) : bool := (0x80 <=? b) && (b <=? 0xBF).

Definition cons_cp (c : Z) (r : result str) : result str :=
  s <- r ;; ret (c :: s).

(** Strict decoding: overlong forms, surrogates and values above
    [0x10FFFF] are errors. *)
Fixpoint decode (bs : bytes) : result str :=
  match bs with
  | [] => ret []
  | b0 :: r0 =>
    if (0 <=? b0) && (b0 <? 0x80) then cons_cp b0 (decode r0)
    else if (0xC2 <=? b0) && (b0 <=? 0xDF) then
      match r0 with
      | b1 :: r1 =>
        if is_cont b1
        then cons_cp ((b0 - 0xC0) * 64 + (b1 - 0x80)) (decode r1)
        else raise UnicodeDecodeError
      | _ => raise UnicodeDecodeError
      end
    else if (0xE0 <=? b0) && (b0 <=? 0xEF) then
      match r0 with
      | b1 :: b2 :: r2 =>
        let c := (b0 - 0xE0) * 4096 + (b1 - 0x80) * 64 + (b2 - 0x80) in
        if is_cont b1 && is_cont b2 && (0x800 <=? c) && negb (is_surrogate c)
        then cons_cp c (decode r2)
        else raise UnicodeDecodeError
      | _ => raise UnicodeDecodeError
      end
    else if (0xF0 <=? b0) && (b0 <=? 0xF4) then
      match r0 with
      | b1 :: b2 :: b3 :: r3 =>
        let c := (b0 - 0xF0) * 262144 + (b1 - 0x80) * 4096
                 + (b2 - 0x80) * 64 + (b3 - 0x80) in
        if is_cont b1 && is_cont b2 && is_cont b3
           && (0x10000 <=? c) && (c <=? 0x10FFFF)
        then cons_cp c (decode r3)
        else raise UnicodeDecodeError
      | _ => raise UnicodeDecodeError
      end
    else raise UnicodeDecodeError
  end.

End Utf8.

(** ** [src/obj/btinfo.py] *)

Module BtInfo.

(** [b"BTINF"] *)
Definition MAGIC : bytes := [66; 84; 73; 78; 70].

(** [struct.calcsize("<xBBBB4x32s6s10xH")] *)
Definition FMT_SIZE : Z := 1 + 4 + 4 + 32 + 6 + 10 + 2.

Definition SIZE : Z := len MAGIC + FMT_SIZE.

Record t := mk {
  flags : Z;
  mic_unmute_thresh : Z;
  mic_mute_thresh : Z;
  mic_mute_duration : Z;
  bt_name : str;
  bt_mac : bytes;
  checksum : Z
}.

(** [BtInfo()] *)
Definition default : t := mk 0 0 0 0 [] [0; 0; 0; 0; 0; 0] 0.

(** [struct.unpack(_FMT, buf)] *)
Definition unpack (buf : bytes) : result (Z * Z * Z * Z * bytes * bytes * Z) :=
  if negb (len buf =? FMT_SIZE) then raise StructError
  else
    let b i := nth i buf 0 in
    ret (b 1%nat, b 2%nat, b 3%nat, b 4%nat,
         firstn 32 (skipn 9 buf), firstn 6 (skipn 41 buf),
         unpack_H (b 57%nat) (b 58%nat)).

(** [load(data)]: the record read from [data], next to the log. *)
Definition load (data : bytes) : log * result t :=
  if len data <? SIZE then
    ([], raise (AppotechTruncatedError SIZE (len data)))
  else if negb (startswith data MAGIC) then
    ([], raise (AppotechError InvalidMagic))
  else
    let off := len MAGIC in
    let fields :=
      '(flags, unmute, mute, duration, name, mac, cksum)
        <- unpack (slice data off SIZE) ;;
      name' <- Utf8.decode (split_nul_head name) ;;
      ret (mk flags unmute mute duration name' (rev mac) cksum) in
    match fields with
    | inl _ => ([], raise (AppotechError CouldNotLoadEntry))
    | inr r =>
      let our_checksum := sum (slice_to data (SIZE - 2)) in
      if negb (our_checksum =? checksum r)
      then ([(WARNING, InvalidChecksum our_checksum (checksum r))], ret r)
      else ([], ret r)
    end.

(** [__bytes__] *)
Definition to_bytes (r : t) : result bytes :=
  f <- pack_B (flags r) ;;
  u <- pack_B (mic_unmute_thresh r) ;;
  m <- pack_B (mic_mute_thresh r) ;;
  d <- pack_B (mic_mute_duration r) ;;
  name <- Utf8.encode (bt_name r) ;;
  let data_without_checksum :=
    MAGIC ++ [0] ++ f ++ u ++ m ++ d ++ [0; 0; 0; 0]
    ++ pack_s 32 name ++ pack_s 6 (rev (bt_mac r)) ++ repeat 0 10%nat in
  cksum <- pack_H (sum data_without_checksum) ;;
  ret (data_without_checksum ++ cksum).

(** The bytes of an encoded record that precede the checksum, given the
    encoded name. *)
Definition body (f u m d : Z) (name mac : bytes) : bytes :=
  MAGIC ++ [0; f; u; m; d; 0; 0; 0; 0]
  ++ pack_s 32 name ++ pack_s 6 (rev mac) ++ repeat 0 10%nat.

(** A record of the data model: numeric fields fit a byte, the name is a
    text without NUL whose UTF-8 form fits the 32-byte field, the MAC is
    6 bytes. *)
Definition valid (r : t) : Prop :=
  is_byte (flags r) /\ is_byte (mic_unmute_thresh r)
  /\ is_byte (mic_mute_thresh r) /\ is_byte (mic_mute_duration r)
  /\ Utf8.is_text (bt_name r) /\ ~ In 0 (bt_name r)
  /\ (forall bs, Utf8.encode (bt_name r) = ret bs -> len bs <= 32)
  /\ len (bt_mac r) = 6 /\ is_bytes (bt_mac r).

End BtInfo.

(** ** [src/obj/btpairing.py] *)

Module BtPairing.

(** [b"BTPAIREDINFOHEAD"] *)
Definition MAGIC : bytes :=
  [66; 84; 80; 65; 73; 82; 69; 68; 73; 78; 70; 79; 72; 69; 65; 68].

Definition HDR_SIZE : Z := len MAGIC.

Module Entry.

(** [struct.calcsize("<16s6s32sB")] *)
Definition SIZE : Z := 16 + 6 + 32 + 1.

Record t := mk {
  link_key : bytes;
  bt_mac : bytes;
  bt_name : str;
  is_valid : bool
}.

(** [BtPairing.Entry()] *)
Definition default : t := mk [] [] [] false.

(** [struct.unpack(_FMT, data)] *)
Definition unpack (data : bytes) : result (bytes * bytes * bytes * Z) :=
  if negb (len data =? SIZE) then raise StructError
  else ret (firstn 16 data, firstn 6 (skipn 16 data),
            firstn 32 (skipn 22 data), nth 54 data 0).

Definition load (data : bytes) : result t :=
  if len data <? SIZE then raise (AppotechTruncatedError SIZE (len data))
  else
    let fields :=
      '(key, mac, name, u8_is_valid) <- unpack data ;;
      let mac' := rev mac in
      name' <- Utf8.decode (split_nul_head name) ;;
      ret (mk key mac' name' (u8_is_valid =? 1)) in
    match fields with
    | inl _ => raise (AppotechError CouldNotLoadEntry)
    | inr e => ret e
    end.

(** [__bytes__] *)
Definition to_bytes (e : t) : result bytes :=
  name <- Utf8.encode (bt_name e) ;;
  ret (pack_s 16 (link_key e) ++ pack_s 6 (rev (bt_mac e))
       ++ pack_s 32 name ++ [if is_valid e then 1 else 0]).

(** An entry of the data model: a 16-byte link key, a 6-byte MAC and a
    name without NUL whose UTF-8 form fits the 32-byte field. *)
Definition valid (e : t) : Prop :=
  len (link_key e) = 16 /\ len (bt_mac e) = 6
  /\ Utf8.is_text (bt_name e) /\ ~ In 0 (bt_name e)
  /\ (forall bs, Utf8.encode (bt_name e) = ret bs -> len bs <= 32).

End Entry.

Record t := mk {
  entries : list Entry.t;
  paired_idx : Z
}.

(** [BtPairing()]: one empty entry. *)
Definition default : t := mk [Entry.default] 0.

(** The [while True] loop of [load]; [None] when the fuel runs out. *)
Fixpoint read_entries (fuel : nat) (data : bytes) (off : Z)
    (entries : list Entry.t) : option (log * result (list Entry.t * Z)) :=
  match fuel with
  | O => None
  | S fuel' =>
    let size_check := len data - off in
    if size_check <? Entry.SIZE then
      Some ([(WARNING, StopReadingExhausted Entry.SIZE size_check)],
            ret (entries, off))
    else
      let entry_data := slice data off (off + Entry.SIZE) in
      match getitem entry_data (-1) with
      | inl e => Some ([], raise e)
      | inr v =>
        if negb (v =? 1) then
          Some ([(WARNING, StopReadingAbnormalIsValid)], ret (entries, off))
        else
          match Entry.load entry_data with
          | inl e => Some ([], raise e)
          | inr entry =>
            read_entries fuel' data (off + Entry.SIZE) (entries ++ [entry])
          end
      end
  end.

(** [load(data)]; the loop gets more fuel than [data] has bytes. *)
Definition load (data : bytes) : option (log * result t) :=
  let size_check := HDR_SIZE + Entry.SIZE + 1 in
  if len data <? size_check then
    Some ([], raise (AppotechTruncatedError size_check (len data)))
  else if negb (startswith data MAGIC) then
    Some ([], raise (AppotechError InvalidMagic))
  else
    match read_entries (S (length data)) data (len MAGIC) [] with
    | None => None
    | Some (lg, inl e) => Some (lg, raise e)
    | Some (lg, inr (entries, off)) =>
      match entries with
      | [] => Some (lg, raise (AppotechError NoEntriesWereRead))
      | _ :: _ =>
        let size_check := len data - off in
        if size_check <? 1 then
          Some (lg, raise (AppotechTruncatedError 1 size_check))
        else
          Some (lg, v <- getitem data off ;; ret (mk entries v))
      end
    end.

(** [length()] *)
Definition length (bp : t) : Z :=
  len MAGIC + len (entries bp) * Entry.SIZE + 1.

Fixpoint join_entries (es : list Entry.t) : result bytes :=
  match es with
  | [] => ret []
  | e :: tl =>
    b <- Entry.to_bytes e ;;
    rest <- join_entries tl ;;
    ret (b ++ rest)
  end.

(** [__bytes__] *)
Definition to_bytes (bp : t) : result bytes :=
  body <- join_entries (entries bp) ;;
  idx <- pack_B (paired_idx bp) ;;
  ret (MAGIC ++ body ++ idx).

(** A database of the data model: at least one entry, every entry valid
    and marked valid, the index of the paired device a byte. *)
Definition valid (bp : t) : Prop :=
  entries bp <> []
  /\ Forall (fun e => Entry.valid e /\ Entry.is_valid e = true) (entries bp)
  /\ is_byte (paired_idx bp).

(** The decoder in the words of the specification.  [chunk data i] is the
    [i]-th fixed-size entry after the header and [valid_byte data i] its
    raw [is_valid] byte; [accepted data k n] says that the entries [k] to
    [n - 1] are all present with an [is_valid] byte of exactly 1, and
    [stops data n] that reading stops at entry [n]. *)
Definition entry_off (i : Z) : Z := HDR_SIZE + Entry.SIZE * i.


Definition valid_byte (data : bytes) (i : Z) : Z :=
  nth (Z.to_nat (entry_off i + 54)) data 0.

Definition accepted (data : bytes) (k n : Z) : Prop :=
  forall i, k <= i < n ->
    entry_off (i + 1) <= len data /\ valid_byte data i = 1.

Definition stops (data : bytes) (n : Z) : Prop :=
  len data - entry_off n < Entry.SIZE \/ valid_byte data n <> 1.



End BtPairing.

(** ** [src/common.py]: index lists *)

(** [indices_atoi_list(src, max_val)]; [None] of the source is
    [inr None]. *)
Fixpoint indices_loop (src : list str) (max_val : Z) (result : list Z)
    : log * option (list Z) :=
  match src with
  | [] => ([], Some result)
  | s :: tl =>
    match int s with
    | inl _ => ([(ERROR, InvalidIndex)], None)
    | inr i =>
      if i >? max_val then ([(ERROR, IndexTooBig i max_val)], None)
      else indices_loop tl max_val (result ++ [i])
    end
  end.

Definition indices_atoi_list (src : list str) (max_val : Z)
    : log * option (list Z) :=
  match indices_loop src max_val [] with
  | (lg, Some result) => (lg, Some (sort_reverse result))
  | (lg, None) => (lg, None)
  end.

(** ** [src/common.py]: typed field assignment *)

(** [irange(a)] and [irange(a, b)] *)
Definition irange (a : Z) : range := mkRange 0 (a + 1) 1.
Definition irange2 (a b : Z) : range := mkRange a (b + 1) 1.

(** The annotations [get_type_hints] can return for a field. *)
Inductive pytype := TInt | TBytes | TBytearray | TStr | TBool | TOther.

Inductive value :=
| VInt (v : Z)
| VBytes (v : bytes)
| VStr (v : str)
| VBool (v : bool).

(** An object with annotated fields: [type_hints] is
    [get_type_hints(obj).get], [setattr] assigns a field. *)
Class Annotated (A : Type) := {
  type_hints : string -> option pytype;
  setattr : A -> string -> value -> A
}.

Definition in_range (r : option range) (x : Z) : bool :=
  match r with
  | None => true
  | Some r => negb (range_bool r) || range_contains r x
  end.

(** [set_variable(obj, var_name, var_value, val_range, len_range)].  In
    the [str] and [bool] branches the message of the error is built from
    the local [value], which only the [int] and [bytes] branches assign:
    reading it raises [UnboundLocalError] before [AppotechError] is
    constructed. *)
Definition set_variable {A} `{Annotated A} (obj : A) (var_name : string)
    (var_value : str) (val_range len_range : option range) : result A :=
  match type_hints var_name with
  | Some TInt =>
    value <- int var_value ;;
    if negb (in_range val_range value)
    then raise (AppotechError NotInAcceptedRange)
    else ret (setattr obj var_name (VInt value))
  | Some TBytes | Some TBytearray =>
    let var_value := lower (remove_char 32 (remove_char 58 var_value)) in
    value <- fromhex var_value ;;
    if negb (in_range len_range (len value))
    then raise (AppotechError NotInAcceptedRange)
    else ret (setattr obj var_name (VBytes value))
  | Some TStr =>
    if negb (in_range len_range (len var_value))
    then raise UnboundLocalError
    else ret (setattr obj var_name (VStr var_value))
  | Some TBool =>
    let var_value := lower var_value in
    if bytes_eqb var_value (str_of "1") || bytes_eqb var_value (str_of "true")
    then ret (setattr obj var_name (VBool true))
    else if bytes_eqb var_value (str_of "0")
            || bytes_eqb var_value (str_of "false")
    then ret (setattr obj var_name (VBool false))
    else raise UnboundLocalError
  | Some TOther | None => raise (AppotechError UnknownObjectType)
  end.

(** The annotated fields of [BtInfo] and of [BtPairing.Entry]. *)
#[export] Instance BtInfo_annotated : Annotated BtInfo.t := {
  type_hints name :=
    if (name =? "flags")%string || (name =? "mic_unmute_thresh")%string
       || (name =? "mic_mute_thresh")%string
       || (name =? "mic_mute_duration")%string
       || (name =? "checksum")%string
    then Some TInt
    else if (name =? "bt_name")%string || (name =? "_FMT")%string
    then Some TStr
    else if (name =? "bt_mac")%string || (name =? "MAGIC")%string
    then Some TBytes
    else if (name =? "logger")%string then Some TOther
    else None;
  setattr r name v :=
    let '(BtInfo.mk f u m d n a c) := r in
    match v with
    | VInt z =>
      if (name =? "flags")%string then BtInfo.mk z u m d n a c
      else if (name =? "mic_unmute_thresh")%string then BtInfo.mk f z m d n a c
      else if (name =? "mic_mute_thresh")%string then BtInfo.mk f u z d n a c
      else if (name =? "mic_mute_duration")%string then BtInfo.mk f u m z n a c
      else if (name =? "checksum")%string then BtInfo.mk f u m d n a z
      else r
    | VStr x => if (name =? "bt_name")%string then BtInfo.mk f u m d x a c else r
    | VBytes x => if (name =? "bt_mac")%string then BtInfo.mk f u m d n x c else r
    | VBool _ => r
    end
}.

#[export] Instance Entry_annotated : Annotated BtPairing.Entry.t := {
  type_hints name :=
    if (name =? "link_key")%string || (name =? "bt_mac")%string
    then Some TBytes
    else if (name =? "bt_name")%string || (name =? "_FMT")%string
    then Some TStr
    else if (name =? "is_valid")%string then Some TBool
    else if (name =? "SIZE")%string then Some TInt
    else None;
  setattr e name v :=
    let '(BtPairing.Entry.mk k a n b) := e in
    match v with
    | VBytes x =>
      if (name =? "link_key")%string then BtPairing.Entry.mk x a n b
      else if (name =? "bt_mac")%string then BtPairing.Entry.mk k x n b
      else e
    | VStr x =>
      if (name =? "bt_name")%string then BtPairing.Entry.mk k a x b else e
    | VBool x =>
      if (name =? "is_valid")%string then BtPairing.Entry.mk k a n x else e
    | VInt _ => e
    end
}.

(** ** [src/obj/sfx.py] *)

Module Sfx.

(** [struct.calcsize("<IHH")] *)
Definition ENTRY_SIZE : Z := 4 + 2 + 2.
Definition CHUNK_SIZE : Z := 0x100.
Definition WAV_TRAILER_SIZE : Z := 0x100.

(** [b"WAV\\x00"] *)
Definition TRAILER_MAGIC : bytes := [87; 65; 86; 0].

(** The two entry classes. *)
Inductive format := MP3 | WAV.

Record entry := mkEntry {
  fmt : format;
  offset : Z;
  size : Z;
  samplerate : Z;
  contents : bytes;
  trailer : bytes;
  tr_samplerate : Z;
  tr_resolution : Z
}.

(** [Mp3SfxEntry(offset, size, samplerate)] and
    [WavSfxEntry(offset, size, samplerate)] *)
Definition new_entry (f : format) (offset size samplerate : Z) : entry :=
  mkEntry f offset size samplerate [] [] 0 0.

Definition total_size_in_bytes (e : entry) : Z :=
  match fmt e with
  | MP3 => size e * CHUNK_SIZE
  | WAV => size e * CHUNK_SIZE + WAV_TRAILER_SIZE
  end.

Definition set_contents (e : entry) (c : bytes) : entry :=
  mkEntry (fmt e) (offset e) (size e) (samplerate e) c
          (trailer e) (tr_samplerate e) (tr_resolution e).

Definition import_from_blob (e : entry) (data : bytes) : log * result entry :=
  match fmt e with
  | MP3 => ([], ret (set_contents e data))
  | WAV =>
    let wav_test := slice_to (slice_from data (- WAV_TRAILER_SIZE)) 4 in
    if negb (bytes_eqb wav_test TRAILER_MAGIC) then
      ([(WARNING, WavTrailerNotFound wav_test)], ret (set_contents e data))
    else
      let tr := slice_from data (- WAV_TRAILER_SIZE) in
      if negb (len tr =? WAV_TRAILER_SIZE) then
        ([], raise (AppotechTruncatedError WAV_TRAILER_SIZE (len tr)))
      else
        ([], ret (mkEntry (fmt e) (offset e) (size e) (samplerate e)
                    (slice_to data (- WAV_TRAILER_SIZE)) tr
                    (nth 4 tr 0) (nth 5 tr 0)))
  end.

(** [Mp3SfxEntry.import_from_file(offset, data)] *)
Definition import_from_file_mp3 (e : entry) (offset : Z) (data : bytes)
    : result entry :=
  contents <- align_bytes data CHUNK_SIZE 0 ;;
  ret (mkEntry (fmt e) offset (len contents / CHUNK_SIZE) 0 contents
         (trailer e) (tr_samplerate e) (tr_resolution e)).

(** [export_to_blob]: descriptor and body. *)
Definition export_to_blob (e : entry) : result (bytes * bytes) :=
  o <- pack_I (offset e) ;;
  s <- pack_H (size e) ;;
  r <- pack_H (samplerate e) ;;
  ret (o ++ s ++ r,
       match fmt e with
       | MP3 => contents e
       | WAV => contents e ++ trailer e
       end).

End Sfx.

Module SfxBlob.
Import Sfx.

(** [b"\\x00\\x08\\x00\\x00"] *)
Definition MAGIC : bytes := [0; 8; 0; 0].
Definition HDR_SIZE : Z := 0x800.
Definition MAX_ENTRIES : Z := HDR_SIZE / ENTRY_SIZE.

(** [range(0, HDR_SIZE, AbstractSfxEntry.SIZE)] *)
Definition header_slots : list Z :=
  map (fun i => Z.of_nat i * ENTRY_SIZE) (seq 0 (Z.to_nat MAX_ENTRIES)).

(** [struct.unpack("<IHH", d)] on the 8 bytes of a descriptor. *)
Definition unpack_descriptor (d : bytes) : result (Z * Z * Z) :=
  match d with
  | [o0; o1; o2; o3; s0; s1; r0; r1] =>
    ret (unpack_I o0 o1 o2 o3, unpack_H s0 s1, unpack_H r0 r1)
  | _ => raise StructError
  end.

(** The first loop of [load]: the descriptors up to the first empty one. *)
Fixpoint read_header (data : bytes) (slots : list Z) : log * result (list entry) :=
  match slots with
  | [] => ([], ret [])
  | off :: tl =>
    match unpack_descriptor (slice data off (off + ENTRY_SIZE)) with
    | inl e => ([], raise e)
    | inr (e_offset, e_size, e_samplerate) =>
      if (e_offset =? 0) && (e_size =? 0) && (e_samplerate =? 0) then
        ([(WARNING, StopReadingFirstEmptyEntry)], ret [])
      else
        let entry := if e_samplerate =? 0
                     then new_entry MP3 e_offset e_size e_samplerate
                     else new_entry WAV e_offset e_size e_samplerate in
        let '(lg, r) := read_header data tl in
        (lg, es <- r ;; ret (entry :: es))
    end
  end.

(** The second loop of [load]: the contents of each entry. *)
Fixpoint read_contents (data : bytes) (entries : list entry)
    : log * result (list entry) :=
  match entries with
  | [] => ([], ret [])
  | entry :: tl =>
    let size_check := total_size_in_bytes entry in
    if len data <? size_check then
      ([], raise (AppotechTruncatedError size_check (len data)))
    else
      match import_from_blob entry
              (slice data (offset entry) (offset entry + size_check)) with
      | (lg, inl e) => (lg, raise e)
      | (lg, inr entry') =>
        let '(lg', r) := read_contents data tl in
        (lg ++ lg', es <- r ;; ret (entry' :: es))
      end
  end.

(** [load(data)]: the entries of the blob. *)
Definition load (data : bytes) : log * result (list entry) :=
  let size_check := HDR_SIZE in
  if len data <? size_check then
    ([], raise (AppotechTruncatedError size_check (len data)))
  else
    match read_header data header_slots with
    | (lg, inl e) => (lg, raise e)
    | (lg, inr entries) =>
      let '(lg', r) := read_contents data entries in (lg ++ lg', r)
    end.

(** [total_size_in_bytes()] of the blob. *)
Definition total_size_in_bytes (entries : list entry) : Z :=
  HDR_SIZE + fold_right Z.add 0 (map Sfx.total_size_in_bytes entries).

Fixpoint write_entries (entries : list entry) (header_off : Z)
    (result : bytes) : Py.result bytes :=
  match entries with
  | [] => ret result
  | entry :: tl =>
    '(e_hdr, e_body) <- export_to_blob entry ;;
    let result1 := set_slice result header_off (header_off + len e_hdr) e_hdr in
    let result2 := set_slice result1 (offset entry)
                     (offset entry + len e_body) e_body in
    write_entries tl (header_off + len e_hdr) result2
  end.

(** [__bytes__] *)
Definition to_bytes (entries : list entry) : Py.result bytes :=
  write_entries entries 0
    (repeat 0 (Z.to_nat (total_size_in_bytes entries))).

(** A blob as the decoder returns it and the builder lays it out.  An
    entry is well-formed when its size fits 16 bits, its contents fill
    [size] chunks and, for MP3, the sample rate is 0 and no trailer field
    is set; for WAV, the sample rate is a non-zero 16-bit value and the
    trailer is 256 bytes that begin with the magic and carry the two
    trailer fields.  The entries are laid out one after the other from
    [off] on. *)
Definition entry_ok (e : entry) : Prop :=
  0 <= size e <= 0xFFFF
  /\ len (contents e) = size e * CHUNK_SIZE
  /\ match fmt e with
     | MP3 => samplerate e = 0 /\ trailer e = []
              /\ tr_samplerate e = 0 /\ tr_resolution e = 0
     | WAV => 1 <= samplerate e <= 0xFFFF
              /\ len (trailer e) = WAV_TRAILER_SIZE
              /\ firstn 4 (trailer e) = TRAILER_MAGIC
              /\ tr_samplerate e = nth 4 (trailer e) 0
              /\ tr_resolution e = nth 5 (trailer e) 0
     end.

Fixpoint laid_out (entries : list entry) (off : Z) : Prop :=
  match entries with
  | [] => True
  | e :: tl =>
    offset e = off /\ entry_ok e
    /\ laid_out tl (off + Sfx.total_size_in_bytes e)
  end.

Definition well_formed (entries : list entry) : Prop :=
  len entries <= MAX_ENTRIES
  /\ laid_out entries HDR_SIZE
  /\ total_size_in_bytes entries <= 0xFFFFFFFF.

(** The 8 bytes of a descriptor, the body of an entry, and an entry as
    the first loop of [load] creates it. *)
Definition descriptor (e : entry) : bytes :=
  [offset e mod 256; (offset e / 256) mod 256; (offset e / 65536) mod 256;
   offset e / 16777216]
  ++ [size e mod 256; size e / 256]
  ++ [samplerate e mod 256; samplerate e / 256].

Definition body (e : entry) : bytes :=
  match fmt e with
  | MP3 => contents e
  | WAV => contents e ++ trailer e
  end.

Definition blank (e : entry) : entry :=
  new_entry (fmt e) (offset e) (size e) (samplerate e).

Definition payload (entries : list entry) : Z :=
  fold_right Z.add 0 (map Sfx.total_size_in_bytes entries).

(** A descriptor as the header loop of [load] accepts it: it is not the
    empty one, and the sample rate decides the class of the entry. *)
Definition listed (e : entry) : Prop :=
  (fmt e = MP3 <-> samplerate e = 0)
  /\ ~ (offset e = 0 /\ size e = 0 /\ samplerate e = 0).

(** The bounds of an entry in the words of the specification: its total
    byte span, and the end of its payload in the blob. *)
Definition span (e : entry) : Z := Sfx.total_size_in_bytes e.
Definition payload_end (e : entry) : Z := offset e + span e.

End SfxBlob.

(** ** Injection of a re-encoded sector into the firmware image *)

(** The expression
    [input_binary[:off] + blob + input_binary[off + len(blob):]]
    shared by both tools. *)
Definition splice (input_binary : bytes) (off : Z) (blob : bytes) : bytes :=
  slice_to input_binary off ++ blob ++ slice_from input_binary (off + len blob).

Module AppotechBtPairing.

(** [add_entries]: the entry list after the insertions, or the exit. *)
Definition add_entries (entries : list BtPairing.Entry.t)
    (args : list str) : log * result (list BtPairing.Entry.t) :=
  match indices_atoi_list args (len entries) with
  | (lg, None) | (lg, Some []) => (lg, raise (SystemExit 1))
  | (lg, Some idx) =>
    (lg ++ map (fun i => (INFO, InjectingEmptyEntry i)) idx,
     ret (fold_left (fun es i => insert es i BtPairing.Entry.default)
            idx entries))
  end.

(** [delete_entries]: the entry list after the deletions, or the exit.
    The closing "Removed entry" records of the log are left out. *)
Definition delete_entries (entries : list BtPairing.Entry.t)
    (args : list str) : log * result (list BtPairing.Entry.t) :=
  match indices_atoi_list args (len entries) with
  | (lg, None) | (lg, Some []) => (lg, raise (SystemExit 1))
  | (lg, Some idx) =>
    (lg,
     ret (map (fun i => nth i entries BtPairing.Entry.default)
            (filter (fun i => negb (existsb (Z.eqb (Z.of_nat i)) idx))
               (seq 0 (length entries)))))
  end.

(** The insertions in the words of the specification: one by one, in the
    order the caller gave the indices. *)
Definition insert_in_caller_order (entries : list BtPairing.Entry.t)
    (idx : list Z) : list BtPairing.Entry.t :=
  fold_left (fun es i => insert es i BtPairing.Entry.default) idx entries.

(** [load_input] with an input file: where the structure starts, its size
    and the decoded structure. *)
Definition load_input (input_binary : bytes)
    : option (log * result (Z * Z * BtPairing.t)) :=
  match index input_binary BtPairing.MAGIC with
  | inl _ => Some ([], raise (SystemExit 1))
  | inr bp_off_start =>
    match BtPairing.load (slice_from input_binary bp_off_start) with
    | None => None
    | Some (lg, inl e) => Some (lg, raise e)
    | Some (lg, inr bp) =>
      Some (lg, ret (bp_off_start, BtPairing.length bp, bp))
    end
  end.

(** [save_output], the branch [path == self.args.mod_path]: assembles the
    modified binary or exits. *)
Definition save_output_mod (input_binary : bytes) (bp_off_start bp_size : Z)
    (force_write_mod : bool) (blob : bytes) : log * result bytes :=
  if len blob >? bp_size then
    if force_write_mod then
      let delta := bp_off_start + len blob - len input_binary in
      if delta >? 0 then
        let blob' := slice_to blob (len blob - delta) in
        ([(WARNING, FileSizeLimitExceeded delta)],
         ret (splice input_binary bp_off_start blob'))
      else ([], ret (splice input_binary bp_off_start blob))
    else
      ([(ERROR, BiggerThanOriginalRefusing (len blob) bp_size)],
       raise (SystemExit 1))
  else if len blob <? bp_size then
    let padding_sz := len blob - bp_size in
    let blob' := blob ++ bytes_mul [0xFF] padding_sz in
    ([(WARNING, BiggerThanOriginalPadded (len blob') bp_size padding_sz)],
     ret (splice input_binary bp_off_start blob'))
  else ([], ret (splice input_binary bp_off_start blob)).

(** [l[i]] on a list: the position that a subscript addresses; a negative
    subscript counts from the end. *)
Definition subscript {A} (l : list A) (i : Z) : result nat :=
  let j := if i <? 0 then len l + i else i in
  if (j <? 0) || (len l <=? j) then raise IndexError
  else ret (Z.to_nat j).

(** The list after the object at [pos] was given the state [x]. *)
Definition update {A} (l : list A) (pos : nat) (x : A) : list A :=
  firstn pos l ++ x :: skipn (S pos) l.

(** [getattr(dummy, field)] for a [field] in [BtPairing.Entry.CONFIGURABLES], with
    the name of the attribute; [None] for any other [field]. *)
Definition dummy_value (field : str) : option (string * value) :=
  if bytes_eqb field (str_of "link_key")
  then Some ("link_key"%string, VBytes (BtPairing.Entry.link_key BtPairing.Entry.default))
  else if bytes_eqb field (str_of "bt_mac")
  then Some ("bt_mac"%string, VBytes (BtPairing.Entry.bt_mac BtPairing.Entry.default))
  else if bytes_eqb field (str_of "bt_name")
  then Some ("bt_name"%string, VStr (BtPairing.Entry.bt_name BtPairing.Entry.default))
  else if bytes_eqb field (str_of "is_valid")
  then Some ("is_valid"%string, VBool (BtPairing.Entry.is_valid BtPairing.Entry.default))
  else None.

(** One step of the loop of [clear_values]: an [(index, field)] pair.
    The [ValueError] of the index test is the exit; the subscript that
    follows is outside the [try]. *)
Definition clear_value (entries : list BtPairing.Entry.t) (index field : str)
    : result (list BtPairing.Entry.t) :=
  match int index with
  | inl _ => raise (SystemExit 1)
  | inr idx =>
    if idx >? len entries then raise (SystemExit 1)
    else
      pos <- subscript entries idx ;;
      let entry := nth pos entries BtPairing.Entry.default in
      match dummy_value field with
      | None => raise (SystemExit 1)
      | Some (name, value) =>
        ret (update entries pos (setattr entry name value))
      end
  end.

Fixpoint clear_pairs (entries : list BtPairing.Entry.t) (pairs : list (list str))
    : result (list BtPairing.Entry.t) :=
  match pairs with
  | [] => ret entries
  | [index; field] :: tl =>
    entries' <- clear_value entries index field ;;
    clear_pairs entries' tl
  | _ :: _ => raise ValueError
  end.

(** [clear_values]: the entries after every [(index, field)] pair, or the
    first error. *)
Definition clear_values (entries : list BtPairing.Entry.t) (args : list str)
    : result (list BtPairing.Entry.t) :=
  clear_pairs entries (split_in_chunks args 2).

(** One step of the loop of [assign_values]: an [(index, field, value)]
    triplet. *)
Definition assign_value (entries : list BtPairing.Entry.t) (index field value : str)
    : result (list BtPairing.Entry.t) :=
  match int index with
  | inl _ => raise (SystemExit 1)
  | inr idx =>
    if idx >? len entries then raise (SystemExit 1)
    else
      pos <- subscript entries idx ;;
      let entry := nth pos entries BtPairing.Entry.default in
      entry' <-
        (if bytes_eqb field (str_of "link_key") then
           set_variable entry "link_key" value None (Some (irange 16))
         else if bytes_eqb field (str_of "bt_mac") then
           set_variable entry "bt_mac" value None (Some (irange 6))
         else if bytes_eqb field (str_of "bt_name") then
           set_variable entry "bt_name" value None (Some (irange 32))
         else if bytes_eqb field (str_of "is_valid") then
           set_variable entry "is_valid" value None None
         else raise (SystemExit 1)) ;;
      ret (update entries pos entry')
  end.

Fixpoint assign_triplets (entries : list BtPairing.Entry.t) (triplets : list (list str))
    : result (list BtPairing.Entry.t) :=
  match triplets with
  | [] => ret entries
  | [index; field; value] :: tl =>
    entries' <- assign_value entries index field value ;;
    assign_triplets entries' tl
  | _ :: _ => raise ValueError
  end.

(** [assign_values]: the entries after every assignment, or the first
    error. *)
Definition assign_values (entries : list BtPairing.Entry.t) (args : list str)
    : result (list BtPairing.Entry.t) :=
  if negb (len args mod 3 =? 0) then raise (SystemExit 1)
  else assign_triplets entries (split_in_chunks args 3).

(** What the length ranges of [assign_values] keep: a link key, a MAC and
    a name that are not longer than their fields. *)
Definition within_fields (e : BtPairing.Entry.t) : Prop :=
  len (BtPairing.Entry.link_key e) <= 16 /\ is_bytes (BtPairing.Entry.link_key e)
  /\ len (BtPairing.Entry.bt_mac e) <= 6 /\ is_bytes (BtPairing.Entry.bt_mac e)
  /\ len (BtPairing.Entry.bt_name e) <= 32.

(** [set_paired_index]: the structure with the new index, or the exit. *)
Definition set_paired_index (bp : BtPairing.t) (paired_idx : str)
    : result BtPairing.t :=
  match int paired_idx with
  | inl _ => raise (SystemExit 1)
  | inr idx =>
    if negb (range_contains (irange 0xFF) idx) then raise (SystemExit 1)
    else ret (BtPairing.mk (BtPairing.entries bp) idx)
  end.

End AppotechBtPairing.

Module AppotechSfx.

(** The [for test_off in find_all(...)] loop of [extract_load_input]:
    the offset it leaves in [sb_off_start], [-1] when every candidate is
    rejected.  [zeroes <= HDR_SIZE * 0.8] compares an integer with the
    float 1638.4; on integers that is [10 * zeroes <= 8 * HDR_SIZE]. *)
Fixpoint locate_loop (input_binary : bytes) (candidates : list Z)
    : log * Z :=
  match candidates with
  | [] => ([], -1)
  | test_off :: tl =>
    if negb (test_off mod 0x80 =? 0) then
      let '(lg, r) := locate_loop input_binary tl in
      ((INFO, HeaderNotAligned test_off) :: lg, r)
    else
      let zeroes :=
        count 0 (slice input_binary test_off (test_off + SfxBlob.HDR_SIZE)) in
      if 10 * zeroes <=? 8 * SfxBlob.HDR_SIZE then
        let '(lg, r) := locate_loop input_binary tl in
        ((INFO, HeaderWeirdZeroes test_off) :: lg, r)
      else ([], test_off)
  end.


Definition locate (input_binary : bytes) : option (log * Z) :=
  match find_all (slice_to input_binary (- SfxBlob.HDR_SIZE)) SfxBlob.MAGIC with
  | None => None
  | Some candidates => Some (locate_loop input_binary candidates)
  end.




(** [repack_inject_output] from the first size comparison on: [sb_off_start]
    and [sb_size] are the values [extract_load_input] has just stored. *)
Definition inject (input_binary : bytes) (sb_off_start sb_size : Z)
    (force_inject : bool) (blob : bytes) : log * result bytes :=
  let '(log1, padded) :=
    if len blob <? sb_size
    then ([(INFO, SmallerThanOld (sb_size - len blob))],
          align_bytes blob sb_size 0xFF)
    else ([], ret blob) in
  match padded with
  | inl e => (log1, inl e)
  | inr blob =>
    if len blob >? sb_size then
      if force_inject then
        let delta := sb_off_start + len blob - len input_binary in
        let log2 := if delta >? 0
                    then [(WARNING, FileSizeLimitExceeded delta)] else [] in
        let blob' := slice_to blob (len blob - delta) in
        (log1 ++ log2, ret (splice input_binary sb_off_start blob'))
      else
        (log1 ++ [(ERROR, BiggerThanOriginalRefusing (len blob) sb_size)],
         raise (SystemExit 1))
    else (log1, ret (splice input_binary sb_off_start blob))
  end.

(** [extract_carve]: the bytes written to the carve path. *)
Definition extract_carve (input_binary : bytes) (sb_off_start sb_size : Z)
    : bytes :=
  slice input_binary sb_off_start (sb_off_start + sb_size).


End AppotechSfx.

(** ** [appotech-btinfo.py] *)

Module AppotechBtInfo.

(** [load_input] with an input file: [btinfo_off_start], [btinfo_off_end]
    and the decoded record.  Of the log only what [BtInfo.load] records is
    kept. *)
Definition load_input (input_binary : bytes)
    : log * result (Z * Z * BtInfo.t) :=
  match index input_binary BtInfo.MAGIC with
  | inl _ => ([], raise (SystemExit 1))
  | inr btinfo_off_start =>
    let btinfo_off_end := btinfo_off_start + BtInfo.SIZE in
    if btinfo_off_end >? len input_binary then ([], raise (SystemExit 1))
    else
      match BtInfo.load (slice input_binary btinfo_off_start btinfo_off_end)
      with
      | (lg, inl e) => (lg, raise e)
      | (lg, inr r) => (lg, ret (btinfo_off_start, btinfo_off_end, r))
      end
  end.

(** What the constraints of [assign_values] are meant to keep: numeric
    fields that fit a byte, a name of at most 32 characters, a MAC of
    exactly 6 bytes. *)
Definition constrained (r : BtInfo.t) : Prop :=
  is_byte (BtInfo.flags r) /\ is_byte (BtInfo.mic_unmute_thresh r)
  /\ is_byte (BtInfo.mic_mute_thresh r)
  /\ is_byte (BtInfo.mic_mute_duration r)
  /\ len (BtInfo.bt_name r) <= 32
  /\ len (BtInfo.bt_mac r) = 6 /\ is_bytes (BtInfo.bt_mac r).

(** One step of the loop of [assign_values]: a [(field, value)] pair. *)
Definition assign_value (btinfo : BtInfo.t) (field value : str)
    : result BtInfo.t :=
  if bytes_eqb field (str_of "flags") then
    set_variable btinfo "flags" value (Some (irange 0xFF)) None
  else if bytes_eqb field (str_of "mic_unmute_thresh") then
    set_variable btinfo "mic_unmute_thresh" value (Some (irange 0xFF)) None
  else if bytes_eqb field (str_of "mic_mute_thresh") then
    set_variable btinfo "mic_mute_thresh" value (Some (irange 0xFF)) None
  else if bytes_eqb field (str_of "mic_mute_duration") then
    set_variable btinfo "mic_mute_duration" value (Some (irange 0xFF)) None
  else if bytes_eqb field (str_of "bt_name") then
    set_variable btinfo "bt_name" value None (Some (irange 32))
  else if bytes_eqb field (str_of "bt_mac") then
    set_variable btinfo "bt_mac" value None (Some (irange2 6 6))
  else raise (SystemExit 1).

Fixpoint assign_pairs (btinfo : BtInfo.t) (pairs : list (list str))
    : result BtInfo.t :=
  match pairs with
  | [] => ret btinfo
  | [field; value] :: tl =>
    btinfo' <- assign_value btinfo field value ;;
    assign_pairs btinfo' tl
  | _ :: _ => raise ValueError
  end.

(** [assign_values]: the record after every assignment, or the first
    error. *)
Definition assign_values (btinfo : BtInfo.t) (args : list str)
    : result BtInfo.t :=
  if negb (len args mod 2 =? 0) then raise (SystemExit 1)
  else assign_pairs btinfo (split_in_chunks args 2).

(** [save_output], the branch [path == self.args.mod_path]. *)
Definition save_output_mod (input_binary : bytes)
    (btinfo_off_start btinfo_off_end : Z) (btinfo : BtInfo.t)
    : result bytes :=
  blob <- BtInfo.to_bytes btinfo ;;
  ret (slice_to input_binary btinfo_off_start ++ blob
       ++ slice_from input_binary btinfo_off_end).

(** [getattr(dummy, field)] for a [field] in [BtInfo.CONFIGURABLES], with
    the name of the attribute; [None] for any other [field]. *)
Definition dummy_value (field : str) : option (string * value) :=
  if bytes_eqb field (str_of "flags")
  then Some ("flags"%string, VInt (BtInfo.flags BtInfo.default))
  else if bytes_eqb field (str_of "mic_unmute_thresh")
  then Some ("mic_unmute_thresh"%string,
             VInt (BtInfo.mic_unmute_thresh BtInfo.default))
  else if bytes_eqb field (str_of "mic_mute_thresh")
  then Some ("mic_mute_thresh"%string,
             VInt (BtInfo.mic_mute_thresh BtInfo.default))
  else if bytes_eqb field (str_of "mic_mute_duration")
  then Some ("mic_mute_duration"%string,
             VInt (BtInfo.mic_mute_duration BtInfo.default))
  else if bytes_eqb field (str_of "bt_name")
  then Some ("bt_name"%string, VStr (BtInfo.bt_name BtInfo.default))
  else if bytes_eqb field (str_of "bt_mac")
  then Some ("bt_mac"%string, VBytes (BtInfo.bt_mac BtInfo.default))
  else None.

(** [clear_values]: the record after every field of the arguments was
    reset, or the exit at the first unknown field. *)
Fixpoint clear_values (btinfo : BtInfo.t) (args : list str)
    : result BtInfo.t :=
  match args with
  | [] => ret btinfo
  | field :: tl =>
    match dummy_value field with
    | None => raise (SystemExit 1)
    | Some (name, value) => clear_values (setattr btinfo name value) tl
    end
  end.

(** Whether the arguments name the field. *)
Definition names (args : list str) (field : string) : bool :=
  existsb (fun a => bytes_eqb a (str_of field)) args.

End AppotechBtInfo.
(** ** Facts about slices *)

Lemma clamp_index_nonneg n i : 0 <= i -> clamp_index n i = Z.min i n.
Proof.
  intros H. unfold clamp_index.
  destruct (Z.ltb_spec i 0); [lia | reflexivity].
Qed.

Section SliceFacts.
Context {A : Type}.
Implicit Types l : list A.

Lemma len_nonneg l : 0 <= len l.
Proof. unfold len; lia. Qed.

Lemma len_app l1 l2 : len (l1 ++ l2) = len l1 + len l2.
Proof. unfold len; rewrite length_app; lia. Qed.

Lemma len_repeat (x : A) n : len (repeat x n) = Z.of_nat n.
Proof. unfold len; now rewrite repeat_length. Qed.

Lemma slice_to_firstn l n :
  0 <= n -> slice_to l n = firstn (Z.to_nat n) l.
Proof.
  intros Hn. unfold slice_to, slice.
  pose proof (len_nonneg l) as Hl.
  rewrite !clamp_index_nonneg by lia.
  rewrite (Z.min_l 0) by lia. simpl skipn. rewrite Z.sub_0_r.
  destruct (Z.le_ge_cases n (len l)) as [H|H].
  - now rewrite Z.min_l by lia.
  - rewrite Z.min_r by lia. unfold len in *.
    rewrite Nat2Z.id, firstn_all.
    symmetry; apply firstn_all2; lia.
Qed.

Lemma slice_from_skipn l n :
  0 <= n -> slice_from l n = skipn (Z.to_nat n) l.
Proof.
  intros Hn. unfold slice_from, slice.
  pose proof (len_nonneg l) as Hl.
  rewrite !clamp_index_nonneg by lia.
  rewrite (Z.min_l (len l)) by lia.
  destruct (Z.le_ge_cases n (len l)) as [H|H].
  - rewrite Z.min_l by lia.
    apply firstn_all2. rewrite length_skipn. unfold len in *. lia.
  - rewrite Z.min_r by lia. unfold len in *.
    rewrite Nat2Z.id, skipn_all, Z.sub_diag. simpl.
    symmetry; apply skipn_all2; lia.
Qed.

Lemma slice_in_range l a b :
  0 <= a <= b -> b <= len l ->
  slice l a b = firstn (Z.to_nat (b - a)) (skipn (Z.to_nat a) l).
Proof.
  intros Hab Hb. unfold slice.
  rewrite !clamp_index_nonneg by lia.
  now rewrite !Z.min_l by lia.
Qed.

Lemma len_firstn l n : len (firstn n l) = Z.min (Z.of_nat n) (len l).
Proof. unfold len. rewrite length_firstn. lia. Qed.

Lemma len_skipn l n : len (skipn n l) = Z.max 0 (len l - Z.of_nat n).
Proof. unfold len. rewrite length_skipn. lia. Qed.

Lemma len_slice_to l n : 0 <= n -> len (slice_to l n) = Z.min n (len l).
Proof. intros. rewrite slice_to_firstn, len_firstn by lia. lia. Qed.

Lemma len_slice_from l n :
  0 <= n -> len (slice_from l n) = Z.max 0 (len l - n).
Proof. intros. rewrite slice_from_skipn, len_skipn by lia. lia. Qed.

End SliceFacts.

Lemma len_splice input off blob :
  0 <= off ->
  len (splice input off blob)
  = Z.min off (len input) + len blob + Z.max 0 (len input - (off + len blob)).
Proof.
  intros H. unfold splice. pose proof (len_nonneg blob).
  rewrite !len_app, len_slice_to, len_slice_from by lia. lia.
Qed.

(** ** The injection engine *)

Lemma ceil_div_small a b : 0 < a < b -> ceil_div a b = 1.
Proof.
  intros H. unfold ceil_div.
  rewrite <- (Z.div_unique (- a) b (-1) (b - a)); lia.
Qed.

Lemma ceil_div_0 b : ceil_div 0 b = 0.
Proof. unfold ceil_div. now rewrite Z.opp_0, Zdiv_0_l. Qed.


(** [align_bytes] as the SFX tool calls it: a shorter, non-empty blob is
    right-padded with the filler up to the old size. *)
Lemma align_bytes_pads blob size :
  0 < len blob < size ->
  align_bytes blob size 0xFF
  = ret (blob ++ repeat 0xFF (Z.to_nat (size - len blob))).
Proof.
  intros H. unfold align_bytes.
  destruct (Z.eqb_spec size 0); [lia|].
  rewrite ceil_div_small, Z.mul_1_l by assumption.
  destruct (Z.eqb_spec (len blob) size); [lia|].
  reflexivity.
Qed.


(** What the SFX injection path produces for a smaller, non-empty blob:
    the new bytes, the filler up to the old size, and the rest of the
    original. *)
Lemma sfx_inject_smaller input start old_size force blob :
  0 <= start -> 0 < len blob < old_size ->
  snd (AppotechSfx.inject input start old_size force blob)
  = ret (slice_to input start ++ blob
         ++ repeat 0xFF (Z.to_nat (old_size - len blob))
         ++ slice_from input (start + old_size)).
Proof.
  intros Hs Hb. unfold AppotechSfx.inject.
  destruct (Z.ltb_spec (len blob) old_size); [|lia].
  rewrite align_bytes_pads by lia. cbn [ret].
  set (padded := blob ++ repeat 255 _).
  assert (Hp : len padded = old_size).
  { subst padded. rewrite len_app, len_repeat. lia. }
  rewrite Hp.
  destruct (Z.gtb_spec old_size old_size); [lia|].
  cbn [snd]. unfold splice, ret. rewrite Hp.
  subst padded. now rewrite <- app_assoc.
Qed.


Lemma len_splice_fits input start blob :
  0 <= start -> start + len blob <= len input ->
  len (splice input start blob) = len input.
Proof.
  intros. pose proof (len_nonneg blob). rewrite len_splice by lia. lia.
Qed.

(** Both paths on a blob larger than the region it replaces. *)
Lemma inject_larger :
  forall (input blob : bytes) (start old_size : Z),
    0 <= start <= len input ->
    old_size < len blob ->
    let delta := start + len blob - len input in
    let kept := if delta >? 0
                then firstn (Z.to_nat (len blob - delta)) blob else blob in
    let warned := if delta >? 0
                  then [(WARNING, FileSizeLimitExceeded delta)] else [] in
    let refused := ([(ERROR, BiggerThanOriginalRefusing (len blob) old_size)],
                    raise (SystemExit 1)) in
    AppotechBtPairing.save_output_mod input start old_size false blob = refused
    /\ AppotechSfx.inject input start old_size false blob = refused
    /\ AppotechBtPairing.save_output_mod input start old_size true blob
       = (warned, ret (splice input start kept))
    /\ AppotechSfx.inject input start old_size true blob
       = (warned, ret (splice input start kept))
    /\ len (splice input start kept) <= len input.
Proof.
  intros input blob start old_size Hs Hb delta kept warned refused.
  unfold AppotechBtPairing.save_output_mod, AppotechSfx.inject.
  destruct (Z.gtb_spec (len blob) old_size); [|lia].
  destruct (Z.ltb_spec (len blob) old_size); [lia|].
  cbn [ret]. destruct (Z.gtb_spec (len blob) old_size); [|lia].
  fold delta. subst kept warned refused.
  destruct (Z.gtb_spec delta 0) as [Hd|Hd].
  - rewrite slice_to_firstn by (subst delta; lia).
    repeat split.
    rewrite len_splice_fits; [lia| lia |].
    rewrite len_firstn. subst delta. lia.
  - rewrite slice_to_firstn by (subst delta; lia).
    assert (E : firstn (Z.to_nat (len blob - delta)) blob = blob).
    { apply firstn_all2. unfold len in *. lia. }
    rewrite E. repeat split.
    rewrite len_splice_fits; subst delta; lia.
Qed.

(** C4.  When the new sector is larger than the replaced region, both
    injection paths refuse to write without the force flag (an error is
    logged and the tool exits); with the flag they compute
    [delta = start + new_size - len original], cut [delta] bytes off the end
    of the new sector when [delta > 0] and log a warning, and the spliced
    result is never longer than the original buffer. *)
Theorem oversized_injection_policy :
  forall (input blob : bytes) (start old_size : Z),
    0 <= start <= len input ->
    old_size < len blob ->
    let delta := start + len blob - len input in
    let kept := if delta >? 0
                then firstn (Z.to_nat (len blob - delta)) blob else blob in
    let warned := if delta >? 0
                  then [(WARNING, FileSizeLimitExceeded delta)] else [] in
    let refused := ([(ERROR, BiggerThanOriginalRefusing (len blob) old_size)],
                    raise (SystemExit 1)) in
    AppotechBtPairing.save_output_mod input start old_size false blob = refused
    /\ AppotechSfx.inject input start old_size false blob = refused
    /\ AppotechBtPairing.save_output_mod input start old_size true blob
       = (warned, ret (splice input start kept))
    /\ AppotechSfx.inject input start old_size true blob
       = (warned, ret (splice input start kept))
    /\ len (splice input start kept) <= len input.
Proof. exact inject_larger. Qed.

Lemma oversized_injection_policy_witness :
  let input := [1; 2; 3; 4; 5; 6] in
  let blob := [7; 8; 9; 10] in
  AppotechSfx.inject input 4 3 true blob
  = ([(WARNING, FileSizeLimitExceeded 2)], ret [1; 2; 3; 4; 7; 8]).
Proof.
  intros input blob.
  exact (proj1 (proj2 (proj2 (proj2
    (oversized_injection_policy input blob 4 3
       ltac:(unfold len; simpl; lia) ltac:(unfold len; simpl; lia)))))).
Defined.



(** ** UTF-8: decoding undoes encoding *)

Ltac arith := Z.div_mod_to_equations; lia.

(** Settles every integer comparison of the goal that the context
    decides. *)
Ltac settle_tests :=
  repeat match goal with
  | |- context [?a <=? ?b] =>
    first [ replace (a <=? b) with true by (symmetry; apply Z.leb_le; arith)
          | replace (a <=? b) with false by (symmetry; apply Z.leb_gt; arith) ]
  | |- context [?a <? ?b] =>
    first [ replace (a <? b) with true by (symmetry; apply Z.ltb_lt; arith)
          | replace (a <? b) with false by (symmetry; apply Z.ltb_ge; arith) ]
  end;
  cbn [andb orb negb].

Module Utf8Facts.
Import Utf8.

Lemma decode_1 b0 r :
  0 <= b0 < 0x80 -> decode (b0 :: r) = cons_cp b0 (decode r).
Proof. intros H. cbn [decode]. now settle_tests. Qed.

Lemma decode_2 b0 b1 r :
  0xC2 <= b0 <= 0xDF -> 0x80 <= b1 <= 0xBF ->
  decode (b0 :: b1 :: r)
  = cons_cp ((b0 - 0xC0) * 64 + (b1 - 0x80)) (decode r).
Proof. intros H0 H1. cbn [decode]. unfold is_cont. now settle_tests. Qed.

Lemma decode_3 b0 b1 b2 r :
  let c := (b0 - 0xE0) * 4096 + (b1 - 0x80) * 64 + (b2 - 0x80) in
  0xE0 <= b0 <= 0xEF -> 0x80 <= b1 <= 0xBF -> 0x80 <= b2 <= 0xBF ->
  0x800 <= c -> ~ (0xD800 <= c <= 0xDFFF) ->
  decode (b0 :: b1 :: b2 :: r) = cons_cp c (decode r).
Proof.
  intros c H0 H1 H2 Hc Hs. cbn [decode]. fold c.
  unfold is_cont, is_surrogate. settle_tests.
  destruct (Z.leb_spec 0xD800 c), (Z.leb_spec c 0xDFFF);
    cbn [andb negb]; solve [reflexivity | lia].
Qed.

Lemma decode_4 b0 b1 b2 b3 r :
  let c := (b0 - 0xF0) * 262144 + (b1 - 0x80) * 4096
           + (b2 - 0x80) * 64 + (b3 - 0x80) in
  0xF0 <= b0 <= 0xF4 -> 0x80 <= b1 <= 0xBF -> 0x80 <= b2 <= 0xBF ->
  0x80 <= b3 <= 0xBF -> 0x10000 <= c <= 0x10FFFF ->
  decode (b0 :: b1 :: b2 :: b3 :: r) = cons_cp c (decode r).
Proof.
  intros c H0 H1 H2 H3 Hc. cbn [decode]. fold c.
  unfold is_cont. now settle_tests.
Qed.

(** One code point: its encoding is a run of non-zero bytes (zero only for
    NUL itself) that [decode] reads back. *)
Lemma encode_cp_decode c rest :
  is_scalar c ->
  exists bs, encode_cp c = ret bs
    /\ is_bytes bs
    /\ (c <> 0 -> ~ In 0 bs)
    /\ decode (bs ++ rest) = cons_cp c (decode rest).
Proof.
  intros Hc. unfold is_scalar in Hc. unfold encode_cp, is_surrogate.
  destruct (Z.ltb_spec c 0); [lia|].
  destruct (Z.ltb_spec c 0x80).
  { eexists; split; [reflexivity|]. repeat split.
    - repeat constructor; unfold is_byte; lia.
    - intros Hnz [E|[]]; lia.
    - cbn [app]. apply decode_1; lia. }
  destruct (Z.ltb_spec c 0x800).
  { eexists; split; [reflexivity|]. repeat split.
    - repeat constructor; unfold is_byte; arith.
    - intros _ [E|[E|[]]]; revert E; arith.
    - cbn [app]. rewrite decode_2 by arith. f_equal. arith. }
  destruct (Z.ltb_spec c 0x10000).
  { destruct (Z.leb_spec 0xD800 c), (Z.leb_spec c 0xDFFF);
      cbn [andb]; try lia.
    all: eexists; (split; [reflexivity|]); repeat split.
    all: try solve [repeat constructor; unfold is_byte; arith].
    all: try solve [intros _ [E|[E|[E|[]]]]; revert E; arith].
    all: cbn [app]; rewrite decode_3 by arith; f_equal; arith. }
  destruct (Z.ltb_spec c 0x110000); [|lia].
  eexists; split; [reflexivity|]. repeat split.
  - repeat constructor; unfold is_byte; arith.
  - intros _ [E|[E|[E|[E|[]]]]]; revert E; arith.
  - cbn [app]. rewrite decode_4 by arith. f_equal. arith.
Qed.

Lemma encode_decode s :
  is_text s ->
  exists bs, encode s = ret bs
    /\ is_bytes bs
    /\ (~ In 0 s -> ~ In 0 bs)
    /\ decode bs = ret s.
Proof.
  induction 1 as [|c s Hc Hs IH].
  - exists []. repeat split; auto. constructor.
  - destruct IH as (rest & Er & Br & Zr & Dr).
    destruct (encode_cp_decode c rest Hc) as (bs & Ec & Bc & Zc & Dc).
    exists (bs ++ rest). cbn [encode]. rewrite Ec, Er. repeat split.
    + apply Forall_app; split; assumption.
    + intros Hn Hin. apply in_app_or in Hin. destruct Hin as [Hin|Hin].
      * apply Zc; [|assumption]. intros ->. apply Hn. now left.
      * apply Zr; [|assumption]. intros Hin'. apply Hn. now right.
    + rewrite Dc, Dr. reflexivity.
Qed.

Lemma is_scalar_dec c : is_scalar c \/ ~ is_scalar c.
Proof. unfold is_scalar. lia. Qed.

Lemma encode_cp_not_scalar c :
  ~ is_scalar c -> encode_cp c = raise UnicodeEncodeError.
Proof.
  unfold is_scalar, encode_cp, is_surrogate. intros Hc.
  destruct (Z.ltb_spec c 0); [reflexivity|].
  destruct (Z.ltb_spec c 0x80); [lia|].
  destruct (Z.ltb_spec c 0x800); [lia|].
  destruct (Z.ltb_spec c 0x10000).
  - destruct (Z.leb_spec 0xD800 c), (Z.leb_spec c 0xDFFF); cbn [andb];
      reflexivity || lia.
  - destruct (Z.ltb_spec c 0x110000); [lia | reflexivity].
Qed.

(** A string that holds a surrogate (or a value no [str] can hold) is not
    encoded. *)
Lemma encode_not_text s :
  ~ is_text s -> encode s = raise UnicodeEncodeError.
Proof.
  induction s as [|c s IH]; intros Hn.
  - exfalso. apply Hn. constructor.
  - cbn [encode]. destruct (is_scalar_dec c) as [Hc|Hc].
    + destruct (encode_cp_decode c [] Hc) as (bs & -> & _).
      cbn [bind]. rewrite IH; [reflexivity|].
      intros Hs. apply Hn. now constructor.
    + now rewrite encode_cp_not_scalar.
Qed.

End Utf8Facts.

(** ** Lists of known length, sums of bytes *)

Lemma firstn_app_exact {A} (l1 l2 : list A) n :
  length l1 = n -> firstn n (l1 ++ l2) = l1.
Proof.
  intros <-. rewrite firstn_app, Nat.sub_diag, firstn_all. cbn.
  apply app_nil_r.
Qed.

Lemma skipn_app_exact {A} (l1 l2 : list A) n :
  length l1 = n -> skipn n (l1 ++ l2) = l2.
Proof.
  intros <-. rewrite skipn_app, Nat.sub_diag, skipn_all. reflexivity.
Qed.

Lemma In_firstn {A} (x : A) n l : In x (firstn n l) -> In x l.
Proof.
  revert l. induction n as [|n IH]; intros [|a l]; cbn; try tauto.
  intros [->|H]; [now left | right; now apply IH].
Qed.

Lemma sum_app l1 l2 : sum (l1 ++ l2) = sum l1 + sum l2.
Proof. unfold sum. induction l1 as [|a l1 IH]; cbn [app fold_right]; lia. Qed.

Lemma sum_bound bs : is_bytes bs -> 0 <= sum bs <= 255 * len bs.
Proof.
  induction 1 as [|b bs Hb _ IH]; unfold len in *; cbn [sum fold_right length].
  - lia.
  - unfold is_byte in Hb. fold (sum bs). lia.
Qed.

Lemma is_bytes_repeat0 n : is_bytes (repeat 0 n).
Proof. apply Forall_forall. intros x Hx. apply repeat_spec in Hx. subst. red. lia. Qed.

Lemma pack_s_length n bs : length (pack_s n bs) = n.
Proof. unfold pack_s. rewrite length_app, length_firstn, repeat_length. lia. Qed.

Lemma pack_s_is_bytes n bs : is_bytes bs -> is_bytes (pack_s n bs).
Proof.
  intros H. unfold pack_s. apply Forall_app. split.
  - apply Forall_forall. intros x Hx. apply In_firstn in Hx.
    revert x Hx. now apply Forall_forall.
  - apply is_bytes_repeat0.
Qed.

Lemma pack_s_fits n bs :
  (length bs <= n)%nat -> pack_s n bs = bs ++ repeat 0 (n - length bs).
Proof. intros H. unfold pack_s. now rewrite firstn_all2. Qed.

Lemma split_nul_head_padded bs k :
  ~ In 0 bs -> split_nul_head (bs ++ repeat 0 k) = bs.
Proof.
  induction bs as [|b bs IH]; intros Hn.
  - destruct k; reflexivity.
  - cbn. destruct (Z.eqb_spec b 0) as [->|_].
    + exfalso. apply Hn. now left.
    + f_equal. apply IH. intros Hin. apply Hn. now right.
Qed.

Lemma startswith_app pre rest : startswith (pre ++ rest) pre = true.
Proof.
  induction pre as [|p pre IH]; cbn; [reflexivity|].
  now rewrite Z.eqb_refl, IH.
Qed.

Lemma unpack_H_pack v : unpack_H (v mod 256) (v / 256) = v.
Proof. unfold unpack_H. arith. Qed.

(** Names the elements of a list whose length is a known numeral. *)
Ltac explode l H :=
  repeat (destruct l as [|? l]; [discriminate H|]);
  destruct l; [clear H | discriminate H].

(** ** The BtInfo codec *)

Module BtInfoFacts.
Import BtInfo.

Lemma pack_B_byte v : is_byte v -> pack_B v = ret [v].
Proof. unfold is_byte, pack_B. intros H. now settle_tests. Qed.

Lemma pack_H_u16 v : 0 <= v <= 0xFFFF -> pack_H v = ret [v mod 256; v / 256].
Proof. unfold pack_H. intros H. now settle_tests. Qed.

Lemma body_length f u m d name mac : length (body f u m d name mac) = 62%nat.
Proof.
  unfold body. rewrite !length_app, !pack_s_length. reflexivity.
Qed.

Lemma body_is_bytes f u m d name mac :
  is_byte f -> is_byte u -> is_byte m -> is_byte d ->
  is_bytes name -> is_bytes mac ->
  is_bytes (body f u m d name mac).
Proof.
  intros Hf Hu Hm Hd Hn Hmac. unfold body, is_bytes.
  rewrite !Forall_app. repeat split.
  - unfold MAGIC.
    repeat (apply Forall_cons; [unfold is_byte; lia|]). apply Forall_nil.
  - repeat (apply Forall_cons; [assumption || (unfold is_byte; lia)|]).
    apply Forall_nil.
  - now apply pack_s_is_bytes.
  - apply pack_s_is_bytes. now apply Forall_rev.
  - apply is_bytes_repeat0.
Qed.

Lemma body_sum_bound f u m d name mac :
  is_byte f -> is_byte u -> is_byte m -> is_byte d ->
  is_bytes name -> is_bytes mac ->
  0 <= sum (body f u m d name mac) <= 62 * 255.
Proof.
  intros. pose proof (sum_bound (body f u m d name mac)) as Hs.
  unfold len in Hs. rewrite body_length in Hs.
  apply Hs. now apply body_is_bytes.
Qed.

(** [__bytes__] on a record whose numeric fields fit a byte. *)
Lemma to_bytes_shape r name :
  is_byte (flags r) -> is_byte (mic_unmute_thresh r) ->
  is_byte (mic_mute_thresh r) -> is_byte (mic_mute_duration r) ->
  Utf8.encode (bt_name r) = ret name -> is_bytes name ->
  is_bytes (bt_mac r) ->
  let b := body (flags r) (mic_unmute_thresh r) (mic_mute_thresh r)
             (mic_mute_duration r) name (bt_mac r) in
  to_bytes r = ret (b ++ [sum b mod 256; sum b / 256]).
Proof.
  intros Hf Hu Hm Hd Hn Hnb Hmac b. unfold to_bytes.
  rewrite !pack_B_byte, Hn by assumption. cbn [bind ret].
  change (MAGIC ++ [0] ++ [flags r] ++ [mic_unmute_thresh r]
          ++ [mic_mute_thresh r] ++ [mic_mute_duration r] ++ [0; 0; 0; 0]
          ++ pack_s 32 name ++ pack_s 6 (rev (bt_mac r)) ++ repeat 0 10%nat)
    with b.
  rewrite pack_H_u16.
  - reflexivity.
  - pose proof (body_sum_bound _ _ _ _ name (bt_mac r) Hf Hu Hm Hd Hnb Hmac).
    fold b in H. lia.
Qed.

Lemma unpack_layout f u m d name mac c0 c1 :
  length name = 32%nat -> length mac = 6%nat ->
  unpack ([0; f; u; m; d; 0; 0; 0; 0] ++ name ++ mac
          ++ repeat 0 10%nat ++ [c0; c1])
  = ret (f, u, m, d, name, mac, unpack_H c0 c1).
Proof.
  intros Hn Hm. explode name Hn. explode mac Hm. reflexivity.
Qed.

(** [load] on a well-laid-out 64-byte record. *)
Lemma load_layout f u m d name mac c0 c1 s :
  length name = 32%nat -> length mac = 6%nat ->
  Utf8.decode (split_nul_head name) = ret s ->
  let data := MAGIC ++ [0; f; u; m; d; 0; 0; 0; 0] ++ name ++ mac
              ++ repeat 0 10%nat ++ [c0; c1] in
  let our_checksum := sum (slice_to data (SIZE - 2)) in
  load data
  = (if negb (our_checksum =? unpack_H c0 c1)
     then [(WARNING, InvalidChecksum our_checksum (unpack_H c0 c1))]
     else [],
     ret (mk f u m d s (rev mac) (unpack_H c0 c1))).
Proof.
  intros Hn Hm Hs data our_checksum.
  assert (Hlen : len data = 64).
  { unfold len, data. rewrite !length_app, Hn, Hm. reflexivity. }
  unfold load. rewrite Hlen.
  change (64 <? SIZE) with false. cbn [negb].
  unfold data at 1. rewrite startswith_app. cbn [negb].
  assert (Hbuf : slice data (len MAGIC) SIZE
                 = [0; f; u; m; d; 0; 0; 0; 0] ++ name ++ mac
                   ++ repeat 0 10%nat ++ [c0; c1]).
  { rewrite slice_in_range by (try rewrite Hlen; cbv; intuition congruence).
    change (Z.to_nat (SIZE - len MAGIC)) with 59%nat.
    change (skipn (Z.to_nat (len MAGIC)) data)
      with ([0; f; u; m; d; 0; 0; 0; 0] ++ name ++ mac
            ++ repeat 0 10%nat ++ [c0; c1]).
    apply firstn_all2. rewrite !length_app, Hn, Hm. cbn. lia. }
  rewrite Hbuf, unpack_layout by assumption.
  cbn [bind ret]. rewrite Hs. cbn [bind ret checksum].
  fold our_checksum.
  destruct (negb (our_checksum =? unpack_H c0 c1)); reflexivity.
Qed.

Lemma body_app_assoc f u m d name mac tl :
  body f u m d name mac ++ tl
  = MAGIC ++ [0; f; u; m; d; 0; 0; 0; 0] ++ pack_s 32 name
    ++ pack_s 6 (rev mac) ++ repeat 0 10%nat ++ tl.
Proof. unfold body. now rewrite <- !app_assoc. Qed.

End BtInfoFacts.

(** C6.  For every valid record, decoding its encoding gives back every
    field except the checksum, the decoded checksum is the sum of all
    encoded bytes but the last two, modulo 65536, and the MAC survives
    because reversing it twice is the identity.  No checksum warning is
    logged. *)
Theorem btinfo_roundtrip :
  forall r : BtInfo.t,
    BtInfo.valid r ->
    exists bs r',
      BtInfo.to_bytes r = ret bs
      /\ BtInfo.load bs = ([], ret r')
      /\ BtInfo.flags r' = BtInfo.flags r
      /\ BtInfo.mic_unmute_thresh r' = BtInfo.mic_unmute_thresh r
      /\ BtInfo.mic_mute_thresh r' = BtInfo.mic_mute_thresh r
      /\ BtInfo.mic_mute_duration r' = BtInfo.mic_mute_duration r
      /\ BtInfo.bt_name r' = BtInfo.bt_name r
      /\ BtInfo.bt_mac r' = BtInfo.bt_mac r
      /\ BtInfo.checksum r' = sum (slice_to bs (-2)) mod 65536
      /\ rev (rev (BtInfo.bt_mac r)) = BtInfo.bt_mac r.
Proof.
  intros r (Hf & Hu & Hm & Hd & Ht & Hnul & Hfit & Hlen & Hmac).
  destruct (Utf8Facts.encode_decode _ Ht) as (name & He & Hnb & Hnz & Hdec).
  pose proof (Hfit _ He) as Hfit'.
  pose proof (BtInfoFacts.to_bytes_shape r name Hf Hu Hm Hd He Hnb Hmac) as Hb.
  cbv zeta in Hb.
  set (b := BtInfo.body _ _ _ _ name _) in Hb.
  pose proof (BtInfoFacts.body_sum_bound _ _ _ _ name _ Hf Hu Hm Hd Hnb Hmac)
    as Hsum.
  fold b in Hsum.
  pose proof (BtInfoFacts.body_length (BtInfo.flags r)
    (BtInfo.mic_unmute_thresh r) (BtInfo.mic_mute_thresh r)
    (BtInfo.mic_mute_duration r) name (BtInfo.bt_mac r)) as Hbl.
  fold b in Hbl.
  assert (Hcut : forall n, n = 62 \/ n = -2 ->
            slice_to (b ++ [sum b mod 256; sum b / 256]) n = b).
  { intros n Hn. unfold slice_to, slice.
    replace (len (b ++ [sum b mod 256; sum b / 256])) with 64
      by (unfold len; rewrite length_app, Hbl; reflexivity).
    replace (clamp_index 64 n) with 62 by (destruct Hn; subst; reflexivity).
    change (clamp_index 64 0) with 0. cbn [Z.to_nat skipn Z.sub].
    change (Z.to_nat (62 - 0)) with 62%nat.
    now apply firstn_app_exact. }
  eexists. eexists. split; [exact Hb|].
  unfold b at 1. rewrite BtInfoFacts.body_app_assoc.
  assert (Hmlen : length (rev (BtInfo.bt_mac r)) = 6%nat).
  { rewrite length_rev. unfold len in Hlen. lia. }
  assert (Hname : split_nul_head (pack_s 32 name) = name).
  { rewrite pack_s_fits by (unfold len in Hfit'; lia).
    apply split_nul_head_padded. now apply Hnz. }
  rewrite (BtInfoFacts.load_layout _ _ _ _ _ _ _ _ (BtInfo.bt_name r)).
  2: apply pack_s_length.
  2: apply pack_s_length.
  2: now rewrite Hname.
  rewrite <- BtInfoFacts.body_app_assoc. fold b.
  change (BtInfo.SIZE - 2) with 62.
  rewrite !Hcut by auto.
  rewrite unpack_H_pack, Z.eqb_refl. cbn [negb BtInfo.flags
    BtInfo.mic_unmute_thresh BtInfo.mic_mute_thresh BtInfo.mic_mute_duration
    BtInfo.bt_name BtInfo.bt_mac BtInfo.checksum].
  rewrite (pack_s_fits 6) by lia.
  rewrite Hmlen. cbn [Nat.sub repeat]. rewrite app_nil_r, rev_involutive.
  repeat split; try reflexivity.
  symmetry. apply Z.mod_small. cbn [BtInfo.checksum]. lia.
Qed.

Lemma btinfo_roundtrip_witness :
  let r := BtInfo.mk 3 10 20 30 [72; 233] [1; 2; 3; 4; 5; 6] 0 in
  exists bs r',
    BtInfo.to_bytes r = ret bs
    /\ BtInfo.load bs = ([], ret r')
    /\ BtInfo.bt_name r' = [72; 233]
    /\ BtInfo.bt_mac r' = [1; 2; 3; 4; 5; 6].
Proof.
  intros r.
  destruct (btinfo_roundtrip r) as (bs & r' & H1 & H2 & _ & _ & _ & _ & H7 & H8 & _).
  - unfold BtInfo.valid, is_byte, Utf8.is_text, Utf8.is_scalar, is_bytes.
    cbn [r BtInfo.flags BtInfo.mic_unmute_thresh BtInfo.mic_mute_thresh
         BtInfo.mic_mute_duration BtInfo.bt_name BtInfo.bt_mac].
    repeat match goal with |- _ /\ _ => split end.
    all: try (unfold len; cbn; lia).
    all: try (repeat (apply Forall_cons; [unfold is_byte; lia|]);
              apply Forall_nil).
    intros bs H. vm_compute in H. injection H as <-. vm_compute.
    discriminate.
  - exists bs, r'. repeat split; assumption.
Defined.

(** C10 (as stated) fails twice.  The encoding of the default record is
    64 bytes long, not 62.  And encoding is not total over the records
    whose numeric fields are in 0..255: a name that holds a lone
    surrogate, which the tool stores as it gets it from the command
    line, makes [__bytes__] raise [UnicodeEncodeError]. *)
Lemma btinfo_encode_not_62_nor_total :
  (exists bs, BtInfo.to_bytes BtInfo.default = ret bs /\ len bs <> 62)
  /\ BtInfo.to_bytes (BtInfo.mk 0 0 0 0 [0xDC80] [0; 0; 0; 0; 0; 0] 0)
     = raise UnicodeEncodeError.
Proof.
  split; [|reflexivity].
  exists (BtInfo.MAGIC ++ repeat 0 57 ++ [0x73; 0x01]).
  split; [vm_compute; reflexivity|]. vm_compute. discriminate.
Qed.

(** C10 (amended).  For every record whose numeric fields are in 0..255
    (and whose MAC is a bytes value), encoding succeeds exactly when the
    name is a text that UTF-8 can encode; a name that holds a lone
    surrogate raises [UnicodeEncodeError].  When it succeeds it returns
    exactly [SIZE] = 64 bytes: the name sits in exactly 32 bytes
    (NUL-padded or cut), the MAC in exactly 6, and the checksum, the sum of
    the 62 preceding bytes, is at most 62 * 255 = 15810 < 65536, so its
    16-bit little-endian packing cannot overflow. *)
Theorem btinfo_encode_total :
  forall r : BtInfo.t,
    is_byte (BtInfo.flags r) -> is_byte (BtInfo.mic_unmute_thresh r) ->
    is_byte (BtInfo.mic_mute_thresh r) ->
    is_byte (BtInfo.mic_mute_duration r) ->
    is_bytes (BtInfo.bt_mac r) ->
    (Utf8.is_text (BtInfo.bt_name r) ->
     exists bs name,
       BtInfo.to_bytes r = ret bs
       /\ Utf8.encode (BtInfo.bt_name r) = ret name
       /\ len bs = BtInfo.SIZE /\ BtInfo.SIZE = 64
       /\ slice bs 14 46 = pack_s 32 name /\ len (pack_s 32 name) = 32
       /\ slice bs 46 52 = pack_s 6 (rev (BtInfo.bt_mac r))
       /\ len (pack_s 6 (rev (BtInfo.bt_mac r))) = 6
       /\ 0 <= sum (slice_to bs 62) <= 62 * 255 /\ 62 * 255 < 65536
       /\ slice_from bs 62
          = [sum (slice_to bs 62) mod 256; sum (slice_to bs 62) / 256])
    /\ (~ Utf8.is_text (BtInfo.bt_name r) ->
        BtInfo.to_bytes r = raise UnicodeEncodeError).
Proof.
  intros r Hf Hu Hm Hd Hmac. split; [intros Ht|].
  2:{ intros Hn. unfold BtInfo.to_bytes.
      rewrite !BtInfoFacts.pack_B_byte by assumption.
      rewrite (Utf8Facts.encode_not_text _ Hn). reflexivity. }
  destruct (Utf8Facts.encode_decode _ Ht) as (name & He & Hnb & _ & _).
  pose proof (BtInfoFacts.to_bytes_shape r name Hf Hu Hm Hd He Hnb Hmac) as Hb.
  cbv zeta in Hb.
  set (b := BtInfo.body _ _ _ _ name _) in Hb.
  pose proof (BtInfoFacts.body_sum_bound _ _ _ _ name _ Hf Hu Hm Hd Hnb Hmac)
    as Hsum.
  fold b in Hsum.
  pose proof (BtInfoFacts.body_length (BtInfo.flags r)
    (BtInfo.mic_unmute_thresh r) (BtInfo.mic_mute_thresh r)
    (BtInfo.mic_mute_duration r) name (BtInfo.bt_mac r)) as Hbl.
  fold b in Hbl.
  set (bs := b ++ [sum b mod 256; sum b / 256]) in *.
  assert (Hlen : len bs = 64).
  { unfold len, bs. rewrite length_app, Hbl. reflexivity. }
  assert (Hpre : slice_to bs 62 = b).
  { rewrite slice_to_firstn by lia. now apply firstn_app_exact. }
  exists bs, name. split; [exact Hb|]. split; [exact He|].
  split; [exact Hlen|]. split; [reflexivity|].
  rewrite Hpre.
  assert (Hp32 : length (pack_s 32 name) = 32%nat) by apply pack_s_length.
  assert (Hp6 : length (pack_s 6 (rev (BtInfo.bt_mac r))) = 6%nat)
    by apply pack_s_length.
  repeat split.
  - rewrite slice_in_range by lia.
    unfold bs, b. rewrite BtInfoFacts.body_app_assoc.
    change (Z.to_nat (46 - 14)) with 32%nat.
    match goal with
    | |- firstn _ (skipn _ (_ ++ _ ++ ?rest)) = _ =>
      change (firstn 32 rest = pack_s 32 name)
    end.
    now apply firstn_app_exact.
  - unfold len. now rewrite Hp32.
  - rewrite slice_in_range by lia.
    unfold bs, b. rewrite BtInfoFacts.body_app_assoc.
    change (Z.to_nat (52 - 46)) with 6%nat.
    match goal with
    | |- firstn _ (skipn _ (_ ++ _ ++ ?rest)) = _ =>
      change (firstn 6 (skipn 32 rest)
              = pack_s 6 (rev (BtInfo.bt_mac r)))
    end.
    rewrite skipn_app_exact by assumption.
    now apply firstn_app_exact.
  - unfold len. now rewrite Hp6.
  - lia.
  - lia.
  - rewrite slice_from_skipn by lia. unfold bs.
    now apply skipn_app_exact.
Qed.

Lemma btinfo_encode_total_witness :
  exists bs, BtInfo.to_bytes BtInfo.default = ret bs
             /\ len bs = BtInfo.SIZE /\ BtInfo.SIZE = 64.
Proof.
  destruct (btinfo_encode_total BtInfo.default) as [Hok _].
  1-4: unfold is_byte; cbn; lia.
  - cbn. repeat (apply Forall_cons; [unfold is_byte; lia|]). apply Forall_nil.
  - destruct Hok as (bs & name & H1 & _ & H2 & H3 & _); [apply Forall_nil|].
    exists bs. repeat split; assumption.
Defined.

(** ** The BtPairing codec *)

Module BtPairingFacts.
Import BtPairing.

Lemma entry_off_succ i : entry_off (i + 1) = entry_off i + Entry.SIZE.
Proof. unfold entry_off, Entry.SIZE. lia. Qed.







(** The number of accepted entries is determined by the data. *)
Lemma stop_unique data k n n' :
  k <= n -> k <= n' ->
  accepted data k n -> stops data n ->
  accepted data k n' -> stops data n' -> n = n'.
Proof.
  intros Hn Hn' Ha Hs Ha' Hs'.
  destruct (Z.lt_trichotomy n n') as [H|[H|H]]; [|assumption|].
  - destruct (Ha' n ltac:(lia)) as [Hfit Hv].
    rewrite entry_off_succ in Hfit. destruct Hs; [lia | contradiction].
  - destruct (Ha n' ltac:(lia)) as [Hfit Hv].
    rewrite entry_off_succ in Hfit. destruct Hs'; [lia | contradiction].
Qed.






Lemma getitem_in_range (bs : bytes) i :
  0 <= i < len bs -> getitem bs i = ret (nth (Z.to_nat i) bs 0).
Proof.
  intros H. unfold getitem.
  destruct (Z.ltb_spec i 0); [lia|].
  destruct (Z.ltb_spec i 0); [lia|].
  destruct (Z.leb_spec (len bs) i); [lia|]. reflexivity.
Qed.

End BtPairingFacts.




(** ** Editing and injecting a pairing database *)

(** C5 at the failing input.  Asked to insert at the indices 0 and 1, in
    that order, into a list holding one entry [a], [add_entries] inserts at
    1 first and at 0 second, because [indices_atoi_list] has sorted the
    indices in descending order; the entry [a] ends between the two new
    entries, where insertion in the caller's order leaves it last. *)
Theorem add_entries_sorts_indices :
  let a := BtPairing.Entry.mk (repeat 17 16) [1; 2; 3; 4; 5; 6] [65] true in
  let e := BtPairing.Entry.default in
  snd (AppotechBtPairing.add_entries [a] [[48]; [49]]) = ret [e; a; e]
  /\ AppotechBtPairing.insert_in_caller_order [a] [0; 1] = [e; e; a]
  /\ indices_atoi_list [[48]; [49]] 1 = ([], Some [1; 0]).
Proof. repeat split. Qed.

(** C1 at the failing input.  A firmware image holds a pairing database
    of two entries at offset 2 (127 bytes); the database re-encoded with
    the second entry deleted is 72 bytes long.  Injecting it leaves the 55
    bytes that follow the new blob as they were in the original instead
    of filling them with [0xFF]. *)
Theorem btpairing_smaller_injection_not_padded :
  let a := BtPairing.Entry.mk (repeat 17 16) [1; 2; 3; 4; 5; 6] [65] true in
  let b := BtPairing.Entry.mk (repeat 34 16) [6; 5; 4; 3; 2; 1] [66] true in
  let encoded bp :=
    match BtPairing.to_bytes bp with inr bs => bs | inl _ => [] end in
  let firmware := [0xAA; 0xBB] ++ encoded (BtPairing.mk [a; b] 0)
                  ++ [0xCC; 0xDD] in
  let blob := encoded (BtPairing.mk [a] 0) in
  exists lg out,
    AppotechBtPairing.load_input firmware
    = Some (lg, ret (2, 127, BtPairing.mk [a; b] 0))
    /\ len blob = 72
    /\ snd (AppotechBtPairing.save_output_mod firmware 2 127 false blob)
       = ret out
    /\ out = slice_to firmware 2 ++ blob ++ slice_from firmware (2 + 72)
    /\ out <> slice_to firmware 2 ++ blob ++ repeat 0xFF 55
              ++ slice_from firmware (2 + 127).
Proof.
  intros a b encoded firmware blob.
  exists [(WARNING, StopReadingExhausted 55 3)].
  exists (slice_to firmware 2 ++ blob ++ slice_from firmware (2 + 72)).
  split; [vm_compute; reflexivity|].
  split; [vm_compute; reflexivity|]. split; [vm_compute; reflexivity|].
  split; [reflexivity|].
  vm_compute. discriminate.
Qed.

(** ** [find] and [find_all] *)

Section FindAll.
Variable what : bytes.
Hypothesis what_nonempty : what <> [].

Lemma startswith_nil : startswith [] what = false.
Proof. destruct what; [contradiction | reflexivity]. Qed.

Lemma find_at_occurrences suffix pos :
  find_at suffix what pos = hd (-1) (occurrences_from suffix what pos).
Proof.
  revert pos. induction suffix as [|a tl IH]; intros pos.
  - cbn [find_at occurrences_from hd]. now rewrite startswith_nil.
  - cbn [find_at occurrences_from].
    destruct (startswith (a :: tl) what); [reflexivity|].
    cbn [app]. apply IH.
Qed.

Lemma occurrences_lower suffix pos p :
  In p (occurrences_from suffix what pos) -> pos <= p < pos + len suffix.
Proof.
  revert pos. induction suffix as [|a tl IH]; intros pos; cbn [occurrences_from].
  - intros [].
  - intros H. apply in_app_or in H. unfold len in *. cbn [length].
    destruct H as [H|H].
    + destruct (startswith (a :: tl) what); [|destruct H].
      destruct H as [<-|[]]. lia.
    + apply IH in H. lia.
Qed.

Lemma occurrences_In suffix pos p :
  In p (occurrences_from suffix what pos)
  <-> pos <= p < pos + len suffix
      /\ startswith (skipn (Z.to_nat (p - pos)) suffix) what = true.
Proof.
  revert pos. induction suffix as [|a tl IH]; intros pos; cbn [occurrences_from].
  - split; [intros [] | unfold len; cbn; lia].
  - rewrite in_app_iff, IH. unfold len. cbn [length]. split.
    + intros [H|[H1 H2]].
      * destruct (startswith (a :: tl) what) eqn:E; [|destruct H].
        destruct H as [<-|[]]. rewrite Z.sub_diag. cbn [Z.to_nat skipn].
        split; [lia | assumption].
      * split; [lia|].
        replace (Z.to_nat (p - pos)) with (S (Z.to_nat (p - (pos + 1))))
          by lia.
        exact H2.
    + intros [H1 H2]. destruct (Z.eq_dec p pos) as [->|Hne].
      * left. rewrite Z.sub_diag in H2. cbn [Z.to_nat skipn] in H2.
        rewrite H2. now left.
      * right. split; [lia|].
        replace (Z.to_nat (p - pos)) with (S (Z.to_nat (p - (pos + 1))))
          in H2 by lia.
        exact H2.
Qed.

Lemma occurrences_sorted suffix pos :
  StronglySorted Z.lt (occurrences_from suffix what pos).
Proof.
  revert pos. induction suffix as [|a tl IH]; intros pos; cbn [occurrences_from].
  - constructor.
  - destruct (startswith (a :: tl) what); cbn [app]; [|apply IH].
    constructor; [apply IH|].
    apply Forall_forall. intros x Hx. apply occurrences_lower in Hx. lia.
Qed.

(** The first occurrence and what follows it. *)
Lemma occurrences_step suffix pos p rest :
  occurrences_from suffix what pos = p :: rest ->
  pos <= p < pos + len suffix
  /\ rest = occurrences_from (skipn (S (Z.to_nat (p - pos))) suffix)
              what (p + 1).
Proof.
  revert pos. induction suffix as [|a tl IH]; intros pos; cbn [occurrences_from].
  - discriminate.
  - unfold len. cbn [length].
    destruct (startswith (a :: tl) what); cbn [app].
    + intros H. injection H as <- <-. rewrite Z.sub_diag.
      cbn [Z.to_nat skipn]. split; [lia | reflexivity].
    + intros H. apply IH in H. destruct H as [H1 H2]. unfold len in H1.
      split; [lia|].
      replace (Z.to_nat (p - pos)) with (S (Z.to_nat (p - (pos + 1))))
        by lia.
      exact H2.
Qed.

Lemma find_all_loop_occurrences where_ :
  forall fuel pos,
    0 <= pos <= len where_ ->
    (length (skipn (Z.to_nat pos) where_) < fuel)%nat ->
    find_all_loop fuel where_ what (pos - 1)
    = Some (occurrences_from (skipn (Z.to_nat pos) where_) what pos).
Proof.
  induction fuel as [|fuel IH]; intros pos Hpos Hfuel; [lia|].
  cbn [find_all_loop]. replace (pos - 1 + 1) with pos by lia.
  unfold find. destruct (Z.ltb_spec (len where_) pos); [lia|].
  rewrite find_at_occurrences.
  destruct (occurrences_from (skipn (Z.to_nat pos) where_) what pos)
    as [|p rest] eqn:E; cbn [hd].
  - reflexivity.
  - apply occurrences_step in E. destruct E as [Hp ->].
    unfold len in Hp. rewrite length_skipn in Hp.
    destruct (Z.eqb_spec p (-1)); [lia|].
    rewrite skipn_skipn.
    replace (S (Z.to_nat (p - pos)) + Z.to_nat pos)%nat
      with (Z.to_nat (p + 1)) by lia.
    replace (find_all_loop fuel where_ what p)
      with (find_all_loop fuel where_ what (p + 1 - 1)) by (f_equal; lia).
    rewrite IH.
    + reflexivity.
    + unfold len. lia.
    + rewrite length_skipn in *. lia.
Qed.

(** [find_all] yields every occurrence, in ascending order. *)
Lemma find_all_occurrences where_ :
  find_all where_ what = Some (occurrences_from where_ what 0).
Proof.
  unfold find_all. change (-1) with (0 - 1).
  rewrite find_all_loop_occurrences.
  - reflexivity.
  - pose proof (len_nonneg where_). lia.
  - cbn [Z.to_nat skipn]. lia.
Qed.

End FindAll.

Lemma startswith_firstn (l p : bytes) :
  startswith l p = true <-> firstn (length p) l = p.
Proof.
  revert l. induction p as [|x p IH]; intros l; cbn [startswith length firstn].
  - split; reflexivity.
  - destruct l as [|y l]; [split; discriminate|].
    rewrite andb_true_iff, Z.eqb_eq, IH. split.
    + intros [-> ->]. reflexivity.
    + intros H. injection H as -> H. split; [reflexivity | assumption].
Qed.


(** ** The heuristic locator of the SFX blob *)

Module LocatorFacts.
Import AppotechSfx.





End LocatorFacts.


Example locator_skips_misaligned_marker :
  AppotechSfx.locate
    (repeat 1 3 ++ [0; 8; 0; 0] ++ repeat 1 121
     ++ [0; 8; 0; 0; 1; 0; 0; 0] ++ repeat 0 2296)
  = Some ([(INFO, HeaderNotAligned 3)], 128).
Proof. vm_compute. reflexivity. Qed.

(** ** Decoding and injecting an SFX blob *)

(** C2 at the failing input.  A blob of exactly [HDR_SIZE] bytes whose one
    descriptor places a one-chunk MP3 entry at offset 0x800: the buffer is
    shorter than the end of the payload, yet [load] compares its length
    with the span alone, raises nothing and imports an empty payload. *)
Theorem sfx_load_ignores_entry_offset :
  let data := [0; 8; 0; 0; 1; 0; 0; 0] ++ repeat 0 2040 in
  let e := Sfx.new_entry Sfx.MP3 0x800 1 0 in
  len data = 2048
  /\ SfxBlob.span e = 256 /\ SfxBlob.payload_end e = 2304
  /\ SfxBlob.load data = ([(WARNING, StopReadingFirstEmptyEntry)], ret [e])
  /\ Sfx.contents e = [].
Proof. vm_compute. repeat split. Qed.


(** ** Typed field assignment *)

(** C3 at the failing inputs.  A 33-character [bt_name] against the 0..32
    constraint and a boolean token other than 1/true/0/false are both
    rejected, but with [UnboundLocalError], raised while the message of the
    intended [AppotechError] is formatted; the hex text of a MAC is
    accepted and stored as 6 raw bytes. *)
Theorem set_variable_declared_errors :
  let e := BtPairing.Entry.default in
  set_variable e "bt_name" (repeat 65 33) None (Some (irange 32))
    = raise UnboundLocalError
  /\ set_variable BtInfo.default "bt_name" (repeat 65 33) None
       (Some (irange 32))
     = raise UnboundLocalError
  /\ set_variable e "is_valid" (str_of "yes") None None
     = raise UnboundLocalError
  /\ set_variable e "bt_mac" (str_of "AA:BB:CC:DD:EE:FF") None
       (Some (irange 6))
     = ret (BtPairing.Entry.mk [] [170; 187; 204; 221; 238; 255] [] false)
  /\ set_variable e "bt_name" (repeat 65 32) None (Some (irange 32))
     = ret (BtPairing.Entry.mk [] [] (repeat 65 32) false)
  /\ set_variable e "is_valid" (str_of "TRUE") None None
     = ret (BtPairing.Entry.mk [] [] [] true).
Proof. vm_compute. repeat split. Qed.

(** * Further properties of the code *)

(** ** [src/common.py] *)

(** The shape of what [align_bytes] returns. *)
Lemma align_bytes_shape :
  forall (src : bytes) (align_to pad : Z),
    0 < align_to ->
    exists k : nat,
      align_bytes src align_to pad = ret (src ++ repeat (Z.land pad 0xFF) k)
      /\ 0 <= Z.of_nat k < align_to
      /\ (len src + Z.of_nat k) mod align_to = 0
      /\ (len src mod align_to = 0 -> k = 0%nat)
      /\ is_byte (Z.land pad 0xFF).
Proof.
  intros src n pad Hn. pose proof (len_nonneg src) as Hl.
  unfold align_bytes. destruct (Z.eqb_spec n 0); [lia|].
  unfold ceil_div.
  set (q := - len src / n).
  assert (Hq : - len src = n * q + (- len src) mod n)
    by (subst q; apply Z.div_mod; lia).
  pose proof (Z.mod_pos_bound (- len src) n Hn) as Hr.
  set (r := (- len src) mod n) in *.
  assert (Hnew : - q * n = len src + r) by lia.
  rewrite Hnew.
  assert (Hmod : (len src + r) mod n = 0).
  { rewrite <- Hnew. apply Z.mod_mul. lia. }
  assert (Hbyte : is_byte (Z.land pad 0xFF)).
  { unfold is_byte. change 0xFF with (Z.ones 8). rewrite Z.land_ones by lia.
    apply Z.mod_pos_bound. reflexivity. }
  exists (Z.to_nat r). rewrite Z2Nat.id by lia.
  split; [|split; [lia|split; [assumption|split; [|assumption]]]].
  - destruct (Z.eqb_spec (len src) (len src + r)) as [E|E].
    + replace r with 0 by lia. cbn. now rewrite app_nil_r.
    + unfold ljust, ret. do 3 f_equal. lia.
  - intros Hz.
    assert (r = 0); [|lia].
    pose proof (Z.div_mod (len src) n ltac:(lia)) as H1.
    pose proof (Z.div_mod (len src + r) n ltac:(lia)) as H2.
    rewrite Hz in H1. rewrite Hmod in H2.
    set (a := len src / n) in *. set (b := (len src + r) / n) in *.
    assert (Hab : r = n * (b - a)) by lia.
    destruct (Z.lt_trichotomy b a) as [Hlt|[Heq|Hgt]]; [nia | subst; lia | nia].
Qed.

(** [align_bytes] with a positive alignment: the source followed by fewer
    than [align_to] filler bytes, each [pad & 0xFF], up to the next
    multiple of [align_to]; nothing is added to an aligned source. *)
Theorem align_bytes_next_multiple :
  forall (src : bytes) (align_to pad : Z),
    0 < align_to ->
    exists k : nat,
      align_bytes src align_to pad = ret (src ++ repeat (Z.land pad 0xFF) k)
      /\ 0 <= Z.of_nat k < align_to
      /\ (len src + Z.of_nat k) mod align_to = 0
      /\ (len src mod align_to = 0 -> k = 0%nat)
      /\ is_byte (Z.land pad 0xFF).
Proof. exact align_bytes_shape. Qed.

Lemma align_bytes_next_multiple_witness :
  align_bytes [1; 2; 3] 4 0x1FF = ret [1; 2; 3; 255].
Proof.
  destruct (align_bytes_next_multiple [1; 2; 3] 4 0x1FF ltac:(lia))
    as (k & _ & _ & _ & _ & _).
  reflexivity.
Defined.

(** [find_all] with a non-empty pattern yields exactly the positions at
    which the pattern occurs, overlapping ones included, each once and in
    ascending order. *)
Theorem find_all_positions :
  forall where_ what : bytes,
    what <> [] ->
    exists ps,
      find_all where_ what = Some ps
      /\ StronglySorted Z.lt ps
      /\ forall p, In p ps
           <-> 0 <= p
               /\ firstn (length what) (skipn (Z.to_nat p) where_) = what.
Proof.
  intros where_ what Hne. exists (occurrences_from where_ what 0).
  split; [now apply find_all_occurrences|].
  split; [now apply occurrences_sorted|].
  intros p. rewrite occurrences_In by assumption.
  rewrite startswith_firstn, Z.sub_0_r, Z.add_0_l. split.
  - intros [Hp He]. split; [lia | assumption].
  - intros [Hp He]. split; [|assumption]. split; [assumption|].
    destruct (Z.ltb_spec p (len where_)); [assumption|].
    exfalso. rewrite skipn_all2 in He by (unfold len in *; lia).
    rewrite firstn_nil in He. now symmetry in He.
Qed.

Lemma find_all_positions_witness :
  find_all [0; 8; 0; 0; 8; 0; 0] [0; 8; 0; 0] = Some [0; 3].
Proof.
  destruct (find_all_positions [0; 8; 0; 0; 8; 0; 0] [0; 8; 0; 0]
              ltac:(discriminate)) as (ps & _).
  reflexivity.
Defined.

(** [l.sort(reverse=True)] as modelled: a descending rearrangement. *)
Lemma insert_desc_perm x l : Permutation (x :: l) (insert_desc x l).
Proof.
  induction l as [|y tl IH]; cbn [insert_desc]; [reflexivity|].
  destruct (y <? x); [reflexivity|].
  rewrite perm_swap. now constructor.
Qed.

Lemma insert_desc_sorted x l :
  StronglySorted Z.ge l -> StronglySorted Z.ge (insert_desc x l).
Proof.
  induction 1 as [|y tl Hs IH Hf]; cbn [insert_desc].
  - repeat constructor.
  - destruct (Z.ltb_spec y x).
    + constructor; [now constructor|].
      constructor; [lia|]. eapply Forall_impl; [|exact Hf].
      cbn. intros; lia.
    + constructor; [assumption|].
      rewrite <- (insert_desc_perm x tl). constructor; [lia | assumption].
Qed.

Lemma sort_reverse_perm l : Permutation l (sort_reverse l).
Proof.
  induction l as [|x l IH]; cbn; [reflexivity|].
  rewrite <- insert_desc_perm. now constructor.
Qed.

Lemma sort_reverse_sorted l : StronglySorted Z.ge (sort_reverse l).
Proof.
  induction l as [|x l IH]; cbn; [constructor | now apply insert_desc_sorted].
Qed.

Lemma indices_loop_some src max_val acc l :
  snd (indices_loop src max_val acc) = Some l ->
  exists vs, l = acc ++ vs
    /\ Forall2 (fun s v => int s = ret v) src vs
    /\ Forall (fun v => v <= max_val) vs.
Proof.
  revert acc. induction src as [|s tl IH]; intros acc; cbn [indices_loop].
  - intros H. injection H as <-. exists []. rewrite app_nil_r.
    repeat constructor.
  - destruct (int s) as [e|i] eqn:E; [discriminate|].
    destruct (Z.gtb_spec i max_val) as [Hgt|Hle]; [discriminate|].
    intros Hl. apply IH in Hl. destruct Hl as (vs & -> & Hf & Hm).
    exists (i :: vs). rewrite <- app_assoc. split; [reflexivity|].
    split; constructor; assumption || lia.
Qed.

Lemma indices_loop_none src max_val acc :
  snd (indices_loop src max_val acc) = None ->
  exists s, In s src /\ forall v, int s = ret v -> max_val < v.
Proof.
  revert acc. induction src as [|s tl IH]; intros acc; cbn [indices_loop].
  - discriminate.
  - destruct (int s) as [e|i] eqn:E.
    + intros _. exists s. split; [now left | intros v Hv; rewrite E in Hv; discriminate Hv].
    + destruct (Z.gtb_spec i max_val) as [Hgt|Hle].
      * intros _. exists s. split; [now left|].
        intros v Hv. rewrite E in Hv. injection Hv as <-. lia.
      * intros Hn. apply IH in Hn. destruct Hn as (s' & Hin & Hs').
        exists s'. split; [now right | assumption].
Qed.

(** [int] reads the decimal digits of every script and gives up above
    4300 digits. *)
Example int_other_scripts :
  int [0x663] = ret 3 /\ int [0xA0; 45; 0xFF11; 95; 0x1D7D8] = ret (-10).
Proof. split; reflexivity. Qed.

Example int_digit_limit :
  int (repeat 49 4301) = raise ValueError
  /\ int (repeat 49 4300) <> raise ValueError.
Proof. split; vm_compute; [reflexivity | discriminate]. Qed.

(** [indices_atoi_list] returns the parsed indices rearranged in
    descending order when every string parses to an integer not above
    [max_val]; otherwise it returns [None], and some string of the input
    does not parse or exceeds [max_val]. *)
Theorem indices_atoi_list_sorted_or_none :
  forall (src : list str) (max_val : Z),
    match snd (indices_atoi_list src max_val) with
    | Some l =>
      exists vs, Forall2 (fun s v => int s = ret v) src vs
        /\ Forall (fun v => v <= max_val) vs
        /\ Permutation vs l /\ StronglySorted Z.ge l
    | None =>
      exists s, In s src /\ forall v, int s = ret v -> max_val < v
    end.
Proof.
  intros src max_val. unfold indices_atoi_list.
  destruct (indices_loop src max_val []) as [lg [l|]] eqn:E; cbn [snd].
  - assert (H : snd (indices_loop src max_val []) = Some l) by now rewrite E.
    apply indices_loop_some in H. destruct H as (vs & -> & Hf & Hm).
    exists vs. cbn [app]. repeat split; try assumption.
    + apply sort_reverse_perm.
    + apply sort_reverse_sorted.
  - apply (indices_loop_none src max_val []). now rewrite E.
Qed.

(** ** [src/obj/btinfo.py] *)

Lemma nth_slice_field (data : bytes) (i : nat) :
  (i < 59)%nat ->
  nth i (firstn 59 (skipn 5 data)) 0 = nth (5 + i) data 0.
Proof.
  intros Hi. rewrite nth_firstn.
  destruct (Nat.ltb_spec i 59); [|lia]. apply nth_skipn.
Qed.

Lemma firstn_slice_field (data : bytes) (n a : nat) :
  (a + n <= 59)%nat ->
  firstn n (skipn a (firstn 59 (skipn 5 data)))
  = firstn n (skipn (5 + a) data).
Proof.
  intros H. rewrite skipn_firstn_comm, firstn_firstn, skipn_skipn.
  f_equal; [lia | f_equal; lia].
Qed.

(** [BtInfo.load] in terms of fixed offsets. *)
Lemma btinfo_load_by_offsets :
  forall data : bytes,
    BtInfo.load data =
    if len data <? 64 then
      ([], raise (AppotechTruncatedError 64 (len data)))
    else if negb (startswith data BtInfo.MAGIC) then
      ([], raise (AppotechError InvalidMagic))
    else
      let cksum := nth 62 data 0 + 256 * nth 63 data 0 in
      match Utf8.decode (split_nul_head (firstn 32 (skipn 14 data))) with
      | inl _ => ([], raise (AppotechError CouldNotLoadEntry))
      | inr name =>
        (if sum (firstn 62 data) =? cksum then []
         else [(WARNING, InvalidChecksum (sum (firstn 62 data)) cksum)],
         ret (BtInfo.mk (nth 6 data 0) (nth 7 data 0) (nth 8 data 0)
                (nth 9 data 0) name (rev (firstn 6 (skipn 46 data))) cksum))
      end.
Proof.
  intros data. unfold BtInfo.load. change BtInfo.SIZE with 64.
  destruct (Z.ltb_spec (len data) 64) as [Hlt|Hge]; [reflexivity|].
  destruct (startswith data BtInfo.MAGIC); [|reflexivity]. cbn [negb].
  rewrite slice_in_range by (change (len BtInfo.MAGIC) with 5; lia).
  rewrite slice_to_firstn by lia.
  change (Z.to_nat (64 - len BtInfo.MAGIC)) with 59%nat.
  change (Z.to_nat (len BtInfo.MAGIC)) with 5%nat.
  change (Z.to_nat (64 - 2)) with 62%nat.
  unfold BtInfo.unpack.
  assert (Hl : len (firstn 59 (skipn 5 data)) = BtInfo.FMT_SIZE).
  { unfold len in *. rewrite length_firstn, length_skipn.
    change BtInfo.FMT_SIZE with 59. lia. }
  rewrite Hl, Z.eqb_refl. cbn [negb bind ret].
  rewrite !nth_slice_field by lia.
  rewrite !firstn_slice_field by lia.
  cbn [Nat.add]. unfold unpack_H.
  destruct (Utf8.decode (split_nul_head (firstn 32 (skipn 14 data))))
    as [e|name]; cbn [bind ret BtInfo.checksum]; [reflexivity|].
  destruct (sum (firstn 62 data) =? nth 62 data 0 + 256 * nth 63 data 0);
    reflexivity.
Qed.

(** What [BtInfo.load] does with any input.  Shorter than [SIZE] bytes:
    the truncation error, whatever the bytes are.  Otherwise, without the
    magic: the magic error.  Otherwise the fields are read at fixed
    offsets (flags at 6, the three thresholds at 7 to 9, the name in
    14..46, the MAC in 46..52 and reversed, the checksum in 62..64); the
    only possible failure is a name that is not UTF-8; a checksum that
    differs from the sum of the first 62 bytes is logged as a warning and
    the record is returned all the same. *)
Theorem btinfo_load_cases :
  forall data : bytes,
    BtInfo.load data =
    if len data <? 64 then
      ([], raise (AppotechTruncatedError 64 (len data)))
    else if negb (startswith data BtInfo.MAGIC) then
      ([], raise (AppotechError InvalidMagic))
    else
      let cksum := nth 62 data 0 + 256 * nth 63 data 0 in
      match Utf8.decode (split_nul_head (firstn 32 (skipn 14 data))) with
      | inl _ => ([], raise (AppotechError CouldNotLoadEntry))
      | inr name =>
        (if sum (firstn 62 data) =? cksum then []
         else [(WARNING, InvalidChecksum (sum (firstn 62 data)) cksum)],
         ret (BtInfo.mk (nth 6 data 0) (nth 7 data 0) (nth 8 data 0)
                (nth 9 data 0) name (rev (firstn 6 (skipn 46 data))) cksum))
      end.
Proof. exact btinfo_load_by_offsets. Qed.

(** For an input of at least [SIZE] bytes only the first [SIZE] bytes
    count. *)
Theorem btinfo_load_reads_size_bytes :
  forall data : bytes,
    64 <= len data -> BtInfo.load data = BtInfo.load (firstn 64 data).
Proof.
  intros data Hlen. rewrite !btinfo_load_by_offsets.
  assert (Hl : len (firstn 64 data) = 64)
    by (rewrite len_firstn; lia).
  rewrite Hl. destruct (Z.ltb_spec (len data) 64) as [Hlt|_]; [lia|].
  change (64 <? 64) with false. cbv iota.
  assert (Hs : startswith (firstn 64 data) BtInfo.MAGIC
               = startswith data BtInfo.MAGIC).
  { apply eq_true_iff_eq. rewrite !startswith_firstn, firstn_firstn.
    reflexivity. }
  rewrite Hs.
  assert (Hn : forall i, (i < 64)%nat ->
             nth i (firstn 64 data) 0 = nth i data 0).
  { intros i Hi. rewrite nth_firstn.
    now destruct (Nat.ltb_spec i 64); [|lia]. }
  assert (Hf : forall n a, (a + n <= 64)%nat ->
             firstn n (skipn a (firstn 64 data)) = firstn n (skipn a data)).
  { intros n a Hna. rewrite skipn_firstn_comm, firstn_firstn. f_equal. lia. }
  rewrite !Hn by lia. rewrite (Hf 32%nat 14%nat), (Hf 6%nat 46%nat) by lia.
  rewrite (firstn_firstn data 62 64). reflexivity.
Qed.

Lemma btinfo_load_reads_size_bytes_witness :
  BtInfo.load (BtInfo.MAGIC ++ repeat 0 60)
  = BtInfo.load (firstn 64 (BtInfo.MAGIC ++ repeat 0 60)).
Proof.
  apply btinfo_load_reads_size_bytes. vm_compute. discriminate.
Defined.

(** ** [src/obj/btpairing.py] *)

Module BtPairingCodecFacts.
Import BtPairing.

Lemma entry_to_bytes_length e bs :
  Entry.to_bytes e = ret bs -> List.length bs = 55%nat.
Proof.
  unfold Entry.to_bytes. destruct (Utf8.encode (Entry.bt_name e)) as [x|name];
    cbn [bind ret]; [discriminate|].
  intros H. injection H as <-.
  rewrite !length_app, !pack_s_length. reflexivity.
Qed.

Lemma join_entries_length es bs :
  join_entries es = ret bs -> len bs = Entry.SIZE * len es.
Proof.
  revert bs. induction es as [|e es IH]; intros bs; cbn [join_entries].
  - intros H. injection H as <-. reflexivity.
  - destruct (Entry.to_bytes e) as [x|b] eqn:Eb; cbn [bind]; [discriminate|].
    destruct (join_entries es) as [x|rest]; cbn [bind ret]; [discriminate|].
    intros H. injection H as <-. apply entry_to_bytes_length in Eb.
    rewrite len_app, (IH rest eq_refl). unfold len, Entry.SIZE in *.
    cbn [List.length]. lia.
Qed.

Lemma entry_unpack_layout key mac name v :
  List.length key = 16%nat -> List.length mac = 6%nat ->
  List.length name = 32%nat ->
  Entry.unpack (key ++ mac ++ name ++ [v]) = ret (key, mac, name, v).
Proof.
  intros Hk Hm Hn. explode key Hk. explode mac Hm. explode name Hn.
  reflexivity.
Qed.

(** One entry: decoding undoes encoding. *)
Lemma entry_roundtrip e :
  Entry.valid e ->
  exists bs, Entry.to_bytes e = ret bs
    /\ List.length bs = 55%nat
    /\ Entry.load bs = ret e
    /\ nth 54 bs 0 = (if Entry.is_valid e then 1 else 0).
Proof.
  intros (Hk & Hm & Ht & Hnul & Hfit).
  destruct (Utf8Facts.encode_decode _ Ht) as (name & He & Hnb & Hnz & Hdec).
  pose proof (Hfit _ He) as Hfit'.
  unfold Entry.to_bytes. rewrite He. cbn [bind ret].
  eexists. split; [reflexivity|].
  assert (Hlen : List.length
            (pack_s 16 (Entry.link_key e) ++ pack_s 6 (rev (Entry.bt_mac e))
             ++ pack_s 32 name ++ [if Entry.is_valid e then 1 else 0])
            = 55%nat)
    by (rewrite !length_app, !pack_s_length; reflexivity).
  split; [exact Hlen|]. split.
  - unfold Entry.load, len. rewrite Hlen.
    change (Z.of_nat 55 <? Entry.SIZE) with false. cbv iota.
    rewrite entry_unpack_layout by apply pack_s_length.
    cbn [bind ret].
    rewrite (pack_s_fits 32) by (unfold len in Hfit'; lia).
    rewrite split_nul_head_padded by now apply Hnz.
    rewrite Hdec. cbn [bind ret].
    rewrite (pack_s_fits 6) by (rewrite length_rev; unfold len in Hm; lia).
    rewrite (pack_s_fits 16) by (unfold len in Hk; lia).
    rewrite length_rev.
    replace (6 - List.length (Entry.bt_mac e))%nat with 0%nat
      by (unfold len in Hm; lia).
    replace (16 - List.length (Entry.link_key e))%nat with 0%nat
      by (unfold len in Hk; lia).
    cbn [repeat]. rewrite !app_nil_r, rev_involutive.
    destruct e as [k a n v]. cbn. now destruct v.
  - rewrite app_assoc, app_assoc, app_nth2;
      rewrite !length_app, !pack_s_length; [|cbn; lia].
    reflexivity.
Qed.

Lemma getitem_last_of_55 (b : bytes) :
  List.length b = 55%nat -> getitem b (-1) = ret (nth 54 b 0).
Proof.
  intros H. unfold getitem, len. rewrite H. reflexivity.
Qed.

(** The loop on an encoded list of valid entries followed by one byte. *)
Lemma read_encoded es :
  forall pre acc fuel bs idx,
    Forall (fun e => Entry.valid e /\ Entry.is_valid e = true) es ->
    join_entries es = ret bs ->
    (List.length es < fuel)%nat ->
    read_entries fuel (pre ++ bs ++ [idx]) (len pre) acc
    = Some ([(WARNING, StopReadingExhausted 55 1)],
            ret (acc ++ es, len pre + Entry.SIZE * len es)).
Proof.
  induction es as [|e es IH]; intros pre acc fuel bs idx Hv Hj Hfuel;
    (destruct fuel as [|fuel]; [cbn in Hfuel; lia|]); cbn [join_entries] in Hj.
  - injection Hj as <-. cbn [read_entries app].
    rewrite len_app. change (len [idx]) with 1.
    replace (len pre + 1 - len pre) with 1 by lia.
    change (1 <? Entry.SIZE) with true. cbv iota.
    rewrite app_nil_r. do 4 f_equal. change (len (@nil Entry.t)) with 0. lia.
  - inversion Hv as [|? ? [Hve Hvt] Hv']; subst.
    destruct (entry_roundtrip e Hve) as (b & Eb & Hbl & Hload & Hlast).
    rewrite Eb in Hj. cbn [bind] in Hj.
    destruct (join_entries es) as [x|rest] eqn:Er; cbn [bind ret] in Hj;
      [discriminate|].
    injection Hj as <-.
    cbn [read_entries].
    assert (Hb : len b = 55) by (unfold len; now rewrite Hbl).
    pose proof (len_nonneg pre). pose proof (len_nonneg rest).
    rewrite !len_app, Hb. change (len [idx]) with 1.
    destruct (Z.ltb_spec (len pre + (55 + len rest + 1) - len pre) Entry.SIZE)
      as [Hlt|_]; [unfold Entry.SIZE in Hlt; lia|].
    assert (Hslice :
      slice (pre ++ (b ++ rest) ++ [idx]) (len pre) (len pre + Entry.SIZE) = b).
    { rewrite slice_in_range
        by (rewrite ?len_app, ?Hb; change (len [idx]) with 1;
            unfold Entry.SIZE; lia).
      replace (Z.to_nat (len pre + Entry.SIZE - len pre)) with 55%nat
        by (unfold Entry.SIZE; lia).
      rewrite skipn_app_exact by (unfold len; lia).
      rewrite <- app_assoc. now apply firstn_app_exact. }
    rewrite Hslice, getitem_last_of_55 by assumption.
    cbn [ret]. rewrite Hlast, Hvt. cbn [Z.eqb Pos.eqb negb].
    rewrite Hload. cbn [ret].
    rewrite <- app_assoc.
    replace (pre ++ b ++ rest ++ [idx]) with ((pre ++ b) ++ rest ++ [idx])
      by now rewrite <- app_assoc.
    replace (len pre + Entry.SIZE) with (len (pre ++ b))
      by (rewrite len_app, Hb; reflexivity).
    rewrite (IH (pre ++ b) (acc ++ [e]) fuel rest idx Hv' eq_refl)
      by (cbn in Hfuel; lia).
    rewrite <- app_assoc. cbn [app].
    do 4 f_equal. rewrite len_app, Hb. unfold len, Entry.SIZE.
    cbn [List.length]. lia.
Qed.

(** Encoding and decoding a valid database. *)
Lemma database_roundtrip d :
  valid d ->
  exists bs, to_bytes d = ret bs /\ len bs = BtPairing.length d
    /\ load bs = Some ([(WARNING, StopReadingExhausted 55 1)], ret d).
Proof.
  intros (Hne & Hv & Hidx). destruct d as [es idx]. cbn in Hne, Hv, Hidx.
  assert (Hj : exists body, join_entries es = ret body).
  { clear Hne. induction Hv as [|e es [He _] _ IH]; [now exists []|].
    destruct IH as [rest Hr].
    destruct (entry_roundtrip e He) as (b & Eb & _).
    exists (b ++ rest). cbn [join_entries]. now rewrite Eb, Hr. }
  destruct Hj as [body Hj].
  pose proof (join_entries_length _ _ Hj) as Hbl.
  unfold to_bytes. cbn [entries paired_idx]. rewrite Hj. cbn [bind].
  rewrite BtInfoFacts.pack_B_byte by assumption. cbn [bind ret].
  eexists. split; [reflexivity|].
  assert (Hes : 1 <= len es).
  { destruct es; [contradiction|]. unfold len. cbn [List.length]. lia. }
  assert (Hlen : len (MAGIC ++ body ++ [idx]) = 16 + 55 * len es + 1).
  { rewrite !len_app, Hbl. change (len MAGIC) with 16.
    change (len [idx]) with 1. unfold Entry.SIZE. lia. }
  split.
  { rewrite Hlen. unfold BtPairing.length. cbn [entries].
    change (len MAGIC) with 16. unfold Entry.SIZE. lia. }
  unfold load. rewrite Hlen.
  destruct (Z.ltb_spec (16 + 55 * len es + 1) (HDR_SIZE + Entry.SIZE + 1))
    as [Hlt|_].
  { change (HDR_SIZE + Entry.SIZE + 1) with 72 in Hlt. lia. }
  rewrite startswith_app. cbn [negb].
  rewrite (read_encoded es MAGIC [] _ body idx Hv Hj).
  2:{ rewrite !length_app. unfold len, Entry.SIZE in Hbl. lia. }
  cbn [app]. destruct es as [|e es']; [contradiction|].
  change (len MAGIC) with 16. unfold Entry.SIZE.
  change (16 + 6 + 32 + 1) with 55. unfold ret at 1. cbv iota beta.
  replace (16 + 55 * len (e :: es') + 1 - (16 + 55 * len (e :: es'))) with 1
    by lia.
  change (1 <? 1) with false. cbv iota.
  rewrite BtPairingFacts.getitem_in_range by (rewrite Hlen; lia).
  cbn [bind ret]. do 4 f_equal.
  assert (Hbody : List.length body = Z.to_nat (55 * len (e :: es')))
    by (unfold len, Entry.SIZE in *; lia).
  rewrite app_nth2 by (change (List.length MAGIC) with 16%nat; lia).
  rewrite app_nth2 by (change (List.length MAGIC) with 16%nat; lia).
  replace (Z.to_nat (16 + 55 * len (e :: es')) - List.length MAGIC
           - List.length body)%nat with 0%nat
    by (change (List.length MAGIC) with 16%nat; lia).
  reflexivity.
Qed.

End BtPairingCodecFacts.

(** A pairing entry survives encoding and decoding, valid or not: for a
    16-byte link key, a 6-byte MAC and a NUL-free name that fits 32 bytes,
    [load] of the 55 encoded bytes gives the entry back, and the last
    encoded byte is 1 exactly for a valid entry. *)
Theorem btpairing_entry_roundtrip :
  forall e : BtPairing.Entry.t,
    BtPairing.Entry.valid e ->
    exists bs, BtPairing.Entry.to_bytes e = ret bs
      /\ len bs = BtPairing.Entry.SIZE
      /\ BtPairing.Entry.load bs = ret e
      /\ (nth 54 bs 0 = 1 <-> BtPairing.Entry.is_valid e = true).
Proof.
  intros e Hv.
  destruct (BtPairingCodecFacts.entry_roundtrip e Hv)
    as (bs & H1 & H2 & H3 & H4).
  exists bs. split; [assumption|]. split; [unfold len; now rewrite H2|].
  split; [assumption|]. rewrite H4.
  destruct (BtPairing.Entry.is_valid e); split; congruence.
Qed.

(** A database with at least one entry, all of them valid and marked
    valid, survives encoding and decoding: the entries and [paired_idx]
    come back, the only log record is the note that the data is
    exhausted, and the encoding is [length()] bytes long. *)
Theorem btpairing_roundtrip :
  forall d : BtPairing.t,
    BtPairing.valid d ->
    exists bs, BtPairing.to_bytes d = ret bs
      /\ len bs = BtPairing.length d
      /\ BtPairing.load bs
         = Some ([(WARNING, StopReadingExhausted 55 1)], ret d).
Proof. exact BtPairingCodecFacts.database_roundtrip. Qed.

(** Whatever the fields hold, an encoding that succeeds is exactly
    [length()] bytes long: link keys, MACs and names are cut or padded to
    their field sizes. *)
Theorem btpairing_encoded_length :
  forall (d : BtPairing.t) (bs : bytes),
    BtPairing.to_bytes d = ret bs -> len bs = BtPairing.length d.
Proof.
  intros d bs. unfold BtPairing.to_bytes, BtPairing.length.
  destruct (BtPairing.join_entries (BtPairing.entries d)) as [x|body] eqn:Ej;
    cbn [bind]; [discriminate|].
  unfold pack_B.
  destruct ((0 <=? BtPairing.paired_idx d) && (BtPairing.paired_idx d <=? 255));
    cbn [bind ret raise]; [|discriminate].
  intros H. injection H as <-.
  apply BtPairingCodecFacts.join_entries_length in Ej.
  change (len BtPairing.MAGIC) with 16.
  unfold len in *. cbn [List.length]. rewrite length_app.
  cbn [List.length]. lia.
Qed.

Ltac solve_entry_valid :=
  unfold BtPairing.Entry.valid, Utf8.is_text, Utf8.is_scalar;
  cbn [BtPairing.Entry.link_key BtPairing.Entry.bt_mac
       BtPairing.Entry.bt_name];
  repeat match goal with |- _ /\ _ => split end;
  try reflexivity;
  try (repeat (apply Forall_cons; [lia|]); apply Forall_nil);
  try (cbn; lia);
  try (let bs := fresh in let H := fresh in
       intros bs H; vm_compute in H; injection H as <-; vm_compute;
       discriminate).

Lemma btpairing_entry_roundtrip_witness :
  let e := BtPairing.Entry.mk (repeat 17 16) [1; 2; 3; 4; 5; 6] [65] false in
  exists bs, BtPairing.Entry.to_bytes e = ret bs
             /\ BtPairing.Entry.load bs = ret e.
Proof.
  intros e.
  destruct (btpairing_entry_roundtrip e) as (bs & H1 & _ & H3 & _).
  - solve_entry_valid.
  - exists bs. split; assumption.
Defined.

Lemma btpairing_roundtrip_witness :
  let a := BtPairing.Entry.mk (repeat 17 16) [1; 2; 3; 4; 5; 6] [65] true in
  let b := BtPairing.Entry.mk (repeat 34 16) [6; 5; 4; 3; 2; 1] [66] true in
  exists bs, BtPairing.to_bytes (BtPairing.mk [a; b] 1) = ret bs
    /\ len bs = 127
    /\ BtPairing.load bs
       = Some ([(WARNING, StopReadingExhausted 55 1)],
               ret (BtPairing.mk [a; b] 1)).
Proof.
  intros a b.
  destruct (btpairing_roundtrip (BtPairing.mk [a; b] 1))
    as (bs & H1 & H2 & H3).
  - unfold BtPairing.valid. cbn [BtPairing.entries BtPairing.paired_idx].
    split; [discriminate|]. split; [|unfold is_byte; lia].
    repeat (apply Forall_cons;
            [split; [solve_entry_valid | reflexivity]|]).
    apply Forall_nil.
  - exists bs. split; [assumption|]. split; assumption.
Defined.

Lemma btpairing_encoded_length_witness :
  len (BtPairing.MAGIC ++ repeat 0 54 ++ [0; 7])
  = BtPairing.length (BtPairing.mk [BtPairing.Entry.default] 7).
Proof.
  apply btpairing_encoded_length. reflexivity.
Defined.

(** ** More of [src/common.py] and of the pairing tool *)

Lemma firstn_add {A} (l : list A) a c :
  firstn (a + c) l = firstn a l ++ firstn c (skipn a l).
Proof.
  revert l. induction a as [|a IH]; intros l; [reflexivity|].
  destruct l as [|x l]; cbn [Nat.add firstn skipn app].
  - now rewrite firstn_nil.
  - now rewrite IH.
Qed.

Lemma firstn_slice {A} (l : list A) a b :
  0 <= a <= b ->
  firstn (Z.to_nat a) l ++ slice l a b = firstn (Z.to_nat b) l.
Proof.
  intros Hab. unfold slice. pose proof (len_nonneg l) as Hl.
  rewrite !clamp_index_nonneg by lia.
  destruct (Z.le_ge_cases a (len l)) as [Ha|Ha].
  - rewrite (Z.min_l a) by lia.
    replace (firstn (Z.to_nat b) l) with (firstn (Z.to_nat (Z.min b (len l))) l).
    + replace (Z.to_nat (Z.min b (len l)))
        with (Z.to_nat a + Z.to_nat (Z.min b (len l) - a))%nat by lia.
      apply eq_sym, firstn_add.
    + destruct (Z.le_ge_cases b (len l)).
      * now rewrite Z.min_l by lia.
      * rewrite Z.min_r by lia. unfold len.
        rewrite Nat2Z.id, firstn_all. symmetry. apply firstn_all2.
        unfold len in *. lia.
  - rewrite (Z.min_r a), (Z.min_r b) by lia. rewrite Z.sub_diag.
    cbn [Z.to_nat firstn]. rewrite app_nil_r.
    rewrite !firstn_all2 by (unfold len in *; lia). reflexivity.
Qed.

(** [split_in_chunks] cuts the list into consecutive pieces: joined again
    they give the list back, no piece is longer than [chunk_len], and when
    [chunk_len] divides the length every piece has exactly [chunk_len]
    elements. *)
Theorem split_in_chunks_partition :
  forall (A : Type) (values : list A) (chunk_len : Z),
    0 < chunk_len ->
    concat (split_in_chunks values chunk_len) = values
    /\ Forall (fun c => len c <= chunk_len) (split_in_chunks values chunk_len)
    /\ (len values mod chunk_len = 0 ->
        Forall (fun c => len c = chunk_len)
          (split_in_chunks values chunk_len)).
Proof.
  intros A values n Hn. pose proof (len_nonneg values) as Hl.
  unfold split_in_chunks.
  set (m := Z.to_nat (ceil_div (len values) n)).
  assert (Hm : len values <= Z.of_nat m * n
               /\ (len values mod n = 0 -> Z.of_nat m * n = len values)).
  { subst m. unfold ceil_div.
    pose proof (Z.div_mod (- len values) n ltac:(lia)) as Hd.
    pose proof (Z.mod_pos_bound (- len values) n Hn) as Hr.
    assert (Hq : 0 <= - (- len values / n)) by nia.
    rewrite Z2Nat.id by lia. split; [nia|].
    intros Hz.
    pose proof (Z.div_mod (len values) n ltac:(lia)) as Hd'.
    rewrite Hz in Hd'.
    set (a := len values / n) in *. set (q := - len values / n) in *.
    set (r := (- len values) mod n) in *.
    assert (r = n * (- a - q)) by lia.
    assert (r = 0); [|lia].
    destruct (Z.lt_trichotomy (- a - q) 0) as [?|[?|?]]; nia. }
  destruct Hm as [Hm1 Hm2].
  split; [|split].
  - assert (Hj : forall j,
      concat (map (fun k => slice values (Z.of_nat k * n) (Z.of_nat k * n + n))
                (seq 0 j))
      = firstn (Z.to_nat (Z.of_nat j * n)) values).
    { induction j as [|j IH]; [reflexivity|].
      rewrite seq_S, map_app, concat_app, IH. cbn [map concat Nat.add].
      rewrite app_nil_r, firstn_slice by nia.
      f_equal. lia. }
    rewrite Hj. apply firstn_all2. unfold len in *. lia.
  - apply Forall_forall. intros c Hc. apply in_map_iff in Hc.
    destruct Hc as (k & <- & _). unfold slice.
    rewrite !clamp_index_nonneg by nia. rewrite len_firstn. lia.
  - intros Hz. specialize (Hm2 Hz).
    apply Forall_forall. intros c Hc. apply in_map_iff in Hc.
    destruct Hc as (k & <- & Hk). apply in_seq in Hk.
    rewrite slice_in_range by nia.
    rewrite len_firstn, len_skipn. nia.
Qed.

Lemma split_in_chunks_partition_witness :
  concat (split_in_chunks [1; 2; 3; 4; 5] 2) = [1; 2; 3; 4; 5].
Proof.
  apply (split_in_chunks_partition Z [1; 2; 3; 4; 5] 2). lia.
Defined.

Module EditFacts.
Import AppotechBtPairing.

Lemma indices_loop_forallb src max_val acc :
  snd (indices_loop src max_val acc)
  = if forallb (usable_index max_val) src then Some (acc ++ map parsed_index src)
    else None.
Proof.
  revert acc. induction src as [|s tl IH]; intros acc;
    cbn [indices_loop forallb map].
  - now rewrite app_nil_r.
  - unfold usable_index at 1, parsed_index at 1.
    destruct (int s) as [e|i]; [reflexivity|].
    destruct (i >? max_val); cbn [negb andb snd]; [reflexivity|].
    rewrite IH. destruct (forallb (usable_index max_val) tl); [|reflexivity].
    now rewrite <- app_assoc.
Qed.

Lemma indices_atoi_list_forallb src max_val :
  snd (indices_atoi_list src max_val)
  = if forallb (usable_index max_val) src
    then Some (sort_reverse (map parsed_index src)) else None.
Proof.
  unfold indices_atoi_list.
  pose proof (indices_loop_forallb src max_val []) as H.
  destruct (indices_loop src max_val []) as [lg [l|]]; cbn [snd app] in *;
    destruct (forallb (usable_index max_val) src); congruence.
Qed.

Lemma forallb_perm {A} (f : A -> bool) l l' :
  Permutation l l' -> forallb f l = forallb f l'.
Proof.
  induction 1 as [|x l l' _ IH|x y l|l l' l'' _ IH1 _ IH2];
    cbn [forallb existsb].
  - reflexivity.
  - now rewrite IH.
  - destruct (f x), (f y); reflexivity.
  - now rewrite IH1.
Qed.

Lemma existsb_perm {A} (f : A -> bool) l l' :
  Permutation l l' -> existsb f l = existsb f l'.
Proof.
  induction 1 as [|x l l' _ IH|x y l|l l' l'' _ IH1 _ IH2];
    cbn [forallb existsb].
  - reflexivity.
  - now rewrite IH.
  - destruct (f x), (f y); reflexivity.
  - now rewrite IH1.
Qed.

Lemma sort_reverse_nil l : sort_reverse l = [] -> l = [].
Proof.
  intros H. pose proof (sort_reverse_perm l) as P. rewrite H in P.
  now apply Permutation_sym, Permutation_nil in P.
Qed.

(** The entries [delete_entries] keeps, given the parsed_index indices. *)
Lemma delete_entries_kept entries args :
  snd (delete_entries entries args)
  = if forallb (usable_index (len entries)) args && negb (length args =? 0)%nat
    then ret (map (fun i => nth i entries BtPairing.Entry.default)
                (filter (fun i => negb (existsb (Z.eqb (Z.of_nat i))
                                          (map parsed_index args)))
                   (seq 0 (length entries))))
    else raise (SystemExit 1).
Proof.
  unfold delete_entries.
  pose proof (indices_atoi_list_forallb args (len entries)) as H.
  destruct (indices_atoi_list args (len entries)) as [lg [idx|]];
    cbn [snd] in H;
    destruct (forallb (usable_index (len entries)) args); try discriminate;
    cbn [andb]; [|reflexivity].
  injection H as ->.
  destruct args as [|s args'].
  - reflexivity.
  - cbn [length Nat.eqb negb].
    destruct (sort_reverse (map parsed_index (s :: args'))) as [|i idx'] eqn:E.
    + apply sort_reverse_nil in E. discriminate E.
    + cbn [snd]. rewrite <- E. do 2 f_equal. apply filter_ext.
      intros i0. f_equal. apply existsb_perm.
      apply Permutation_sym, sort_reverse_perm.
Qed.






Lemma insert_length {A} (l : list A) i x :
  length (insert l i x) = S (length l).
Proof.
  unfold insert. rewrite length_app. cbn [length].
  rewrite length_firstn, length_skipn.
  pose proof (len_nonneg l). unfold clamp_index, len in *.
  destruct (i <? 0); lia.
Qed.

End EditFacts.

(** [delete_entries] does not depend on the order in which the indices
    are given: any rearrangement of the arguments leaves the same entries,
    or fails alike. *)
Theorem delete_entries_order_independent :
  forall (entries : list BtPairing.Entry.t) (args args' : list str),
    Permutation args args' ->
    snd (AppotechBtPairing.delete_entries entries args)
    = snd (AppotechBtPairing.delete_entries entries args').
Proof.
  intros entries args args' P. rewrite !EditFacts.delete_entries_kept.
  rewrite (EditFacts.forallb_perm _ _ _ P), (Permutation_length P).
  destruct (forallb _ args' && _); [|reflexivity].
  do 2 f_equal. apply filter_ext. intros i. f_equal.
  apply EditFacts.existsb_perm. now apply Permutation_map.
Qed.

Lemma delete_entries_order_independent_witness :
  let a := BtPairing.Entry.mk [1] [] [] true in
  let b := BtPairing.Entry.mk [2] [] [] true in
  let c := BtPairing.Entry.mk [3] [] [] true in
  let d := BtPairing.Entry.mk [4] [] [] true in
  snd (AppotechBtPairing.delete_entries [a; b; c; d] [[48]; [50]])
  = snd (AppotechBtPairing.delete_entries [a; b; c; d] [[50]; [48]]).
Proof.
  intros a b c d. apply delete_entries_order_independent.
  apply perm_swap.
Defined.



(** When [add_entries] succeeds, the list has grown by one entry per
    given index. *)
Theorem add_entries_length :
  forall (entries out : list BtPairing.Entry.t) (args : list str),
    snd (AppotechBtPairing.add_entries entries args) = ret out ->
    len out = len entries + len args.
Proof.
  intros entries out args. unfold AppotechBtPairing.add_entries.
  pose proof (EditFacts.indices_atoi_list_forallb args (len entries)) as H.
  destruct (indices_atoi_list args (len entries)) as [lg [idx|]];
    cbn [snd] in H; [|discriminate].
  destruct (forallb _ args); [|discriminate]. injection H as ->.
  set (idx := sort_reverse (map parsed_index args)).
  assert (Hlen : length idx = length args).
  { subst idx. rewrite <- (Permutation_length (sort_reverse_perm _)).
    apply length_map. }
  assert (Hfold : forall (l : list Z) (es : list BtPairing.Entry.t),
            length (fold_left
                      (fun es i => insert es i BtPairing.Entry.default) l es)
            = (length es + length l)%nat).
  { induction l as [|i l IH]; intros es; cbn [fold_left length]; [lia|].
    rewrite IH, EditFacts.insert_length. lia. }
  destruct idx as [|i idx'] eqn:E; cbn [snd]; [discriminate|].
  intros Hout. injection Hout as <-. unfold len.
  rewrite Hfold, EditFacts.insert_length. cbn [length] in Hlen. lia.
Qed.

Lemma add_entries_length_witness :
  len [BtPairing.Entry.default; BtPairing.Entry.default;
       BtPairing.Entry.default]
  = len [BtPairing.Entry.default] + len [[48]; [48]].
Proof.
  apply add_entries_length. reflexivity.
Defined.

(** ** More of the injection engine *)

Module InjectFacts.

(** Every buffer an injection path returns is the original with some
    bytes spliced in at [start]. *)
Lemma btpairing_out_is_splice input start old_size force blob out :
  snd (AppotechBtPairing.save_output_mod input start old_size force blob)
    = ret out ->
  exists kept, out = splice input start kept.
Proof.
  unfold AppotechBtPairing.save_output_mod.
  destruct (len blob >? old_size).
  - destruct force; [|discriminate].
    destruct (_ >? 0); cbn [snd]; intros H; injection H as <-; eauto.
  - destruct (len blob <? old_size); cbn [snd]; intros H; injection H as <-;
      eauto.
Qed.

Lemma sfx_out_is_splice input start old_size force blob out :
  snd (AppotechSfx.inject input start old_size force blob) = ret out ->
  exists kept, out = splice input start kept.
Proof.
  unfold AppotechSfx.inject.
  destruct (len blob <? old_size).
  - destruct (align_bytes blob old_size 255) as [e|padded]; cbn [ret snd];
      [discriminate|].
    destruct (len padded >? old_size).
    + destruct force; cbn [snd]; [|discriminate].
      intros H; injection H as <-; eauto.
    + cbn [snd]. intros H; injection H as <-; eauto.
  - cbn [ret]. destruct (len blob >? old_size).
    + destruct force; cbn [snd]; [|discriminate].
      intros H; injection H as <-; eauto.
    + cbn [snd]. intros H; injection H as <-; eauto.
Qed.

Lemma splice_prefix input start kept :
  0 <= start <= len input ->
  firstn (Z.to_nat start) (splice input start kept)
  = firstn (Z.to_nat start) input.
Proof.
  intros H. unfold splice. rewrite slice_to_firstn by lia.
  apply firstn_app_exact. rewrite length_firstn. unfold len in *. lia.
Qed.

End InjectFacts.

(** No injection path touches the bytes before the replaced region:
    whatever the sizes and the force flag, the output begins with the
    first [start] bytes of the original. *)
Theorem injection_keeps_leading_bytes :
  forall (input blob out : bytes) (start old_size : Z) (force : bool),
    0 <= start <= len input ->
    (snd (AppotechBtPairing.save_output_mod input start old_size force blob)
       = ret out
     \/ snd (AppotechSfx.inject input start old_size force blob) = ret out) ->
    firstn (Z.to_nat start) out = firstn (Z.to_nat start) input.
Proof.
  intros input blob out start old_size force Hs [H|H].
  - apply InjectFacts.btpairing_out_is_splice in H. destruct H as [k ->].
    now apply InjectFacts.splice_prefix.
  - apply InjectFacts.sfx_out_is_splice in H. destruct H as [k ->].
    now apply InjectFacts.splice_prefix.
Qed.

Lemma injection_keeps_leading_bytes_witness :
  firstn 2 [1; 2; 9; 255; 255; 6] = firstn 2 [1; 2; 3; 4; 5; 6].
Proof.
  apply (injection_keeps_leading_bytes
           [1; 2; 3; 4; 5; 6] [9] [1; 2; 9; 255; 255; 6] 2 3 false).
  - unfold len; cbn; lia.
  - right. reflexivity.
Defined.

(** A blob exactly as long as the region it replaces is put in its place
    on both paths, without any log record: the output is the original up
    to [start], the blob, and the original from [start + old_size] on. *)
Theorem injection_equal_size_replaces_region :
  forall (input blob : bytes) (start : Z) (force : bool),
    0 <= start ->
    let out := slice_to input start ++ blob
               ++ slice_from input (start + len blob) in
    AppotechBtPairing.save_output_mod input start (len blob) force blob
      = ([], ret out)
    /\ AppotechSfx.inject input start (len blob) force blob = ([], ret out)
    /\ (start + len blob <= len input ->
        slice out start (start + len blob) = blob).
Proof.
  intros input blob start force Hs out.
  unfold AppotechBtPairing.save_output_mod, AppotechSfx.inject.
  rewrite Z.gtb_ltb, Z.ltb_irrefl. cbn [ret].
  rewrite Z.gtb_ltb, Z.ltb_irrefl.
  split; [reflexivity|]. split; [reflexivity|].
  intros Hfit. pose proof (len_nonneg blob) as Hb. subst out.
  rewrite slice_in_range.
  - rewrite slice_to_firstn by lia.
    rewrite skipn_app_exact
      by (rewrite length_firstn; unfold len in *; lia).
    replace (Z.to_nat (start + len blob - start)) with (length blob)
      by (unfold len; lia).
    now apply firstn_app_exact.
  - lia.
  - rewrite !len_app, len_slice_to, len_slice_from by lia. lia.
Qed.

Lemma injection_equal_size_replaces_region_witness :
  AppotechSfx.inject [1; 2; 3; 4; 5] 1 (len [8; 9]) false [8; 9]
  = ([], ret [1; 8; 9; 4; 5]).
Proof.
  exact (proj1 (proj2 (injection_equal_size_replaces_region
                         [1; 2; 3; 4; 5] [8; 9] 1 false ltac:(lia)))).
Defined.

(** The SFX path on a smaller, non-empty blob: the blob is right-padded
    with [0xFF] up to the old size and the original resumes after the old
    region; this holds with and without the force flag. *)
Theorem sfx_injection_pads_smaller_blob :
  forall (input blob : bytes) (start old_size : Z) (force : bool),
    0 <= start -> 0 < len blob < old_size ->
    snd (AppotechSfx.inject input start old_size force blob)
    = ret (slice_to input start ++ blob
           ++ repeat 0xFF (Z.to_nat (old_size - len blob))
           ++ slice_from input (start + old_size)).
Proof. intros. now apply sfx_inject_smaller. Qed.

Lemma sfx_injection_pads_smaller_blob_witness :
  snd (AppotechSfx.inject [1; 2; 3; 4; 5; 6] 1 4 false [9])
  = ret [1; 9; 255; 255; 255; 6].
Proof.
  apply (sfx_injection_pads_smaller_blob [1; 2; 3; 4; 5; 6] [9] 1 4 false).
  - lia.
  - unfold len; cbn; lia.
Defined.

(** ** [appotech-btinfo.py] *)

Module BtInfoToolFacts.
Import AppotechBtInfo.

(** [index]: the first occurrence, or [ValueError]. *)
Lemma index_occurrences (w what : bytes) :
  what <> [] ->
  index w what
  = match occurrences_from w what 0 with
    | [] => raise ValueError
    | p :: _ => ret p
    end.
Proof.
  intros Hne. unfold index, find. pose proof (len_nonneg w).
  destruct (Z.ltb_spec (len w) 0); [lia|]. cbn [Z.to_nat skipn].
  rewrite find_at_occurrences by assumption.
  destruct (occurrences_from w what 0) as [|p rest] eqn:E; [reflexivity|].
  cbn [hd]. assert (In p (p :: rest)) as Hin by now left.
  rewrite <- E in Hin. apply occurrences_lower in Hin.
  destruct (Z.eqb_spec p (-1)); [lia | reflexivity].
Qed.

(** The least occurrence is the one [index] returns. *)
Lemma index_least (w what : bytes) p :
  what <> [] ->
  In p (occurrences_from w what 0) ->
  (forall q, In q (occurrences_from w what 0) -> p <= q) ->
  index w what = ret p.
Proof.
  intros Hne Hin Hmin. rewrite index_occurrences by assumption.
  pose proof (occurrences_sorted what w 0) as Hs.
  destruct (occurrences_from w what 0) as [|p0 rest]; [destruct Hin|].
  inversion Hs as [|? ? _ Hf]; subst. rewrite Forall_forall in Hf.
  assert (p0 <= p) by (destruct Hin as [->|Hin]; [lia | apply Hf in Hin; lia]).
  assert (p <= p0) by (apply Hmin; now left).
  f_equal. lia.
Qed.

Lemma index_found (w what : bytes) p :
  what <> [] -> index w what = ret p ->
  In p (occurrences_from w what 0)
  /\ forall q, In q (occurrences_from w what 0) -> p <= q.
Proof.
  intros Hne. rewrite index_occurrences by assumption.
  pose proof (occurrences_sorted what w 0) as Hs.
  destruct (occurrences_from w what 0) as [|p0 rest]; [discriminate|].
  intros H. injection H as <-. split; [now left|].
  inversion Hs as [|? ? _ Hf]; subst. rewrite Forall_forall in Hf.
  intros q [<-|Hq]; [lia | apply Hf in Hq; lia].
Qed.

(** Whether the pattern occurs at [q] in [t ++ what ++ y], with [q] inside
    [t], does not depend on [y]. *)
Lemma occurrence_before (what t y y' : bytes) q :
  (q <= length t)%nat ->
  startswith (skipn q (t ++ what ++ y)) what
  = startswith (skipn q (t ++ what ++ y')) what.
Proof.
  intros Hq. apply eq_true_iff_eq. rewrite !startswith_firstn.
  rewrite !skipn_app.
  replace (q - length t)%nat with 0%nat by lia. cbn [skipn].
  rewrite !(app_assoc (skipn q t) what).
  rewrite !firstn_app.
  replace (length what - length (skipn q t ++ what))%nat with 0%nat
    by (rewrite length_app; lia).
  reflexivity.
Qed.

(** The proof of the round trip of a valid record, for reuse. *)
Lemma roundtrip r :
  BtInfo.valid r ->
  exists body,
    BtInfo.to_bytes r = ret (body ++ [sum body mod 256; sum body / 256])
    /\ length body = 62%nat
    /\ startswith body BtInfo.MAGIC = true
    /\ BtInfo.load (body ++ [sum body mod 256; sum body / 256])
       = ([], ret (BtInfo.mk (BtInfo.flags r) (BtInfo.mic_unmute_thresh r)
                     (BtInfo.mic_mute_thresh r) (BtInfo.mic_mute_duration r)
                     (BtInfo.bt_name r) (BtInfo.bt_mac r) (sum body))).
Proof.
  intros (Hf & Hu & Hm & Hd & Ht & Hnul & Hfit & Hlen & Hmac).
  destruct (Utf8Facts.encode_decode _ Ht) as (name & He & Hnb & Hnz & Hdec).
  pose proof (Hfit _ He) as Hfit'.
  pose proof (BtInfoFacts.to_bytes_shape r name Hf Hu Hm Hd He Hnb Hmac) as Hb.
  cbv zeta in Hb.
  set (b := BtInfo.body _ _ _ _ name _) in Hb.
  pose proof (BtInfoFacts.body_sum_bound _ _ _ _ name _ Hf Hu Hm Hd Hnb Hmac)
    as Hsum.
  fold b in Hsum.
  pose proof (BtInfoFacts.body_length (BtInfo.flags r)
    (BtInfo.mic_unmute_thresh r) (BtInfo.mic_mute_thresh r)
    (BtInfo.mic_mute_duration r) name (BtInfo.bt_mac r)) as Hbl.
  fold b in Hbl.
  exists b. split; [exact Hb|]. split; [exact Hbl|].
  split; [unfold b, BtInfo.body; apply startswith_app|].
  assert (Hcut : slice_to (b ++ [sum b mod 256; sum b / 256]) 62 = b).
  { rewrite slice_to_firstn by lia. now apply firstn_app_exact. }
  unfold b at 1. rewrite BtInfoFacts.body_app_assoc.
  assert (Hmlen : length (rev (BtInfo.bt_mac r)) = 6%nat).
  { rewrite length_rev. unfold len in Hlen. lia. }
  assert (Hname : split_nul_head (pack_s 32 name) = name).
  { rewrite pack_s_fits by (unfold len in Hfit'; lia).
    apply split_nul_head_padded. now apply Hnz. }
  rewrite (BtInfoFacts.load_layout _ _ _ _ _ _ _ _ (BtInfo.bt_name r)).
  2: apply pack_s_length.
  2: apply pack_s_length.
  2: now rewrite Hname.
  rewrite <- BtInfoFacts.body_app_assoc. fold b.
  change (BtInfo.SIZE - 2) with 62. rewrite Hcut.
  rewrite unpack_H_pack, Z.eqb_refl. cbn [negb].
  rewrite (pack_s_fits 6) by lia.
  rewrite Hmlen. cbn [Nat.sub repeat]. now rewrite app_nil_r, rev_involutive.
Qed.

End BtInfoToolFacts.

(** Injecting a valid record and reading the result again.  When
    [load_input] has found a record at [s, e) in the input, the output of
    [save_output] has the length of the input, differs from it only inside
    [s, e), and [load_input] on the output finds the record at the same
    place and decodes the injected fields, with the recomputed checksum
    and without a warning. *)
Theorem btinfo_inject_then_reload :
  forall (input : bytes) (s e : Z) (r0 r : BtInfo.t) (lg : log),
    AppotechBtInfo.load_input input = (lg, ret (s, e, r0)) ->
    BtInfo.valid r ->
    exists out cksum,
      AppotechBtInfo.save_output_mod input s e r = ret out
      /\ len out = len input
      /\ firstn (Z.to_nat s) out = firstn (Z.to_nat s) input
      /\ skipn (Z.to_nat e) out = skipn (Z.to_nat e) input
      /\ AppotechBtInfo.load_input out
         = ([], ret (s, e,
                     BtInfo.mk (BtInfo.flags r) (BtInfo.mic_unmute_thresh r)
                       (BtInfo.mic_mute_thresh r) (BtInfo.mic_mute_duration r)
                       (BtInfo.bt_name r) (BtInfo.bt_mac r) cksum)).
Proof.
  intros input s e r0 r lg Hin Hv.
  assert (Hne : BtInfo.MAGIC <> []) by discriminate.
  (* what the first [load_input] tells *)
  unfold AppotechBtInfo.load_input in Hin.
  destruct (index input BtInfo.MAGIC) as [x|s'] eqn:Eidx; [discriminate|].
  destruct (Z.gtb_spec (s' + BtInfo.SIZE) (len input)) as [|Hfit];
    [discriminate|].
  destruct (BtInfo.load _) as [lg' [x|r0']]; [discriminate|].
  injection Hin as _ -> <- _.
  change BtInfo.SIZE with 64 in *.
  destruct (BtInfoToolFacts.index_found _ _ _ Hne Eidx) as [Hocc Hmin].
  pose proof Hocc as Hocc'. apply occurrences_In in Hocc'.
  destruct Hocc' as [[Hs0 _] Hstart]. rewrite Z.sub_0_r in Hstart.
  (* the encoded record *)
  destruct (BtInfoToolFacts.roundtrip r Hv) as (body & Hb & Hbl & Hbm & Hload).
  set (blob := body ++ [sum body mod 256; sum body / 256]) in *.
  assert (Hblob : length blob = 64%nat)
    by (subst blob; rewrite length_app, Hbl; reflexivity).
  set (pre := firstn (Z.to_nat s) input).
  set (post := skipn (Z.to_nat (s + 64)) input).
  assert (Hpre : length pre = Z.to_nat s)
    by (subst pre; rewrite length_firstn; unfold len in *; lia).
  assert (Hout : AppotechBtInfo.save_output_mod input s (s + 64) r
                 = ret (pre ++ blob ++ post)).
  { unfold AppotechBtInfo.save_output_mod. rewrite Hb. cbn [bind].
    now rewrite slice_to_firstn, slice_from_skipn by lia. }
  exists (pre ++ blob ++ post), (sum body).
  split; [exact Hout|].
  assert (Hlen : len (pre ++ blob ++ post) = len input).
  { unfold len. rewrite !length_app, Hpre, Hblob. subst post.
    rewrite length_skipn. unfold len in *. lia. }
  split; [exact Hlen|].
  split; [now apply firstn_app_exact|].
  split.
  { rewrite app_assoc. rewrite skipn_app.
    rewrite skipn_all2 by (rewrite length_app; lia).
    rewrite length_app, Hpre, Hblob.
    replace (Z.to_nat (s + 64) - (Z.to_nat s + 64))%nat with 0%nat by lia.
    reflexivity. }
  (* the record is found again at [s] *)
  assert (Hmagic : exists b', blob = BtInfo.MAGIC ++ b').
  { exists (skipn 5 blob). apply startswith_firstn in Hbm.
    change (length BtInfo.MAGIC) with 5%nat in Hbm.
    rewrite <- (firstn_skipn 5 blob) at 1. f_equal. subst blob.
    rewrite firstn_app.
    replace (5 - length body)%nat with 0%nat by lia.
    cbn [firstn]. now rewrite app_nil_r. }
  destruct Hmagic as [b' Hblob'].
  assert (Hold : exists o', skipn (Z.to_nat s) input = BtInfo.MAGIC ++ o').
  { exists (skipn 5 (skipn (Z.to_nat s) input)).
    apply startswith_firstn in Hstart.
    change (length BtInfo.MAGIC) with 5%nat in Hstart.
    now rewrite <- Hstart at 1; rewrite firstn_skipn. }
  destruct Hold as [o' Hold].
  assert (Hinput : input = pre ++ BtInfo.MAGIC ++ o').
  { rewrite <- Hold. subst pre. symmetry. apply firstn_skipn. }
  assert (Hidx : index (pre ++ blob ++ post) BtInfo.MAGIC = ret s).
  { apply BtInfoToolFacts.index_least; [assumption| |].
    - apply occurrences_In. rewrite Z.sub_0_r.
      split; [lia|].
      rewrite skipn_app_exact by assumption.
      rewrite Hblob', <- app_assoc. apply startswith_app.
    - intros q Hq. destruct (Z.le_gt_cases s q) as [|Hlt]; [assumption|].
      apply occurrences_In in Hq.
      destruct Hq as [[Hq0 _] Hq]. rewrite Z.sub_0_r in Hq.
      apply Hmin. apply occurrences_In.
      rewrite Z.sub_0_r. split; [lia|].
      rewrite Hinput.
      rewrite (BtInfoToolFacts.occurrence_before _ _ _ (b' ++ post)) by lia.
      rewrite Hblob', <- app_assoc in Hq. exact Hq. }
  unfold AppotechBtInfo.load_input. rewrite Hidx.
  unfold ret at 1. cbv beta iota zeta.
  change BtInfo.SIZE with 64. rewrite Hlen.
  destruct (Z.gtb_spec (s + 64) (len input)); [lia|].
  assert (Hslice : slice (pre ++ blob ++ post) s (s + 64) = blob).
  { rewrite slice_in_range by lia.
    rewrite skipn_app_exact by assumption.
    replace (Z.to_nat (s + 64 - s)) with 64%nat by lia.
    now apply firstn_app_exact. }
  rewrite Hslice. subst blob. rewrite Hload. reflexivity.
Qed.

Lemma btinfo_inject_then_reload_witness :
  let input := [170] ++ BtInfo.MAGIC ++ repeat 0 57 ++ [115; 1] ++ [187] in
  let r := BtInfo.mk 3 10 20 30 [72; 233] [1; 2; 3; 4; 5; 6] 0 in
  exists out cksum,
    AppotechBtInfo.save_output_mod input 1 65 r = ret out
    /\ len out = len input
    /\ AppotechBtInfo.load_input out
       = ([], ret (1, 65, BtInfo.mk 3 10 20 30 [72; 233] [1; 2; 3; 4; 5; 6]
                            cksum)).
Proof.
  intros input r.
  destruct (btinfo_inject_then_reload input 1 65
              (BtInfo.mk 0 0 0 0 [] [0; 0; 0; 0; 0; 0] 371) r [])
    as (out & cksum & H1 & H2 & _ & _ & H5).
  - vm_compute. reflexivity.
  - unfold BtInfo.valid, is_byte, Utf8.is_text, Utf8.is_scalar, is_bytes.
    cbn [r BtInfo.flags BtInfo.mic_unmute_thresh BtInfo.mic_mute_thresh
         BtInfo.mic_mute_duration BtInfo.bt_name BtInfo.bt_mac].
    repeat match goal with |- _ /\ _ => split end.
    all: try (unfold len; cbn; lia).
    all: try (repeat (apply Forall_cons; [unfold is_byte; lia|]);
              apply Forall_nil).
    intros bs H. vm_compute in H. injection H as <-. vm_compute.
    discriminate.
  - exists out, cksum. repeat split; assumption.
Defined.

Module AssignFacts.
Import AppotechBtInfo.

Lemma hex_digit_range c d : hex_digit c = Some d -> 0 <= d <= 15.
Proof.
  unfold hex_digit, is_digit.
  repeat match goal with
  | |- context [?a <=? ?b] => destruct (Z.leb_spec a b)
  end; cbn [andb]; intros Hd; inversion Hd; lia.
Qed.

Lemma fromhex_is_bytes_upto n :
  forall s bs, (length s <= n)%nat -> fromhex s = ret bs -> is_bytes bs.
Proof.
  induction n as [|n IH]; intros s bs Hlen.
  - destruct s; [|cbn in Hlen; lia]. cbn [fromhex].
    intros H. injection H as <-. constructor.
  - destruct s as [|c tl]; cbn [fromhex].
    + intros H. injection H as <-. constructor.
    + cbn [length] in Hlen. destruct (is_space c).
      * apply IH. lia.
      * destruct (hex_digit c) as [hi|] eqn:Eh; [|discriminate].
        destruct tl as [|d tl']; [discriminate|].
        destruct (hex_digit d) as [lo|] eqn:El; [|discriminate].
        destruct (fromhex tl') as [e|rest] eqn:Er; cbn [bind ret];
          [discriminate|].
        intros H. injection H as <-.
        apply hex_digit_range in Eh. apply hex_digit_range in El.
        constructor; [unfold is_byte; destruct hi; lia|].
        apply (IH tl'); [cbn [length] in Hlen; lia | assumption].
Qed.

Lemma fromhex_is_bytes s bs : fromhex s = ret bs -> is_bytes bs.
Proof. now apply (fromhex_is_bytes_upto (length s)). Qed.

Lemma in_irange a x :
  0 <= a -> in_range (Some (irange a)) x = true -> 0 <= x <= a.
Proof.
  intros Ha. unfold in_range, irange, range_bool, range_contains.
  cbn [start stop step].
  destruct (Z.ltb_spec 0 (a + 1)); [|lia]. cbn [negb orb].
  destruct (Z.leb_spec 0 x), (Z.ltb_spec x (a + 1)); cbn [andb];
    try discriminate. lia.
Qed.

Lemma in_irange2 a x :
  in_range (Some (irange2 a a)) x = true -> x = a.
Proof.
  unfold in_range, irange2, range_bool, range_contains.
  cbn [start stop step].
  destruct (Z.ltb_spec a (a + 1)); [|lia]. cbn [negb orb].
  destruct (Z.leb_spec a x), (Z.ltb_spec x (a + 1)); cbn [andb];
    try discriminate. lia.
Qed.

(** One assignment keeps the constraints. *)
Lemma assign_value_constrained r field value r' :
  assign_value r field value = ret r' -> constrained r -> constrained r'.
Proof.
  unfold assign_value, constrained.
  destruct r as [f u m d n a c].
  cbn [BtInfo.flags BtInfo.mic_unmute_thresh BtInfo.mic_mute_thresh
       BtInfo.mic_mute_duration BtInfo.bt_name BtInfo.bt_mac].
  intros H (Hf & Hu & Hm & Hd & Hn & Ha & Hab).
  repeat match type of H with
  | (if ?b then _ else _) = _ => destruct b
  end; try discriminate H.
  all: unfold set_variable in H;
    match type of H with
    | context [type_hints ?name] =>
      let t := eval vm_compute in (type_hints (A := BtInfo.t) name) in
      change (type_hints (A := BtInfo.t) name) with t in H
    end; cbv iota in H.
  1-4: destruct (int value) as [e|v]; cbn [bind] in H; [discriminate|];
    destruct (in_range (Some (irange 255)) v) eqn:Er; cbn [negb] in H;
    [|discriminate]; apply in_irange in Er; [|lia];
    injection H as <-; vm_compute setattr;
    cbn [BtInfo.flags BtInfo.mic_unmute_thresh BtInfo.mic_mute_thresh
         BtInfo.mic_mute_duration BtInfo.bt_name BtInfo.bt_mac];
    unfold is_byte; repeat split; try assumption; try lia;
    try apply Hf; try apply Hu; try apply Hm; try apply Hd.
  - destruct (in_range (Some (irange 32)) (len value)) eqn:Er; cbn [negb] in H;
      [|discriminate]. apply in_irange in Er; [|lia].
    injection H as <-. cbn.
    repeat match goal with |- _ /\ _ => split end; assumption || lia.
  - destruct (fromhex _) as [e|bs] eqn:Eh; cbn [bind] in H; [discriminate|].
    destruct (in_range (Some (irange2 6 6)) (len bs)) eqn:Er; cbn [negb] in H;
      [|discriminate]. apply in_irange2 in Er.
    apply fromhex_is_bytes in Eh.
    injection H as <-. cbn.
    repeat match goal with |- _ /\ _ => split end; assumption.
Qed.

Lemma assign_pairs_constrained pairs :
  forall r r', assign_pairs r pairs = ret r' ->
               constrained r -> constrained r'.
Proof.
  induction pairs as [|p tl IH]; intros r r'; cbn [assign_pairs].
  - intros H. now injection H as <-.
  - destruct p as [|field [|value [|x p']]]; try discriminate.
    destruct (assign_value r field value) as [e|r1] eqn:E; cbn [bind];
      [discriminate|].
    intros H Hc. apply (IH r1 r' H).
    now apply (assign_value_constrained r field value).
Qed.

End AssignFacts.

(** Field assignment keeps a record within its constraints: if the
    numeric fields fit a byte, the name has at most 32 characters and the
    MAC is 6 bytes before [assign_values], the same holds for the record
    it returns, whatever pairs were assigned. *)
Theorem btinfo_assign_values_keeps_constraints :
  forall (r r' : BtInfo.t) (args : list str),
    AppotechBtInfo.assign_values r args = ret r' ->
    AppotechBtInfo.constrained r -> AppotechBtInfo.constrained r'.
Proof.
  intros r r' args. unfold AppotechBtInfo.assign_values.
  destruct (negb _); [discriminate|].
  apply AssignFacts.assign_pairs_constrained.
Qed.

Lemma btinfo_assign_values_keeps_constraints_witness :
  AppotechBtInfo.constrained
    (BtInfo.mk 3 0 0 0 [] [170; 187; 204; 221; 238; 255] 0).
Proof.
  apply (btinfo_assign_values_keeps_constraints BtInfo.default _
           [str_of "flags"; str_of "3";
            str_of "bt_mac"; str_of "AA:BB:CC:DD:EE:FF"]).
  - vm_compute. reflexivity.
  - unfold AppotechBtInfo.constrained, is_byte, is_bytes.
    cbn [BtInfo.default BtInfo.flags BtInfo.mic_unmute_thresh
         BtInfo.mic_mute_thresh BtInfo.mic_mute_duration BtInfo.bt_name
         BtInfo.bt_mac].
    repeat match goal with |- _ /\ _ => split end.
    all: try (unfold len; cbn; lia).
    repeat (apply Forall_cons; [unfold is_byte; lia|]). apply Forall_nil.
Defined.

(** ** [src/obj/sfx.py]: entries *)

Module SfxEntryFacts.
Import Sfx.

Lemma slice_from_neg {A} (l : list A) k :
  0 < k -> slice_from l (- k) = skipn (Z.to_nat (len l - k)) l.
Proof.
  intros Hk. unfold slice_from, slice. pose proof (len_nonneg l) as Hl.
  rewrite (clamp_index_nonneg (len l) (len l)), Z.min_id by lia.
  unfold clamp_index. destruct (Z.ltb_spec (- k) 0); [|lia].
  replace (Z.to_nat (Z.max 0 (len l + - k))) with (Z.to_nat (len l - k))
    by lia.
  apply firstn_all2. rewrite length_skipn. unfold len in *. lia.
Qed.

Lemma slice_to_neg {A} (l : list A) k :
  0 < k -> slice_to l (- k) = firstn (Z.to_nat (len l - k)) l.
Proof.
  intros Hk. unfold slice_to, slice. pose proof (len_nonneg l) as Hl.
  rewrite (clamp_index_nonneg (len l) 0), (Z.min_l 0) by lia.
  cbn [Z.to_nat skipn].
  unfold clamp_index. destruct (Z.ltb_spec (- k) 0); [|lia].
  f_equal. lia.
Qed.

Lemma bytes_eqb_eq a b : bytes_eqb a b = true <-> a = b.
Proof.
  unfold bytes_eqb. destruct (list_eq_dec Z.eq_dec a b); split;
    congruence.
Qed.

(** A WAV body that ends in a well-formed trailer. *)
Lemma wav_import_trailer e contents tr :
  fmt e = WAV -> List.length tr = 256%nat -> firstn 4 tr = TRAILER_MAGIC ->
  import_from_blob e (contents ++ tr)
  = ([], ret (mkEntry WAV (offset e) (size e) (samplerate e) contents tr
                (nth 4 tr 0) (nth 5 tr 0))).
Proof.
  intros Hf Hl Hm. unfold import_from_blob. rewrite Hf.
  change (- WAV_TRAILER_SIZE) with (- (256)).
  rewrite slice_from_neg, slice_to_neg by lia.
  assert (Hlen : Z.to_nat (len (contents ++ tr) - 256) = List.length contents).
  { unfold len. rewrite length_app, Hl. lia. }
  rewrite Hlen, skipn_app_exact, firstn_app_exact by reflexivity.
  rewrite slice_to_firstn by lia. change (Z.to_nat 4) with 4%nat.
  rewrite Hm.
  replace (bytes_eqb TRAILER_MAGIC TRAILER_MAGIC) with true
    by (symmetry; now apply bytes_eqb_eq).
  cbn [negb]. unfold len. rewrite Hl. reflexivity.
Qed.

End SfxEntryFacts.

(** [WavSfxEntry.import_from_blob] on any body.  A body made of sample
    bytes followed by 256 bytes that begin with [WAV\0] is split back
    into the samples and the trailer, whose bytes 4 and 5 become the
    trailer sample rate and resolution.  When the first four of the last
    256 bytes (of all bytes, for a shorter body) are not the magic, the
    body is kept whole as [contents] with a warning and no trailer field
    is touched.  A body shorter than 256 bytes that begins with the magic
    is the truncation error. *)
Theorem wav_import_from_blob_cases :
  forall (e : Sfx.entry) (data : bytes),
    Sfx.fmt e = Sfx.WAV ->
    (forall contents tr,
        data = contents ++ tr -> len tr = 256 ->
        firstn 4 tr = Sfx.TRAILER_MAGIC ->
        Sfx.import_from_blob e data
        = ([], ret (Sfx.mkEntry Sfx.WAV (Sfx.offset e) (Sfx.size e)
                      (Sfx.samplerate e) contents tr
                      (nth 4 tr 0) (nth 5 tr 0))))
    /\ (firstn 4 (skipn (Z.to_nat (len data - 256)) data)
          <> Sfx.TRAILER_MAGIC ->
        Sfx.import_from_blob e data
        = ([(WARNING, WavTrailerNotFound
                        (firstn 4 (skipn (Z.to_nat (len data - 256)) data)))],
           ret (Sfx.set_contents e data)))
    /\ (len data < 256 -> firstn 4 data = Sfx.TRAILER_MAGIC ->
        Sfx.import_from_blob e data
        = ([], raise (AppotechTruncatedError 256 (len data)))).
Proof.
  intros e data Hf. split; [|split].
  - intros contents tr -> Hl Hm.
    apply SfxEntryFacts.wav_import_trailer; try assumption.
    unfold len in Hl. lia.
  - intros Hne. unfold Sfx.import_from_blob. rewrite Hf.
    change (- Sfx.WAV_TRAILER_SIZE) with (- (256)).
    rewrite SfxEntryFacts.slice_from_neg by lia.
    rewrite slice_to_firstn by lia. change (Z.to_nat 4) with 4%nat.
    destruct (bytes_eqb _ Sfx.TRAILER_MAGIC) eqn:E; [|reflexivity].
    apply SfxEntryFacts.bytes_eqb_eq in E. contradiction.
  - intros Hshort Hm. unfold Sfx.import_from_blob. rewrite Hf.
    change (- Sfx.WAV_TRAILER_SIZE) with (- (256)).
    rewrite SfxEntryFacts.slice_from_neg by lia.
    replace (Z.to_nat (len data - 256)) with 0%nat by lia. cbn [skipn].
    rewrite slice_to_firstn by lia. change (Z.to_nat 4) with 4%nat.
    rewrite Hm.
    replace (bytes_eqb Sfx.TRAILER_MAGIC Sfx.TRAILER_MAGIC) with true
      by (symmetry; now apply SfxEntryFacts.bytes_eqb_eq).
    cbn [negb]. change Sfx.WAV_TRAILER_SIZE with 256.
    destruct (Z.eqb_spec (len data) 256); [lia | reflexivity].
Qed.

Lemma wav_import_from_blob_cases_witness :
  Sfx.import_from_blob (Sfx.new_entry Sfx.WAV 0x800 0 8000) [87; 65; 86; 0; 8]
  = ([], raise (AppotechTruncatedError 256 5)).
Proof.
  apply (proj2 (proj2 (wav_import_from_blob_cases
                         (Sfx.new_entry Sfx.WAV 0x800 0 8000)
                         [87; 65; 86; 0; 8] eq_refl))).
  - unfold len; cbn; lia.
  - reflexivity.
Defined.

(** [Mp3SfxEntry.import_from_file] always succeeds: the entry gets the
    given offset and sample rate 0, its contents are the file followed by
    fewer than 256 zero bytes, and [size] counts the 256-byte chunks
    exactly, so that the span of an MP3 entry equals the number of stored
    bytes. *)
Theorem mp3_import_from_file_span :
  forall (e : Sfx.entry) (offset : Z) (data : bytes),
    Sfx.fmt e = Sfx.MP3 ->
    exists (e' : Sfx.entry) (k : nat),
      Sfx.import_from_file_mp3 e offset data = ret e'
      /\ Sfx.fmt e' = Sfx.MP3 /\ Sfx.offset e' = offset
      /\ Sfx.samplerate e' = 0
      /\ Sfx.contents e' = data ++ repeat 0 k /\ (k < 256)%nat
      /\ len (Sfx.contents e') = Sfx.size e' * 256
      /\ Sfx.total_size_in_bytes e' = len (Sfx.contents e').
Proof.
  intros e offset data Hf.
  destruct (align_bytes_shape data Sfx.CHUNK_SIZE 0 ltac:(reflexivity))
    as (k & Ha & Hk & Hmod & _).
  change (Z.land 0 255) with 0 in Ha. change Sfx.CHUNK_SIZE with 256 in *.
  unfold Sfx.import_from_file_mp3. change Sfx.CHUNK_SIZE with 256.
  rewrite Ha. cbn [bind ret].
  eexists. exists k. split; [reflexivity|].
  cbn [Sfx.fmt Sfx.offset Sfx.samplerate Sfx.contents Sfx.size].
  assert (Hl : len (data ++ repeat 0 k) = len data + Z.of_nat k)
    by now rewrite len_app, len_repeat.
  assert (Hs : len (data ++ repeat 0 k)
               = len (data ++ repeat 0 k) / 256 * 256).
  { rewrite Hl. pose proof (Z.div_mod (len data + Z.of_nat k) 256 ltac:(lia)).
    lia. }
  repeat split; try assumption; try lia.
  unfold Sfx.total_size_in_bytes. cbn [Sfx.fmt Sfx.size]. rewrite Hf.
  change Sfx.CHUNK_SIZE with 256. lia.
Qed.

Lemma mp3_import_from_file_span_witness :
  exists e', Sfx.import_from_file_mp3 (Sfx.new_entry Sfx.MP3 0 0 0) 0x800 []
             = ret e'
             /\ Sfx.total_size_in_bytes e' = len (Sfx.contents e').
Proof.
  destruct (mp3_import_from_file_span (Sfx.new_entry Sfx.MP3 0 0 0) 0x800 []
              eq_refl) as (e' & k & H1 & _ & _ & _ & _ & _ & _ & H8).
  exists e'. split; assumption.
Defined.

(** ** [src/obj/sfx.py]: the blob *)

Module SfxBlobFacts.
Import Sfx SfxBlob.

Lemma set_slice_mid (A X C Y : bytes) a b :
  a = len A -> b = len A + len X ->
  set_slice (A ++ X ++ C) a b Y = A ++ Y ++ C.
Proof.
  intros -> ->. unfold set_slice.
  pose proof (len_nonneg A). pose proof (len_nonneg X).
  pose proof (len_nonneg C).
  rewrite !clamp_index_nonneg by lia. rewrite !len_app.
  rewrite (Z.min_l (len A)), (Z.min_l (len A + len X)) by lia.
  rewrite Z.max_r by lia.
  rewrite firstn_app_exact by (unfold len; lia).
  rewrite (app_assoc A X C).
  rewrite skipn_app_exact by (rewrite length_app; unfold len; lia).
  reflexivity.
Qed.

Lemma slice_mid (A X C : bytes) a b :
  a = len A -> b = len A + len X -> slice (A ++ X ++ C) a b = X.
Proof.
  intros -> ->.
  pose proof (len_nonneg A). pose proof (len_nonneg X).
  pose proof (len_nonneg C).
  rewrite slice_in_range by (rewrite ?len_app; lia).
  rewrite skipn_app_exact by (unfold len; lia).
  apply firstn_app_exact. unfold len. lia.
Qed.

Lemma total_nonneg e : entry_ok e -> 0 <= Sfx.total_size_in_bytes e.
Proof.
  intros (Hs & _). unfold Sfx.total_size_in_bytes, CHUNK_SIZE,
    WAV_TRAILER_SIZE. destruct (fmt e); lia.
Qed.

Lemma sfx_body_length e : entry_ok e -> len (body e) = Sfx.total_size_in_bytes e.
Proof.
  intros (Hs & Hc & Hk). unfold body, Sfx.total_size_in_bytes.
  destruct (fmt e); [assumption|].
  destruct Hk as (_ & Ht & _). now rewrite len_app, Hc, Ht.
Qed.

Lemma descriptor_length e : len (descriptor e) = 8.
Proof. reflexivity. Qed.

Lemma export_ok e :
  entry_ok e -> 0 <= offset e <= 0xFFFFFFFF ->
  export_to_blob e = ret (descriptor e, body e).
Proof.
  intros (Hs & Hc & Hk) Ho. unfold export_to_blob, pack_I, pack_H.
  assert (Hr : 0 <= samplerate e <= 0xFFFF)
    by (destruct (fmt e); [destruct Hk as [-> _] | destruct Hk]; lia).
  settle_tests. reflexivity.
Qed.

Lemma unpack_descriptor_ok e :
  entry_ok e -> 0 <= offset e <= 0xFFFFFFFF ->
  unpack_descriptor (descriptor e) = ret (offset e, size e, samplerate e).
Proof.
  intros (Hs & Hc & Hk) Ho.
  assert (Hr : 0 <= samplerate e <= 0xFFFF)
    by (destruct (fmt e); [destruct Hk as [-> _] | destruct Hk]; lia).
  unfold descriptor, unpack_descriptor. cbn [app]. unfold unpack_I, unpack_H.
  repeat f_equal; arith.
Qed.

Lemma payload_nonneg es off : laid_out es off -> 0 <= payload es.
Proof.
  revert off. induction es as [|e es IH]; intros off; cbn; [lia|].
  intros (_ & He & Hl). apply total_nonneg in He. apply IH in Hl.
  unfold payload in Hl. lia.
Qed.

(** The buffer after the writes of [__bytes__]: the descriptors, the rest
    of the table, the bodies. *)
Lemma write_entries_layout es :
  forall (H B : bytes) (pad : nat),
    laid_out es (len H + 8 * len es + Z.of_nat pad + len B) ->
    len H + 8 * len es + Z.of_nat pad + len B + payload es <= 0xFFFFFFFF ->
    write_entries es (len H)
      (H ++ repeat 0 (8 * length es + pad) ++ B
       ++ repeat 0 (Z.to_nat (payload es)))
    = ret (H ++ flat_map descriptor es ++ repeat 0 pad ++ B
           ++ flat_map body es).
Proof.
  induction es as [|e es IH]; intros H B pad Hlay Hmax.
  - cbn [write_entries length flat_map app payload map fold_right Z.to_nat
         repeat Nat.mul Nat.add]. now rewrite app_nil_r.
  - cbn [laid_out] in Hlay. destruct Hlay as (Hoff & He & Hlay).
    pose proof (len_nonneg H). pose proof (len_nonneg B).
    pose proof (len_nonneg es). pose proof (total_nonneg e He) as Ht.
    pose proof (payload_nonneg es _ Hlay) as Hp.
    assert (Hlen : len (e :: es) = len es + 1)
      by (unfold len; cbn [length]; lia).
    rewrite Hlen in *.
    assert (Hpay : payload (e :: es) = Sfx.total_size_in_bytes e + payload es)
      by reflexivity.
    rewrite Hpay in *.
    cbn [write_entries].
    rewrite export_ok by (assumption || lia).
    unfold bind; unfold ret at 1; cbv beta iota.
    rewrite descriptor_length.
    (* the descriptor *)
    replace (8 * length (e :: es) + pad)%nat
      with (8 + (8 * length es + pad))%nat by (cbn [length]; lia).
    rewrite (repeat_app 0 8), <- (app_assoc (repeat 0 8)).
    rewrite (set_slice_mid H (repeat 0 8) _ (descriptor e))
      by (reflexivity || (rewrite len_repeat; lia)).
    (* the body *)
    replace (Z.to_nat (Sfx.total_size_in_bytes e + payload es))
      with (Z.to_nat (Sfx.total_size_in_bytes e) + Z.to_nat (payload es))%nat
      by lia.
    rewrite (repeat_app 0 (Z.to_nat (Sfx.total_size_in_bytes e))).
    replace (H ++ descriptor e ++ repeat 0 (8 * length es + pad) ++ B
             ++ repeat 0 (Z.to_nat (Sfx.total_size_in_bytes e))
             ++ repeat 0 (Z.to_nat (payload es)))
      with ((H ++ descriptor e ++ repeat 0 (8 * length es + pad) ++ B)
            ++ repeat 0 (Z.to_nat (Sfx.total_size_in_bytes e))
            ++ repeat 0 (Z.to_nat (payload es)))
      by (now rewrite <- !app_assoc).
    rewrite (set_slice_mid _ (repeat 0 (Z.to_nat (Sfx.total_size_in_bytes e)))
               _ (body e)).
    2:{ rewrite !len_app, descriptor_length, len_repeat. unfold len in *.
        lia. }
    2:{ rewrite !len_app, descriptor_length, !len_repeat, sfx_body_length
          by assumption. unfold len in *. lia. }
    (* the rest *)
    replace ((H ++ descriptor e ++ repeat 0 (8 * length es + pad) ++ B)
             ++ body e ++ repeat 0 (Z.to_nat (payload es)))
      with ((H ++ descriptor e) ++ repeat 0 (8 * length es + pad)
            ++ (B ++ body e) ++ repeat 0 (Z.to_nat (payload es)))
      by (now rewrite <- !app_assoc).
    replace (len H + 8) with (len (H ++ descriptor e))
      by (rewrite len_app, descriptor_length; reflexivity).
    rewrite IH.
    + cbn [flat_map]. now rewrite <- !app_assoc.
    + rewrite !len_app, descriptor_length, sfx_body_length by assumption.
      replace (len H + 8 + 8 * len es + Z.of_nat pad
               + (len B + Sfx.total_size_in_bytes e))
        with (len H + 8 * (len es + 1) + Z.of_nat pad + len B
              + Sfx.total_size_in_bytes e) by lia.
      rewrite <- Hoff in Hlay |- *. exact Hlay.
    + rewrite !len_app, descriptor_length, sfx_body_length by assumption. lia.
Qed.


Lemma payload_total es : total_size_in_bytes es = HDR_SIZE + payload es.
Proof. reflexivity. Qed.

Lemma flat_map_descriptor_length es : len (flat_map descriptor es) = 8 * len es.
Proof.
  induction es as [|e es IH]; [reflexivity|].
  cbn [flat_map]. rewrite len_app, IH, descriptor_length.
  unfold len. cbn [length]. lia.
Qed.

Lemma flat_map_body_length es off :
  laid_out es off -> len (flat_map body es) = payload es.
Proof.
  revert off. induction es as [|e es IH]; intros off; [reflexivity|].
  intros (_ & He & Hl). cbn [flat_map]. rewrite len_app, sfx_body_length, (IH _ Hl)
    by assumption. reflexivity.
Qed.

(** What [__bytes__] returns for a well-formed blob: the descriptors, the
    unused rest of the table, the bodies. *)
Lemma to_bytes_layout es :
  well_formed es ->
  to_bytes es
  = ret (flat_map descriptor es
         ++ repeat 0 (Z.to_nat (HDR_SIZE - 8 * len es))
         ++ flat_map body es).
Proof.
  intros (Hn & Hl & Hmax). unfold to_bytes. rewrite payload_total in *.
  pose proof (payload_nonneg es _ Hl) as Hp. pose proof (len_nonneg es) as Hes.
  change MAX_ENTRIES with 256 in Hn. change HDR_SIZE with 2048 in *.
  pose proof (write_entries_layout es [] [] (Z.to_nat (2048 - 8 * len es)))
    as W.
  change (len (@nil Z)) with 0 in W. cbn [app] in W.
  replace (Z.to_nat (2048 + payload es))
    with ((8 * length es + Z.to_nat (2048 - 8 * len es))
          + Z.to_nat (payload es))%nat by (unfold len in *; lia).
  rewrite (repeat_app 0 (8 * length es + Z.to_nat (2048 - 8 * len es))).
  apply W.
  - replace (0 + 8 * len es + Z.of_nat (Z.to_nat (2048 - 8 * len es)) + 0)
      with 2048 by lia. exact Hl.
  - lia.
Qed.

(** The first loop of [load] on a table that holds the descriptors of
    [es] from slot [k] on and zeros after them. *)
Lemma read_header_run es :
  forall (P Bd : bytes) (k n pad : nat),
    len P = 8 * Z.of_nat k ->
    8 * Z.of_nat n = 8 * len es + Z.of_nat pad ->
    Forall (fun e => entry_ok e /\ 1 <= offset e <= 0xFFFFFFFF) es ->
    read_header (P ++ flat_map descriptor es ++ repeat 0 pad ++ Bd)
      (map (fun i => Z.of_nat i * ENTRY_SIZE) (seq k n))
    = (if (length es <? n)%nat
       then [(WARNING, StopReadingFirstEmptyEntry)] else [],
       ret (map blank es)).
Proof.
  induction es as [|e es IH]; intros P Bd k n pad HP Hn Hall.
  - change (len (@nil entry)) with 0 in Hn. cbn [flat_map app map length].
    destruct n as [|n]; [reflexivity|].
    cbn [seq map read_header]. change ENTRY_SIZE with 8.
    replace pad with (8 + (pad - 8))%nat by lia.
    rewrite (repeat_app 0 8), <- app_assoc.
    rewrite (slice_mid P (repeat 0 8)) by (rewrite ?len_repeat; lia).
    reflexivity.
  - assert (Hlen : len (e :: es) = len es + 1)
      by (unfold len; cbn [length]; lia).
    rewrite Hlen in Hn. pose proof (len_nonneg es) as Hes.
    destruct n as [|n]; [lia|].
    inversion Hall as [|? ? (He & Ho) Hall']; subst.
    cbn [seq map read_header flat_map]. change ENTRY_SIZE with 8.
    rewrite <- (app_assoc (descriptor e)).
    rewrite (slice_mid P (descriptor e))
      by (rewrite ?descriptor_length; lia).
    rewrite unpack_descriptor_ok by (assumption || lia).
    unfold ret at 1. cbv beta iota.
    replace (offset e =? 0) with false by (symmetry; apply Z.eqb_neq; lia).
    cbn [andb].
    replace (P ++ descriptor e ++ flat_map descriptor es ++ repeat 0 pad ++ Bd)
      with ((P ++ descriptor e) ++ flat_map descriptor es ++ repeat 0 pad
            ++ Bd) by (now rewrite <- app_assoc).
    pose proof (IH (P ++ descriptor e) Bd (S k) n pad) as R.
    change ENTRY_SIZE with 8 in R.
    rewrite R by (assumption || (rewrite ?len_app, ?descriptor_length; lia)).
    cbn [bind]. unfold ret at 1. cbn [length Nat.ltb Nat.leb].
    f_equal. f_equal. f_equal.
    destruct He as (_ & _ & Hk). unfold blank.
    destruct (fmt e).
    + destruct Hk as (-> & _). reflexivity.
    + destruct Hk as (Hr & _).
      replace (samplerate e =? 0) with false
        by (symmetry; apply Z.eqb_neq; lia).
      reflexivity.
Qed.

(** One entry: the body read back into the blank entry. *)
Lemma import_body e : entry_ok e -> import_from_blob (blank e) (body e) = ([], ret e).
Proof.
  intros (_ & _ & Hk). destruct e as [f o s r c t ts tr]. unfold body, blank.
  cbn [fmt offset size samplerate contents trailer tr_samplerate
       tr_resolution new_entry] in *.
  destruct f.
  - destruct Hk as (_ & -> & -> & ->). reflexivity.
  - destruct Hk as (_ & Ht & Hm & -> & ->).
    rewrite SfxEntryFacts.wav_import_trailer;
      [reflexivity | reflexivity | | assumption].
    unfold len in Ht. change WAV_TRAILER_SIZE with 256 in Ht. lia.
Qed.

(** The second loop of [load] on the bodies. *)
Lemma read_contents_run es :
  forall (A : bytes),
    laid_out es (len A) ->
    forall data C, data = A ++ flat_map body es ++ C ->
    read_contents data (map blank es) = ([], ret es).
Proof.
  induction es as [|e es IH]; intros A Hl data C Hd; [reflexivity|].
  destruct Hl as (Ho & He & Hl).
  pose proof (len_nonneg A) as HA. pose proof (total_nonneg e He) as Ht.
  pose proof (len_nonneg (flat_map body es ++ C)) as Hrest.
  cbn [map read_contents].
  change (Sfx.total_size_in_bytes (blank e)) with (Sfx.total_size_in_bytes e).
  change (offset (blank e)) with (offset e).
  assert (Hlen : len data = len A + Sfx.total_size_in_bytes e
                            + len (flat_map body es ++ C)).
  { subst data. cbn [flat_map]. rewrite <- app_assoc.
    rewrite !len_app, sfx_body_length by assumption. lia. }
  destruct (Z.ltb_spec (len data) (Sfx.total_size_in_bytes e)); [lia|].
  assert (Hs : slice data (offset e) (offset e + Sfx.total_size_in_bytes e)
               = body e).
  { subst data. cbn [flat_map]. rewrite <- app_assoc.
    apply slice_mid; rewrite ?sfx_body_length by assumption; lia. }
  rewrite Hs, import_body by assumption.
  rewrite (IH (A ++ body e) ) with (C := C).
  - reflexivity.
  - rewrite len_app, sfx_body_length by assumption. exact Hl.
  - subst data. cbn [flat_map]. now rewrite <- !app_assoc.
Qed.

Lemma laid_out_offsets es :
  forall off, 1 <= off -> laid_out es off -> off + payload es <= 0xFFFFFFFF ->
  Forall (fun e => entry_ok e /\ 1 <= offset e <= 0xFFFFFFFF) es.
Proof.
  induction es as [|e es IH]; intros off Hoff Hl Hmax; [constructor|].
  destruct Hl as (Ho & He & Hl).
  pose proof (total_nonneg e He) as Ht.
  pose proof (payload_nonneg es _ Hl) as Hp.
  change (payload (e :: es)) with (Sfx.total_size_in_bytes e + payload es)
    in Hmax.
  constructor.
  - split; [assumption | lia].
  - apply (IH (off + Sfx.total_size_in_bytes e)); [lia | assumption | lia].
Qed.

Lemma blob_roundtrip es :
  well_formed es ->
  exists bs,
    to_bytes es = ret bs
    /\ len bs = total_size_in_bytes es
    /\ load bs
       = (if len es <? MAX_ENTRIES
          then [(WARNING, StopReadingFirstEmptyEntry)] else [],
          ret es).
Proof.
  intros Hwf. pose proof Hwf as (Hn & Hl & Hmax).
  rewrite payload_total in Hmax.
  pose proof (payload_nonneg es _ Hl) as Hp. pose proof (len_nonneg es) as Hes.
  change MAX_ENTRIES with 256 in *. change HDR_SIZE with 2048 in *.
  eexists. split; [apply to_bytes_layout; assumption|].
  change HDR_SIZE with 2048.
  set (pad := Z.to_nat (2048 - 8 * len es)).
  assert (Hlen : len (flat_map descriptor es ++ repeat 0 pad
                      ++ flat_map body es) = 2048 + payload es).
  { rewrite !len_app, flat_map_descriptor_length, len_repeat,
      (flat_map_body_length es _ Hl). subst pad. lia. }
  split; [rewrite Hlen; apply payload_total|].
  unfold load. rewrite Hlen. change HDR_SIZE with 2048.
  destruct (Z.ltb_spec (2048 + payload es) 2048); [lia|].
  change header_slots
    with (map (fun i => Z.of_nat i * ENTRY_SIZE) (seq 0 256)).
  pose proof (read_header_run es [] (flat_map body es) 0 256 pad) as R.
  cbn [app] in R.
  rewrite R;
    [| reflexivity | subst pad; lia
     | apply (laid_out_offsets es 2048); [lia | assumption | lia]].
  unfold ret at 1.
  rewrite (read_contents_run es (flat_map descriptor es ++ repeat 0 pad))
    with (C := []).
  - rewrite app_nil_r. f_equal.
    destruct (Nat.ltb_spec (length es) 256), (Z.ltb_spec (len es) 256);
      unfold len in *; (reflexivity || lia).
  - rewrite len_app, flat_map_descriptor_length, len_repeat. subst pad.
    replace (8 * len es + Z.of_nat (Z.to_nat (2048 - 8 * len es)))
      with 2048 by lia. exact Hl.
  - now rewrite app_nil_r, <- app_assoc.
Qed.


(** A blob that holds an entry begins with the magic the locator looks
    for; an empty blob is the empty table. *)
Lemma magic_first es :
  well_formed es ->
  exists bs,
    to_bytes es = ret bs
    /\ (es <> [] -> firstn 4 bs = MAGIC)
    /\ (es = [] -> bs = repeat 0 (Z.to_nat HDR_SIZE)).
Proof.
  intros Hwf. eexists. split; [apply to_bytes_layout; assumption|].
  destruct Hwf as (_ & Hl & _). split.
  - destruct es as [|e es]; [congruence|]. intros _.
    destruct Hl as (Ho & _). cbn [flat_map]. unfold descriptor.
    rewrite Ho. reflexivity.
  - intros ->. cbn [flat_map app]. now rewrite app_nil_r.
Qed.

(** What [import_from_blob] leaves alone. *)
Lemma import_keeps_descriptor e d lg r :
  import_from_blob e d = (lg, r) ->
  (exists n m, r = raise (AppotechTruncatedError n m))
  \/ (exists e', r = ret e' /\ fmt e' = fmt e /\ offset e' = offset e
                 /\ size e' = size e /\ samplerate e' = samplerate e).
Proof.
  unfold import_from_blob. destruct (fmt e) eqn:Hf.
  - intros [= <- <-]. right. eexists. now repeat split.
  - destruct (negb _).
    + intros [= <- <-]. right. eexists. now repeat split.
    + destruct (negb _).
      * intros [= <- <-]. left. now eexists _, _.
      * intros [= <- <-]. right. eexists. now repeat split.
Qed.

Lemma slice_length_8 (data : bytes) off :
  0 <= off -> off + 8 <= len data -> length (slice data off (off + 8)) = 8%nat.
Proof.
  intros H0 H1. rewrite slice_in_range by lia.
  rewrite length_firstn, length_skipn. unfold len in H1. lia.
Qed.

Lemma read_header_total data slots :
  Forall (fun off => 0 <= off /\ off + ENTRY_SIZE <= len data) slots ->
  exists lg es,
    read_header data slots = (lg, ret es)
    /\ (length es <= length slots)%nat
    /\ Forall listed es
    /\ Forall (fun e => contents e = []) es.
Proof.
  induction slots as [|off slots IH]; intros Hs.
  - exists [], []. now repeat split.
  - inversion Hs as [|? ? (H0 & H1) Hs']; subst.
    destruct (IH Hs') as (lg & es & Hr & Hn & Hl & Hc).
    cbn [read_header]. change ENTRY_SIZE with 8 in *.
    pose proof (slice_length_8 data off H0 H1) as H8.
    remember (slice data off (off + 8)) as d eqn:Hd. clear Hd.
    explode d H8. cbn [unpack_descriptor]. unfold ret at 1. cbv beta iota.
    set (o := unpack_I _ _ _ _). set (sz := unpack_H z3 z4).
    set (sr := unpack_H z5 z6).
    destruct ((o =? 0) && (sz =? 0) && (sr =? 0)) eqn:Hz.
    + exists [(WARNING, StopReadingFirstEmptyEntry)], [].
      repeat split; try constructor. cbn [length]. lia.
    + rewrite Hr. cbn [bind]. unfold ret at 1.
      eexists lg, (_ :: es). split; [reflexivity|].
      assert (Hnz : ~ (o = 0 /\ sz = 0 /\ sr = 0)).
      { intros (-> & -> & ->). discriminate Hz. }
      repeat split.
      * cbn [length]. lia.
      * constructor; [|assumption].
        destruct (Z.eqb_spec sr 0) as [E|E]; (split; [split|exact Hnz]);
          cbn; intros; congruence.
      * constructor; [|assumption]. now destruct (sr =? 0).
Qed.

Lemma read_contents_outcomes data es :
  Forall listed es ->
  exists lg,
    (exists n m, read_contents data es = (lg, raise (AppotechTruncatedError n m)))
    \/ (exists es', read_contents data es = (lg, ret es')
                    /\ length es' = length es /\ Forall listed es').
Proof.
  induction es as [|e es IH]; intros Hl.
  - exists []. right. exists []. now repeat split.
  - inversion Hl as [|? ? He Hl']; subst. cbn [read_contents].
    destruct (len data <? Sfx.total_size_in_bytes e).
    { exists []. left. now eexists _, _. }
    destruct (import_from_blob e _) as [lg r] eqn:Hi.
    apply import_keeps_descriptor in Hi.
    destruct Hi as [(n & m & ->) | (e' & -> & Hf & Ho & Hs & Hr)].
    { exists lg. left. now eexists _, _. }
    destruct (IH Hl') as (lg' & [(n & m & ->) | (es' & -> & Hn & Hl'')]).
    { exists (lg ++ lg'). left. now eexists _, _. }
    exists (lg ++ lg'). right. exists (e' :: es'). repeat split.
    + cbn [length]. now rewrite Hn.
    + constructor; [|assumption]. unfold listed in *.
      now rewrite Hf, Ho, Hs, Hr.
Qed.

Lemma header_slots_in_range (data : bytes) :
  HDR_SIZE <= len data ->
  Forall (fun off => 0 <= off /\ off + ENTRY_SIZE <= len data) header_slots.
Proof.
  intros H. unfold header_slots. apply Forall_forall. intros off Hin.
  apply in_map_iff in Hin. destruct Hin as (i & <- & Hin).
  apply in_seq in Hin. change (Z.to_nat MAX_ENTRIES) with 256%nat in Hin.
  change ENTRY_SIZE with 8. change HDR_SIZE with 2048 in H. lia.
Qed.

Lemma load_outcomes data :
  (len data < HDR_SIZE ->
   load data = ([], raise (AppotechTruncatedError HDR_SIZE (len data))))
  /\ (HDR_SIZE <= len data ->
      exists lg,
        (exists n m, load data = (lg, raise (AppotechTruncatedError n m)))
        \/ (exists es, load data = (lg, ret es)
                       /\ len es <= MAX_ENTRIES /\ Forall listed es)).
Proof.
  split; intros H.
  - unfold load. destruct (Z.ltb_spec (len data) HDR_SIZE); [reflexivity | lia].
  - destruct (read_header_total data header_slots
                (header_slots_in_range data H))
      as (lg & es & Hr & Hn & Hl & _).
    assert (E : load data = (lg ++ fst (read_contents data es),
                             snd (read_contents data es))).
    { unfold load. destruct (Z.ltb_spec (len data) HDR_SIZE); [lia|].
      rewrite Hr. unfold ret. now destruct (read_contents data es). }
    rewrite E.
    destruct (read_contents_outcomes data es Hl)
      as (lg' & [(n & m & ->) | (es' & -> & Hn' & Hl')]); cbn [fst snd].
    + exists (lg ++ lg'). left. now eexists _, _.
    + exists (lg ++ lg'). right. exists es'.
      split; [reflexivity|]. split; [|assumption].
      unfold len. rewrite Hn'.
      change (length header_slots) with 256%nat in Hn.
      change MAX_ENTRIES with 256. lia.
Qed.

End SfxBlobFacts.

(** X20.  Round trip of the SFX blob.  For entries laid out one after the
    other from 0x800 on, at most 256 of them, each with [size] chunks of
    contents (a WAV entry also with its 256-byte trailer that begins with
    the magic), [__bytes__] succeeds, returns [total_size_in_bytes()]
    bytes, and [load] reads the same entries back; it logs the
    empty-descriptor warning exactly when the table is not full. *)
Theorem sfx_blob_roundtrip :
  forall es : list Sfx.entry,
    SfxBlob.well_formed es ->
    exists bs,
      SfxBlob.to_bytes es = ret bs
      /\ len bs = SfxBlob.total_size_in_bytes es
      /\ SfxBlob.load bs
         = (if len es <? SfxBlob.MAX_ENTRIES
            then [(WARNING, StopReadingFirstEmptyEntry)] else [],
            ret es).
Proof. exact SfxBlobFacts.blob_roundtrip. Qed.

Lemma sfx_blob_roundtrip_witness :
  let a := Sfx.mkEntry Sfx.MP3 0x800 1 0 (repeat 7 256) [] 0 0 in
  let b := Sfx.mkEntry Sfx.WAV 0x900 0 8000 []
             ([87; 65; 86; 0; 8; 16] ++ repeat 0 250) 8 16 in
  exists bs,
    SfxBlob.to_bytes [a; b] = ret bs
    /\ len bs = 0xA00
    /\ SfxBlob.load bs = ([(WARNING, StopReadingFirstEmptyEntry)], ret [a; b]).
Proof.
  intros a b. apply (sfx_blob_roundtrip [a; b]).
  unfold SfxBlob.well_formed. split; [vm_compute; intro; discriminate|].
  split; [|vm_compute; intro; discriminate].
  vm_compute.
  repeat match goal with |- _ /\ _ => split end;
    try reflexivity; try exact I; intro; discriminate.
Defined.

(** X21.  The blob of a non-empty well-formed list begins with the four
    bytes [00 08 00 00] that the locator of the tool searches for (the
    offset of the first entry); the blob of no entries is the empty table
    of 0x800 zero bytes. *)
Theorem sfx_blob_starts_with_magic :
  forall es : list Sfx.entry,
    SfxBlob.well_formed es ->
    exists bs,
      SfxBlob.to_bytes es = ret bs
      /\ (es <> [] -> firstn 4 bs = SfxBlob.MAGIC)
      /\ (es = [] -> bs = repeat 0 (Z.to_nat SfxBlob.HDR_SIZE)).
Proof. exact SfxBlobFacts.magic_first. Qed.

Lemma sfx_blob_starts_with_magic_witness :
  let a := Sfx.mkEntry Sfx.MP3 0x800 1 0 (repeat 7 256) [] 0 0 in
  exists bs, SfxBlob.to_bytes [a] = ret bs /\ firstn 4 bs = [0; 8; 0; 0].
Proof.
  intros a. destruct (sfx_blob_starts_with_magic [a]) as (bs & H1 & H2 & _).
  - unfold SfxBlob.well_formed. split; [vm_compute; intro; discriminate|].
    split; [|vm_compute; intro; discriminate].
    vm_compute.
    repeat match goal with |- _ /\ _ => split end;
      try reflexivity; try exact I; intro; discriminate.
  - exists bs. split; [assumption|]. apply H2. discriminate.
Defined.

(** X22.  The outcomes of [SfxBlob.load].  On fewer than 0x800 bytes it
    raises the truncation error (0x800 expected) and logs nothing.  On
    any longer input the header loop cannot fail, and [load] either
    raises a truncation error or returns at most 256 entries, none of
    them with an all-zero descriptor, an entry being MP3 exactly when its
    sample rate is 0. *)
Theorem sfx_load_outcomes :
  forall data : bytes,
    (len data < SfxBlob.HDR_SIZE ->
     SfxBlob.load data
     = ([], raise (AppotechTruncatedError SfxBlob.HDR_SIZE (len data))))
    /\ (SfxBlob.HDR_SIZE <= len data ->
        exists lg,
          (exists n m,
              SfxBlob.load data = (lg, raise (AppotechTruncatedError n m)))
          \/ (exists es,
                 SfxBlob.load data = (lg, ret es)
                 /\ len es <= SfxBlob.MAX_ENTRIES
                 /\ Forall SfxBlob.listed es)).
Proof. exact SfxBlobFacts.load_outcomes. Qed.

Lemma sfx_load_outcomes_witness :
  SfxBlob.load [0; 8; 0; 0]
  = ([], raise (AppotechTruncatedError 0x800 4)).
Proof.
  apply (proj1 (sfx_load_outcomes [0; 8; 0; 0])). reflexivity.
Defined.

(** ** The editing functions of [appotech-btpairing.py] *)

Module PairingEditFacts.
Import BtPairing AppotechBtPairing.

Lemma slice_shift {A} (p l : list A) a b :
  0 <= a -> 0 <= b ->
  slice (p ++ l) (len p + a) (len p + b) = slice l a b.
Proof.
  intros Ha Hb. unfold slice. pose proof (len_nonneg p) as Hp.
  pose proof (len_nonneg l) as Hl.
  rewrite !clamp_index_nonneg by lia. rewrite len_app.
  replace (Z.min (len p + a) (len p + len l)) with (len p + Z.min a (len l))
    by lia.
  replace (Z.min (len p + b) (len p + len l)) with (len p + Z.min b (len l))
    by lia.
  replace (len p + Z.min b (len l) - (len p + Z.min a (len l)))
    with (Z.min b (len l) - Z.min a (len l)) by lia.
  f_equal.
  replace (Z.to_nat (len p + Z.min a (len l)))
    with (List.length p + Z.to_nat (Z.min a (len l)))%nat by (unfold len; lia).
  rewrite skipn_app, skipn_all2 by lia.
  replace (List.length p + Z.to_nat (Z.min a (len l)) - List.length p)%nat
    with (Z.to_nat (Z.min a (len l))) by lia.
  reflexivity.
Qed.

Lemma split_in_chunks_app {A} (p l : list A) n :
  0 < n -> len p = n ->
  split_in_chunks (p ++ l) n = p :: split_in_chunks l n.
Proof.
  intros Hn Hp. unfold split_in_chunks. pose proof (len_nonneg l) as Hl.
  rewrite len_app, Hp.
  assert (Hc : ceil_div (n + len l) n = 1 + ceil_div (len l) n).
  { unfold ceil_div. replace (- (n + len l)) with (- len l + (-1) * n) by lia.
    rewrite Z.div_add by lia. lia. }
  assert (Hc0 : 0 <= ceil_div (len l) n).
  { unfold ceil_div.
    assert (- len l / n <= 0) by (apply Z.div_le_upper_bound; lia). lia. }
  rewrite Hc. replace (Z.to_nat (1 + ceil_div (len l) n))
    with (S (Z.to_nat (ceil_div (len l) n))) by lia.
  cbn [seq map]. f_equal.
  - change (Z.of_nat 0 * n) with 0. cbn [Z.add].
    unfold slice. rewrite !clamp_index_nonneg, len_app by lia.
    rewrite (Z.min_l 0), (Z.min_l n) by lia.
    cbn [Z.to_nat skipn]. rewrite Z.sub_0_r.
    replace (Z.to_nat n) with (List.length p) by (unfold len in Hp; lia).
    rewrite firstn_app, Nat.sub_diag, firstn_all. cbn [firstn].
    apply app_nil_r.
  - rewrite <- seq_shift, map_map. apply map_ext. intros k.
    replace (Z.of_nat (S k) * n) with (len p + Z.of_nat k * n) by lia.
    replace (len p + Z.of_nat k * n + n)
      with (len p + (Z.of_nat k * n + n)) by lia.
    apply slice_shift; nia.
Qed.

Lemma split_in_chunks_nil {A} n : split_in_chunks (@nil A) n = [].
Proof. unfold split_in_chunks. change (len (@nil A)) with 0.
  now rewrite ceil_div_0. Qed.

Lemma split_in_chunks_short {A} (l : list A) n :
  0 < len l < n -> split_in_chunks l n = [l].
Proof.
  intros H. unfold split_in_chunks. rewrite ceil_div_small by assumption.
  change (Z.to_nat 1) with 1%nat. cbn [seq map]. f_equal.
  change (Z.of_nat 0 * n) with 0. cbn [Z.add].
  unfold slice. rewrite !clamp_index_nonneg by lia.
  rewrite (Z.min_l 0), (Z.min_r n) by lia. cbn [Z.to_nat skipn].
  rewrite Z.sub_0_r. unfold len. rewrite Nat2Z.id. apply firstn_all.
Qed.

Lemma clear_values_step entries index field rest :
  clear_values entries (index :: field :: rest)
  = (entries' <- clear_value entries index field ;;
     clear_values entries' rest).
Proof.
  unfold clear_values.
  change (index :: field :: rest) with ([index; field] ++ rest).
  rewrite (split_in_chunks_app [index; field] rest 2) by reflexivity.
  reflexivity.
Qed.

Lemma clear_values_one entries index :
  clear_values entries [index] = raise ValueError.
Proof. reflexivity. Qed.

Lemma clear_values_odd args :
  forall entries, Z.odd (len args) = true ->
  exists e, clear_values entries args = raise e.
Proof.
  assert (H : forall n (args : list str), (List.length args <= n)%nat ->
            forall entries, Z.odd (len args) = true ->
            exists e, clear_values entries args = raise e).
  { induction n as [|n IH]; intros args0 Hn entries Hodd.
    - destruct args0; [discriminate Hodd | cbn in Hn; lia].
    - destruct args0 as [|index [|field rest]].
      + discriminate Hodd.
      + eexists. apply clear_values_one.
      + rewrite clear_values_step.
        destruct (clear_value entries index field) as [e|entries'].
        * now exists e.
        * cbn [bind]. apply IH; [cbn [List.length] in Hn; lia|].
          replace (len (index :: field :: rest)) with (2 + len rest) in Hodd
            by (unfold len; cbn [List.length]; lia).
          rewrite Z.odd_add in Hodd. exact Hodd. }
  intros entries. apply (H (List.length args)). lia.
Qed.

Lemma update_length {A} (l : list A) pos x :
  (pos < List.length l)%nat -> List.length (update l pos x) = List.length l.
Proof.
  intros H. unfold update. rewrite length_app. cbn [List.length].
  rewrite length_firstn, length_skipn. lia.
Qed.

Lemma update_nth_same {A} (l : list A) pos x d :
  (pos < List.length l)%nat -> nth pos (update l pos x) d = x.
Proof.
  intros H. unfold update. rewrite app_nth2; rewrite length_firstn; [|lia].
  replace (pos - Nat.min pos (List.length l))%nat with 0%nat by lia. reflexivity.
Qed.

Lemma update_nth_other {A} (l : list A) pos x d j :
  (pos < List.length l)%nat -> j <> pos -> nth j (update l pos x) d = nth j l d.
Proof.
  intros H Hj. unfold update.
  rewrite <- (firstn_skipn pos l) at 3.
  destruct (Nat.lt_ge_cases j pos) as [Hlt|Hge].
  - rewrite !app_nth1 by (rewrite length_firstn; lia). reflexivity.
  - rewrite !app_nth2 by (rewrite length_firstn; lia).
    rewrite length_firstn, Nat.min_l by lia.
    destruct (j - pos)%nat as [|k] eqn:E; [lia|]. cbn [nth].
    rewrite !nth_skipn. f_equal. lia.
Qed.

Lemma subscript_cases {A} (l : list A) idx :
  (idx < - len l \/ len l <= idx -> subscript l idx = raise IndexError)
  /\ (- len l <= idx < len l ->
      subscript l idx = ret (Z.to_nat (idx mod len l))
      /\ (Z.to_nat (idx mod len l) < List.length l)%nat).
Proof.
  pose proof (len_nonneg l) as Hl. unfold subscript. split.
  - intros H. destruct (Z.ltb_spec idx 0).
    + destruct (Z.ltb_spec (len l + idx) 0); cbn [orb]; [reflexivity|].
      destruct (Z.leb_spec (len l) (len l + idx)); [reflexivity|lia].
    + destruct (Z.ltb_spec idx 0); [lia|]. cbn [orb].
      destruct (Z.leb_spec (len l) idx); [reflexivity|lia].
  - intros H.
    assert (Hm : idx mod len l = if idx <? 0 then len l + idx else idx).
    { destruct (Z.ltb_spec idx 0).
      - symmetry. apply (Z.mod_unique _ _ (-1)); lia.
      - apply Z.mod_small. lia. }
    rewrite Hm. split.
    + destruct (Z.ltb_spec idx 0).
      * destruct (Z.ltb_spec (len l + idx) 0); [lia|]. cbn [orb].
        destruct (Z.leb_spec (len l) (len l + idx)); [lia|reflexivity].
      * destruct (Z.ltb_spec idx 0); [lia|]. cbn [orb].
        destruct (Z.leb_spec (len l) idx); [lia|reflexivity].
    + unfold len in *. destruct (Z.ltb_spec idx 0); lia.
Qed.


Lemma Forall_update {A} (P : A -> Prop) (l : list A) pos x :
  Forall P l -> P x -> Forall P (update l pos x).
Proof.
  intros Hl Hx. unfold update. revert pos.
  induction Hl as [|y l Hy Hl IH]; intros pos.
  - rewrite firstn_nil, skipn_nil. cbn [app]. now constructor.
  - destruct pos as [|pos]; cbn [firstn skipn app].
    + now constructor.
    + constructor; [assumption | apply IH].
Qed.

(** The index handling shared by the two loops. *)
Lemma entry_position (entries : list Entry.t) idx :
  (idx = len entries \/ idx < - len entries ->
   (idx >? len entries) = false
   /\ subscript entries idx = raise IndexError)
  /\ (- len entries <= idx < len entries ->
      (idx >? len entries) = false
      /\ subscript entries idx = ret (Z.to_nat (idx mod len entries))
      /\ (Z.to_nat (idx mod len entries) < List.length entries)%nat).
Proof.
  pose proof (len_nonneg entries) as Hl.
  destruct (subscript_cases entries idx) as [H1 H2]. split; intros H.
  - split; [rewrite Z.gtb_ltb; apply Z.ltb_ge; lia | apply H1; lia].
  - split; [rewrite Z.gtb_ltb; apply Z.ltb_ge; lia | now apply H2].
Qed.

Lemma clear_values_pair entries index field :
  clear_values entries [index; field] = clear_value entries index field.
Proof.
  rewrite clear_values_step. unfold clear_values.
  rewrite split_in_chunks_nil. cbn [clear_pairs].
  now destruct (clear_value entries index field).
Qed.

Lemma clear_index_handling (entries : list Entry.t) index field idx :
  int index = ret idx ->
  (len entries < idx ->
   clear_values entries [index; field] = raise (SystemExit 1))
  /\ (idx = len entries \/ idx < - len entries ->
      clear_values entries [index; field] = raise IndexError)
  /\ (- len entries <= idx < len entries ->
      (dummy_value field = None ->
       clear_values entries [index; field] = raise (SystemExit 1))
      /\ (forall name v, dummy_value field = Some (name, v) ->
          let pos := Z.to_nat (idx mod len entries) in
          exists entries',
            clear_values entries [index; field] = ret entries'
            /\ len entries' = len entries
            /\ nth pos entries' Entry.default
               = setattr (nth pos entries Entry.default) name v
            /\ forall j, j <> pos ->
                 nth j entries' Entry.default = nth j entries Entry.default)).
Proof.
  intros Hi. rewrite clear_values_pair.
  assert (E : clear_value entries index field
              = if idx >? len entries then raise (SystemExit 1)
                else
                  pos <- subscript entries idx ;;
                  match dummy_value field with
                  | None => raise (SystemExit 1)
                  | Some (name, value) =>
                    ret (update entries pos
                           (setattr (nth pos entries Entry.default)
                              name value))
                  end).
  { unfold clear_value. now rewrite Hi. }
  rewrite E. clear E.
  destruct (entry_position entries idx) as [H1 H2].
  split; [|split].
  - intros H. now replace (idx >? len entries) with true
      by (rewrite Z.gtb_ltb; symmetry; apply Z.ltb_lt; lia).
  - intros H. destruct (H1 H) as (-> & ->). reflexivity.
  - intros H. destruct (H2 H) as (-> & -> & Hpos). cbn [bind].
    split.
    + intros ->. reflexivity.
    + intros name v ->. cbv zeta. eexists. split; [reflexivity|].
      split; [unfold len; now rewrite update_length|].
      split; [now apply update_nth_same | intros j Hj].
      now apply update_nth_other.
Qed.

Lemma set_variable_within e name value r e' :
  name = "link_key"%string /\ r = Some (irange 16)
  \/ name = "bt_mac"%string /\ r = Some (irange 6)
  \/ name = "bt_name"%string /\ r = Some (irange 32)
  \/ name = "is_valid"%string /\ r = None ->
  set_variable e name value None r = ret e' ->
  within_fields e -> within_fields e'.
Proof.
  unfold within_fields. destruct e as [k a n b].
  cbn [Entry.link_key Entry.bt_mac Entry.bt_name].
  intros Hc H (Hk & Hkb & Ha & Hab & Hn).
  destruct Hc as [(-> & ->) | [(-> & ->) | [(-> & ->) | (-> & ->)]]];
    unfold set_variable in H;
    match type of H with
    | context [type_hints ?name] =>
      let t := eval vm_compute in (type_hints (A := Entry.t) name) in
      change (type_hints (A := Entry.t) name) with t in H
    end; cbv iota in H.
  - destruct (fromhex _) as [e|bs] eqn:Eh; cbn [bind] in H; [discriminate|].
    destruct (in_range (Some (irange 16)) (len bs)) eqn:Er; cbn [negb] in H;
      [|discriminate]. apply AssignFacts.in_irange in Er; [|lia].
    apply AssignFacts.fromhex_is_bytes in Eh.
    injection H as <-. cbn.
    repeat match goal with |- _ /\ _ => split end; assumption || lia.
  - destruct (fromhex _) as [e|bs] eqn:Eh; cbn [bind] in H; [discriminate|].
    destruct (in_range (Some (irange 6)) (len bs)) eqn:Er; cbn [negb] in H;
      [|discriminate]. apply AssignFacts.in_irange in Er; [|lia].
    apply AssignFacts.fromhex_is_bytes in Eh.
    injection H as <-. cbn.
    repeat match goal with |- _ /\ _ => split end; assumption || lia.
  - destruct (in_range (Some (irange 32)) (len value)) eqn:Er; cbn [negb] in H;
      [|discriminate]. apply AssignFacts.in_irange in Er; [|lia].
    injection H as <-. cbn.
    repeat match goal with |- _ /\ _ => split end; assumption || lia.
  - repeat match type of H with
    | (if ?c then _ else _) = _ => destruct c
    end; try discriminate H; injection H as <-; cbn;
    repeat match goal with |- _ /\ _ => split end; assumption.
Qed.

Lemma within_default : within_fields Entry.default.
Proof.
  unfold within_fields. cbn.
  repeat match goal with |- _ /\ _ => split end;
    (constructor || (unfold len; cbn; lia)).
Qed.

Lemma assign_value_within entries index field value entries' :
  assign_value entries index field value = ret entries' ->
  Forall within_fields entries ->
  Forall within_fields entries' /\ len entries' = len entries.
Proof.
  unfold assign_value. intros H Hall.
  destruct (int index) as [e|idx]; [discriminate|].
  destruct (idx >? len entries); [discriminate|].
  destruct (subscript entries idx) as [e|pos] eqn:Es; [discriminate|].
  cbn [bind] in H.
  assert (Hpos : (pos < List.length entries)%nat).
  { unfold subscript in Es. destruct (_ || _) eqn:Eb; [discriminate|].
    injection Es as <-. apply orb_false_elim in Eb. destruct Eb as [E1 E2].
    apply Z.ltb_ge in E1. apply Z.leb_gt in E2. unfold len in *. lia. }
  assert (Hent : within_fields (nth pos entries Entry.default)).
  { apply Forall_nth; assumption. }
  match type of H with
  | bind ?m _ = _ => destruct m as [e|entry'] eqn:Ev
  end; [discriminate|]. cbn [bind] in H. injection H as <-.
  split; [|unfold len; now rewrite update_length].
  apply Forall_update; [assumption|].
  repeat match type of Ev with
  | (if ?c then _ else _) = _ => destruct c
  end; try discriminate Ev.
  all: eapply set_variable_within; [|exact Ev|exact Hent]; tauto.
Qed.

Lemma assign_triplets_within triplets :
  forall entries entries',
    assign_triplets entries triplets = ret entries' ->
    Forall within_fields entries ->
    Forall within_fields entries' /\ len entries' = len entries.
Proof.
  induction triplets as [|p tl IH]; intros entries entries';
    cbn [assign_triplets].
  - intros H. injection H as <-. now split.
  - destruct p as [|index [|field [|value [|x p']]]]; try discriminate.
    destruct (assign_value entries index field value) as [e|es1] eqn:E;
      cbn [bind]; [discriminate|].
    intros H Hall.
    destruct (assign_value_within _ _ _ _ _ E Hall) as [Hall1 Hlen1].
    destruct (IH es1 entries' H Hall1) as [Hall2 Hlen2].
    split; [assumption | congruence].
Qed.

Lemma paired_index bp arg :
  (forall bp', set_paired_index bp arg = ret bp' ->
     BtPairing.entries bp' = BtPairing.entries bp
     /\ is_byte (BtPairing.paired_idx bp')
     /\ int arg = ret (BtPairing.paired_idx bp')
     /\ (BtPairing.valid bp -> BtPairing.valid bp'))
  /\ (forall e, set_paired_index bp arg = raise e -> e = SystemExit 1)
  /\ (forall idx, int arg = ret idx -> is_byte idx ->
        set_paired_index bp arg = ret (BtPairing.mk (BtPairing.entries bp) idx)).
Proof.
  unfold set_paired_index, irange, range_contains, is_byte.
  cbn [start stop step].
  destruct (int arg) as [e|idx].
  - split; [discriminate|]. split; [|discriminate].
    intros e' H. now injection H as <-.
  - destruct (Z.leb_spec 0 idx), (Z.ltb_spec idx (255 + 1)); cbn [andb negb];
      rewrite ?Z.sub_0_r, ?Z.mod_1_r; cbn [Z.eqb negb].
    2-4: (split; [discriminate|]); (split; [intros e' H'; now injection H' as <-|]);
         intros idx' Hi Hb; injection Hi as <-; lia.
    split; [|split; [discriminate|]].
    + intros bp' H'. injection H' as <-.
      cbn [BtPairing.entries BtPairing.paired_idx].
      split; [reflexivity|]. split; [lia|]. split; [reflexivity|].
      unfold BtPairing.valid. cbn [BtPairing.entries BtPairing.paired_idx].
      intros (Hne & Hall & _). unfold is_byte. repeat split; try assumption; lia.
    + intros idx' Hi _. now injection Hi as <-.
Qed.

End PairingEditFacts.

(** ** [clear_values] of [appotech-btinfo.py] *)

Module InfoClearFacts.
Import AppotechBtInfo.

Ltac decide_field field :=
  repeat match goal with
  | |- context [bytes_eqb field ?s] =>
    let E := fresh "E" in
    destruct (bytes_eqb field s) eqn:E;
    [apply SfxEntryFacts.bytes_eqb_eq in E; subst field |]
  end.

Lemma clear_values_fields args :
  forall r r',
    clear_values r args = ret r' ->
    BtInfo.flags r' = (if names args "flags" then 0 else BtInfo.flags r)
    /\ BtInfo.mic_unmute_thresh r'
       = (if names args "mic_unmute_thresh" then 0
          else BtInfo.mic_unmute_thresh r)
    /\ BtInfo.mic_mute_thresh r'
       = (if names args "mic_mute_thresh" then 0
          else BtInfo.mic_mute_thresh r)
    /\ BtInfo.mic_mute_duration r'
       = (if names args "mic_mute_duration" then 0
          else BtInfo.mic_mute_duration r)
    /\ BtInfo.bt_name r'
       = (if names args "bt_name" then [] else BtInfo.bt_name r)
    /\ BtInfo.bt_mac r'
       = (if names args "bt_mac" then [0; 0; 0; 0; 0; 0]
          else BtInfo.bt_mac r)
    /\ BtInfo.checksum r' = BtInfo.checksum r.
Proof.
  induction args as [|field tl IH]; intros r r'; cbn [clear_values].
  - intros H. injection H as <-. cbn. now repeat split.
  - destruct (dummy_value field) as [[name v]|] eqn:Ed; [|discriminate].
    intros H. apply IH in H.
    destruct H as (H1 & H2 & H3 & H4 & H5 & H6 & H7).
    rewrite H1, H2, H3, H4, H5, H6, H7. clear H1 H2 H3 H4 H5 H6 H7 IH.
    unfold names. cbn [existsb].
    fold (names tl "flags") (names tl "mic_unmute_thresh")
         (names tl "mic_mute_thresh") (names tl "mic_mute_duration")
         (names tl "bt_name") (names tl "bt_mac").
    destruct r as [f u m d n a c].
    unfold dummy_value in Ed. revert Ed. decide_field field.
    all: intros Ed; try discriminate Ed; injection Ed as <- <-.
    all: cbn.
    all: destruct (names tl "flags"), (names tl "mic_unmute_thresh"),
           (names tl "mic_mute_thresh"), (names tl "mic_mute_duration"),
           (names tl "bt_name"), (names tl "bt_mac");
         repeat match goal with |- _ /\ _ => split end; reflexivity.
Qed.

Lemma clear_values_error args :
  forall r e, clear_values r args = raise e -> e = SystemExit 1.
Proof.
  induction args as [|field tl IH]; intros r e; cbn [clear_values].
  - discriminate.
  - destruct (dummy_value field) as [[name v]|].
    + apply IH.
    + intros H. now injection H as <-.
Qed.

Lemma clear_values_constrained args r r' :
  clear_values r args = ret r' -> constrained r -> constrained r'.
Proof.
  intros H. apply clear_values_fields in H.
  destruct H as (H1 & H2 & H3 & H4 & H5 & H6 & _).
  unfold constrained. rewrite H1, H2, H3, H4, H5, H6.
  intros (C1 & C2 & C3 & C4 & C5 & C6 & C7).
  destruct (names args "flags"), (names args "mic_unmute_thresh"),
    (names args "mic_mute_thresh"), (names args "mic_mute_duration"),
    (names args "bt_name"), (names args "bt_mac");
  repeat match goal with |- _ /\ _ => split end;
  try assumption; try (unfold is_byte; lia); try (unfold len; cbn; lia);
  repeat (apply Forall_cons; [unfold is_byte; lia|]); apply Forall_nil.
Qed.

End InfoClearFacts.

(** X23.  [set_paired_index] of the pairing tool accepts exactly the
    arguments that [int] parses to a value in 0..255: it then stores that
    value, leaves the entries alone and keeps a valid database valid;
    every other argument ends in the exit with status 1. *)
Theorem btpairing_set_paired_index :
  forall (bp : BtPairing.t) (arg : str),
    (forall bp', AppotechBtPairing.set_paired_index bp arg = ret bp' ->
       BtPairing.entries bp' = BtPairing.entries bp
       /\ is_byte (BtPairing.paired_idx bp')
       /\ int arg = ret (BtPairing.paired_idx bp')
       /\ (BtPairing.valid bp -> BtPairing.valid bp'))
    /\ (forall e, AppotechBtPairing.set_paired_index bp arg = raise e ->
          e = SystemExit 1)
    /\ (forall idx, int arg = ret idx -> is_byte idx ->
          AppotechBtPairing.set_paired_index bp arg
          = ret (BtPairing.mk (BtPairing.entries bp) idx)).
Proof. exact PairingEditFacts.paired_index. Qed.

Lemma btpairing_set_paired_index_witness :
  AppotechBtPairing.set_paired_index BtPairing.default
    [0x662; 0x665; 0x665]
  = ret (BtPairing.mk [BtPairing.Entry.default] 255).
Proof.
  apply (proj2 (proj2 (btpairing_set_paired_index BtPairing.default
                         [0x662; 0x665; 0x665]))).
  - reflexivity.
  - unfold is_byte. lia.
Defined.

(** X24.  The index of an [(index, field)] pair of [clear_values] in the
    pairing tool.  An index that [int] does not parse, or one above the
    number of entries, is the exit with status 1; the index equal to the
    number of entries passes that test and the subscript raises
    [IndexError], as does an index below minus the number of entries; any
    other index, a negative one counting from the end, addresses one
    entry: an unknown field is the exit, a known field is reset in that
    entry, the other entries and the length of the list stay as they
    are. *)
Theorem btpairing_clear_values_index_handling :
  forall (entries : list BtPairing.Entry.t) (index field : str),
    match int index with
    | inl _ =>
      AppotechBtPairing.clear_values entries [index; field]
      = raise (SystemExit 1)
    | inr idx =>
      (len entries < idx ->
       AppotechBtPairing.clear_values entries [index; field]
       = raise (SystemExit 1))
      /\ (idx = len entries \/ idx < - len entries ->
          AppotechBtPairing.clear_values entries [index; field]
          = raise IndexError)
      /\ (- len entries <= idx < len entries ->
          (AppotechBtPairing.dummy_value field = None ->
           AppotechBtPairing.clear_values entries [index; field]
           = raise (SystemExit 1))
          /\ (forall name v,
                AppotechBtPairing.dummy_value field = Some (name, v) ->
                let pos := Z.to_nat (idx mod len entries) in
                exists entries',
                  AppotechBtPairing.clear_values entries [index; field]
                  = ret entries'
                  /\ len entries' = len entries
                  /\ nth pos entries' BtPairing.Entry.default
                     = setattr (nth pos entries BtPairing.Entry.default)
                         name v
                  /\ forall j, j <> pos ->
                       nth j entries' BtPairing.Entry.default
                       = nth j entries BtPairing.Entry.default))
    end.
Proof.
  intros entries index field.
  destruct (int index) as [e|idx] eqn:E.
  - rewrite PairingEditFacts.clear_values_pair.
    unfold AppotechBtPairing.clear_value. now rewrite E.
  - now apply PairingEditFacts.clear_index_handling.
Qed.

Lemma btpairing_clear_values_index_handling_witness :
  AppotechBtPairing.clear_values
    [BtPairing.Entry.default; BtPairing.Entry.default]
    [str_of "2"; str_of "is_valid"]
  = raise IndexError.
Proof.
  apply (proj1 (proj2 (btpairing_clear_values_index_handling
                         [BtPairing.Entry.default; BtPairing.Entry.default]
                         (str_of "2") (str_of "is_valid")))).
  left. reflexivity.
Defined.

(** X25.  [clear_values] of the pairing tool has no test of the number
    of its arguments: with an odd number of them it never returns, the
    last argument alone cannot be unpacked into an index and a field. *)
Theorem btpairing_clear_values_odd_arguments :
  forall (entries : list BtPairing.Entry.t) (args : list str),
    Z.odd (len args) = true ->
    exists e, AppotechBtPairing.clear_values entries args = raise e.
Proof.
  intros entries args. apply PairingEditFacts.clear_values_odd.
Qed.

Lemma btpairing_clear_values_odd_arguments_witness :
  exists e,
    AppotechBtPairing.clear_values [BtPairing.Entry.default]
      [str_of "0"; str_of "bt_name"; str_of "0"] = raise e.
Proof.
  apply (btpairing_clear_values_odd_arguments [BtPairing.Entry.default]
           [str_of "0"; str_of "bt_name"; str_of "0"]).
  reflexivity.
Defined.

(** X26.  [assign_values] of the pairing tool keeps every entry within
    its fields: if no link key is longer than 16 bytes, no MAC longer
    than 6 and no name longer than 32 characters before, the same holds
    after any assignments that succeed, and the number of entries is
    unchanged. *)
Theorem btpairing_assign_values_within_fields :
  forall (entries entries' : list BtPairing.Entry.t) (args : list str),
    AppotechBtPairing.assign_values entries args = ret entries' ->
    Forall AppotechBtPairing.within_fields entries ->
    Forall AppotechBtPairing.within_fields entries'
    /\ len entries' = len entries.
Proof.
  intros entries entries' args. unfold AppotechBtPairing.assign_values.
  destruct (negb _); [discriminate|].
  apply PairingEditFacts.assign_triplets_within.
Qed.

Lemma btpairing_assign_values_within_fields_witness :
  Forall AppotechBtPairing.within_fields
    [BtPairing.Entry.mk [1; 35] [] [] false]
  /\ len [BtPairing.Entry.mk [1; 35] [] [] false]
     = len [BtPairing.Entry.default].
Proof.
  apply (btpairing_assign_values_within_fields [BtPairing.Entry.default] _
           [str_of "0"; str_of "link_key"; str_of "01:23"]).
  - vm_compute. reflexivity.
  - constructor; [exact PairingEditFacts.within_default | constructor].
Defined.

(** X27.  [clear_values] of the BTINF tool.  When it returns, every field
    the arguments name holds the value of a fresh [BtInfo()], every other
    field and the checksum are as before, whatever the order and the
    repetitions of the arguments, and a record within the constraints of
    [assign_values] stays within them; when it does not return, it is the
    exit with status 1 at an argument that is no configurable field. *)
Theorem btinfo_clear_values_resets_fields :
  forall (r : BtInfo.t) (args : list str),
    (forall r', AppotechBtInfo.clear_values r args = ret r' ->
       BtInfo.flags r'
       = (if AppotechBtInfo.names args "flags" then 0 else BtInfo.flags r)
       /\ BtInfo.mic_unmute_thresh r'
          = (if AppotechBtInfo.names args "mic_unmute_thresh" then 0
             else BtInfo.mic_unmute_thresh r)
       /\ BtInfo.mic_mute_thresh r'
          = (if AppotechBtInfo.names args "mic_mute_thresh" then 0
             else BtInfo.mic_mute_thresh r)
       /\ BtInfo.mic_mute_duration r'
          = (if AppotechBtInfo.names args "mic_mute_duration" then 0
             else BtInfo.mic_mute_duration r)
       /\ BtInfo.bt_name r'
          = (if AppotechBtInfo.names args "bt_name" then []
             else BtInfo.bt_name r)
       /\ BtInfo.bt_mac r'
          = (if AppotechBtInfo.names args "bt_mac" then [0; 0; 0; 0; 0; 0]
             else BtInfo.bt_mac r)
       /\ BtInfo.checksum r' = BtInfo.checksum r
       /\ (AppotechBtInfo.constrained r -> AppotechBtInfo.constrained r'))
    /\ (forall e, AppotechBtInfo.clear_values r args = raise e ->
          e = SystemExit 1).
Proof.
  intros r args. split.
  - intros r' H.
    pose proof (InfoClearFacts.clear_values_fields args r r' H)
      as (H1 & H2 & H3 & H4 & H5 & H6 & H7).
    repeat match goal with |- _ /\ _ => split end; try assumption.
    now apply (InfoClearFacts.clear_values_constrained args).
  - apply InfoClearFacts.clear_values_error.
Qed.

Lemma btinfo_clear_values_resets_fields_witness :
  AppotechBtInfo.clear_values (BtInfo.mk 3 0 0 0 [65] [1; 2; 3; 4; 5; 6] 9)
    [str_of "flags"; str_of "bt_mac"]
  = ret (BtInfo.mk 0 0 0 0 [65] [0; 0; 0; 0; 0; 0] 9)
  /\ BtInfo.flags (BtInfo.mk 0 0 0 0 [65] [0; 0; 0; 0; 0; 0] 9) = 0.
Proof.
  split; [reflexivity|].
  apply (proj1 (btinfo_clear_values_resets_fields
                  (BtInfo.mk 3 0 0 0 [65] [1; 2; 3; 4; 5; 6] 9)
                  [str_of "flags"; str_of "bt_mac"]) _ eq_refl).
Defined.
